(** * Evidence link checker: a shallow embedding of
      [scripts/validate-evidence-links.py]

    The script reads the rule dataset, extracts the evidence URLs, probes each
    one (HEAD, then GET when needed), retries transient failures and prints a
    sorted report.  The development below follows the script function by
    function.

    Conventions of the model.
    - Python [str] values are Rocq [string]s: sequences of 8-bit code points,
      read as the Latin-1 range of Unicode.  [isspace], [lower] and the
      regular-expression classes are the Python ones restricted to that range.
    - Python [int] is [Z]; [None]-able fields are [option]s.
    - The three regular-expression operations the script uses ([search],
      [sub], group 1) are interpreted by a small backtracking matcher with
      Python's priorities (leftmost start, greedy and lazy repetition,
      ordered alternation).
    - The network, the codec registry, [urlparse], the clock and float
      multiplication are library code: they are parameters of the sections
      that need them.  Exceptions that the script does not catch end the
      process with a traceback and are not part of the model. *)

From Stdlib Require Import Ascii String ZArith Lia.
From Stdlib.Strings Require Import Byte.
From stdpp Require Import gmap strings list sorting pretty.

Open Scope string_scope.
Open Scope list_scope.
Open Scope Z_scope.

(** ** Text primitives *)

Module Text.

Definition text := list ascii.

Definition chars (s : string) : text := list_ascii_of_string s.
Definition str (t : text) : string := string_of_list_ascii t.

Definition code (c : ascii) : nat := nat_of_ascii c.

Definition between (lo hi n : nat) : bool := Nat.leb lo n && Nat.leb n hi.

(** [str.isspace] and the class [\s] of [re] on code points below 256:
    TAB..CR, FS..US, SPACE, NEL and NBSP. *)
Definition isspace (c : ascii) : bool :=
  let n := code c in
  between 9 13 n || between 28 32 n || Nat.eqb n 133 || Nat.eqb n 160.

(** [str.lower] on one code point below 256: A..Z and the accented capitals
    192..222 (the multiplication sign 215 excepted) move up by 32. *)
Definition lower_char (c : ascii) : ascii :=
  let n := code c in
  if between 65 90 n || (between 192 222 n && negb (Nat.eqb n 215))
  then ascii_of_nat (n + 32) else c.

Definition lower_text (t : text) : text := map lower_char t.
Definition lower (s : string) : string := str (lower_text (chars s)).

Fixpoint starts_with (p t : text) : bool :=
  match p, t with
  | [], _ => true
  | _ :: _, [] => false
  | a :: p', b :: t' => if decide (a = b) then starts_with p' t' else false
  end.

(** [needle in hay] on strings. *)
Fixpoint contains_text (needle hay : text) : bool :=
  starts_with needle hay ||
  match hay with
  | [] => false
  | _ :: hay' => contains_text needle hay'
  end.

Definition contains (needle hay : string) : bool :=
  contains_text (chars needle) (chars hay).

(** [str.strip(set)] with the set given as a predicate. *)
Fixpoint lstrip_by (p : ascii -> bool) (t : text) : text :=
  match t with
  | c :: t' => if p c then lstrip_by p t' else t
  | [] => []
  end.

Definition rstrip_by (p : ascii -> bool) (t : text) : text :=
  rev (lstrip_by p (rev t)).

Definition strip_by (p : ascii -> bool) (t : text) : text :=
  rstrip_by p (lstrip_by p t).

(** [s.strip()] *)
Definition strip (s : string) : string := str (strip_by isspace (chars s)).

(** Truthiness of a string, and [a or b] on an optional string. *)
Definition nonempty (s : string) : bool :=
  match s with EmptyString => false | _ => true end.

Definition or_else (a : option string) (b : string) : string :=
  match a with
  | Some s => if nonempty s then s else b
  | None => b
  end.

End Text.

Import Text.

(** ** Regular expressions

    The fragment of Python's [re] that the script's five patterns use:
    single characters and character classes, sequence, ordered alternation,
    greedy and lazy repetition of a class, an optional group, and one capture
    group.  The matcher is a backtracking matcher in continuation-passing
    style: it tries the alternatives in Python's order and the first complete
    match wins. *)

Module Re.

Inductive regex : Type :=
| Eps
| Chr (p : ascii -> bool)
| Seq (a b : regex)
| Alt (a b : regex)
| Star (p : ascii -> bool)
| LazyStar (p : ascii -> bool)
| Group (r : regex).

(** [p+] and [(?:r)?] *)
Definition Plus (p : ascii -> bool) : regex := Seq (Chr p) (Star p).
Definition Opt (r : regex) : regex := Alt r Eps.

(** Character tests: a literal, a literal under [re.IGNORECASE], the
    negated class [[^c]], [\s], and [.] under [re.DOTALL]. *)
Definition is_char (c x : ascii) : bool := bool_decide (x = c).
Definition is_char_ci (c x : ascii) : bool :=
  bool_decide (lower_char x = lower_char c).
Definition not_char (c x : ascii) : bool := negb (is_char c x).
Definition any_char (_ : ascii) : bool := true.

Fixpoint word_of (test : ascii -> ascii -> bool) (w : text) : regex :=
  match w with
  | [] => Eps
  | [c] => Chr (test c)
  | c :: w' => Seq (Chr (test c)) (word_of test w')
  end.

Definition lit (w : string) : regex := word_of is_char (chars w).
Definition lit_ci (w : string) : regex := word_of is_char_ci (chars w).

Section Matcher.
Context {A : Type}.

(** A continuation receives the capture of group 1 so far and the rest
    of the input. *)
Definition cont : Type := option text -> text -> option A.

Fixpoint star_greedy (p : ascii -> bool) (cap : option text) (k : cont)
    (s : text) : option A :=
  match s with
  | c :: s' =>
      if p c then
        match star_greedy p cap k s' with
        | Some x => Some x
        | None => k cap s
        end
      else k cap s
  | [] => k cap s
  end.

Fixpoint star_lazy (p : ascii -> bool) (cap : option text) (k : cont)
    (s : text) : option A :=
  match k cap s with
  | Some x => Some x
  | None =>
      match s with
      | c :: s' => if p c then star_lazy p cap k s' else None
      | [] => None
      end
  end.

Fixpoint run (r : regex) (cap : option text) (s : text) (k : cont)
    : option A :=
  match r with
  | Eps => k cap s
  | Chr p =>
      match s with
      | c :: s' => if p c then k cap s' else None
      | [] => None
      end
  | Seq a b => run a cap s (fun cap' s' => run b cap' s' k)
  | Alt a b =>
      match run a cap s k with
      | Some x => Some x
      | None => run b cap s k
      end
  | Star p => star_greedy p cap k s
  | LazyStar p => star_lazy p cap k s
  | Group r' =>
      run r' cap s
        (fun _ s' => k (Some (take (length s - length s') s)) s')
  end.
End Matcher.

(** [pattern.match(s)]: group 1 and the input left after the match. *)
Definition match_at (r : regex) (s : text) : option (option text * text) :=
  run r None s (fun cap rest => Some (cap, rest)).

(** [pattern.search(s)]: the leftmost match; returns the text before the
    match, group 1, and the text after the match. *)
Fixpoint search (r : regex) (s : text)
    : option (text * option text * text) :=
  match match_at r s with
  | Some (g, rest) => Some ([], g, rest)
  | None =>
      match s with
      | [] => None
      | c :: s' =>
          match search r s' with
          | Some (pre, g, rest) => Some (c :: pre, g, rest)
          | None => None
          end
      end
  end.

(** [pattern.sub(repl, s)] for a pattern that cannot match the empty
    string (both patterns given to [sub] start with a mandatory character):
    every leftmost non-overlapping match is replaced by [repl].  [skip]
    counts the characters of the current match still to be dropped. *)
Fixpoint sub_go (r : regex) (repl : text) (skip : nat) (s : text) : text :=
  match s with
  | [] => []
  | c :: s' =>
      match skip with
      | S n => sub_go r repl n s'
      | O =>
          match match_at r s with
          | Some (_, rest) =>
              match (length s - length rest)%nat with
              | S n => repl ++ sub_go r repl n s'
              | O => c :: sub_go r repl 0 s'
              end
          | None => c :: sub_go r repl 0 s'
          end
      end
  end.

Definition sub (r : regex) (repl : text) (s : text) : text :=
  sub_go r repl 0 s.

End Re.

Import Re.

Declare Scope re_scope.
Delimit Scope re_scope with re.
Bind Scope re_scope with regex.
Notation "a ⋅ b" := (Seq a b) (at level 45, right associativity) : re_scope.
Notation "a ∣ b" := (Alt a b) (at level 55, right associativity) : re_scope.

(** ** The script's constants *)

Definition USER_AGENT : string := "agnix-evidence-link-checker/1.0".

Definition RETRYABLE_STATUSES : list Z := [408; 429; 500; 502; 503; 504].

Definition gt_sign : ascii := ascii_of_nat 62.
Definition semicolon : ascii := ascii_of_nat 59.
Definition dquote : ascii := ascii_of_nat 34.
Definition squote : ascii := ascii_of_nat 39.

(** [<title[^>]*>(.*?)</title>], IGNORECASE and DOTALL *)
Definition TITLE_RE : regex :=
  (lit_ci "<title" ⋅ Star (not_char gt_sign) ⋅ lit_ci ">" ⋅
   Group (LazyStar any_char) ⋅ lit_ci "</title>")%re.

(** [<[^>]+>] *)
Definition TAG_RE : regex :=
  (lit "<" ⋅ Plus (not_char gt_sign) ⋅ lit ">")%re.

(** [\s+] *)
Definition WHITESPACE_RE : regex := Plus isspace.

(** [<h1[^>]*>\s*(404(?:\s+not\s+found)?|page\s+not\s+found|not\s+found)\s*</h1>],
    IGNORECASE *)
Definition NOT_FOUND_H1_RE : regex :=
  (lit_ci "<h1" ⋅ Star (not_char gt_sign) ⋅ lit_ci ">" ⋅ Star isspace ⋅
   Group ((lit_ci "404" ⋅
             Opt (Plus isspace ⋅ lit_ci "not" ⋅ Plus isspace ⋅ lit_ci "found"))
          ∣ (lit_ci "page" ⋅ Plus isspace ⋅ lit_ci "not" ⋅ Plus isspace ⋅
             lit_ci "found")
          ∣ (lit_ci "not" ⋅ Plus isspace ⋅ lit_ci "found")) ⋅
   Star isspace ⋅ lit_ci "</h1>")%re.

(** [charset=([^\s;]+)], IGNORECASE (the pattern inside [decode_body]) *)
Definition CHARSET_RE : regex :=
  (lit_ci "charset=" ⋅
   Group (Plus (fun c => negb (isspace c) && not_char semicolon c)))%re.

(** ** Small text functions of the script *)

(** [normalize_spaces] *)
Definition normalize_spaces (value : string) : string :=
  strip (str (sub WHITESPACE_RE (chars " ") (chars value))).

(** [is_html] *)
Definition is_html (content_type : string) : bool :=
  let lowered := lower content_type in
  contains "text/html" lowered || contains "application/xhtml+xml" lowered.

(** [not_found_heuristic] *)
Definition not_found_heuristic (html : string) : option string :=
  if negb (nonempty html) then None else
  let h1_check :=
    match search NOT_FOUND_H1_RE (chars html) with
    | Some _ => Some "HTML h1 indicates missing page"
    | None => None
    end in
  match search TITLE_RE (chars html) with
  | Some (_, g, _) =>
      let group1 := default [] g in
      let title_text :=
        normalize_spaces (lower (str (sub TAG_RE (chars " ") group1))) in
      if contains "404" title_text && contains "not found" title_text
      then Some "HTML title indicates 404"
      else if contains "page not found" title_text
      then Some "HTML title indicates missing page"
      else h1_check
  | None => h1_check
  end.

(** ** Data model *)

Record ProbeResult : Type := mkProbe {
  p_status : option Z;
  p_method : string;
  p_final_url : option string;
  p_content_type : string;
  p_body : string;
  p_error : option string
}.

Record UrlResult : Type := mkResult {
  ok : bool;
  method : string;
  status : option Z;
  detail : string;
  retryable : bool;
  final_url : option string
}.

Definition set_method (r : UrlResult) (m : string) : UrlResult :=
  {| ok := ok r; method := m; status := status r; detail := detail r;
     retryable := retryable r; final_url := final_url r |}.

Global Instance UrlResult_eq_dec : EqDecision UrlResult.
Proof. solve_decision. Defined.

(** ** Decoding the body *)

(** The codec registry behind [bytes.decode(encoding, errors="replace")].
    With [errors="replace"] a codec never rejects the bytes: the only failure
    the script handles is [LookupError], an encoding name the registry does
    not know.  The UTF-8 codec is built in, so that name always resolves;
    every other name, ["latin-1"] included, goes through the lookup. *)
Record codecs : Type := mkCodecs {
  decode_utf8 : list byte -> string;
  lookup_codec : string -> option (list byte -> string)
}.

Section Decode.
Variable reg : codecs.

(** [raw.decode(encoding, errors="replace")]; [None] is [LookupError]. *)
Definition bytes_decode (encoding : string) (raw : list byte)
    : option string :=
  if decide (encoding = "utf-8") then Some (decode_utf8 reg raw)
  else match lookup_codec reg encoding with
       | Some dec => Some (dec raw)
       | None => None
       end.

(** The charset named in the header: group 1 of the match, with single and
    double quote characters stripped from both ends. *)
Definition is_quote (c : ascii) : bool :=
  bool_decide (c = dquote) || bool_decide (c = squote).

Definition declared_charset (content_type : string) : option string :=
  match search CHARSET_RE (chars content_type) with
  | Some (_, g, _) => Some (str (strip_by is_quote (default [] g)))
  | None => None
  end.

(** The list [encodings] built by [decode_body]. *)
Definition encodings (content_type : string) : list string :=
  match declared_charset content_type with
  | Some cs => [cs]
  | None => []
  end ++ ["utf-8"; "latin-1"].

(** The [for encoding in encodings] loop: the first encoding that does not
    raise [LookupError] decides; after the loop, UTF-8. *)
Fixpoint decode_first (encs : list string) (raw : list byte) : string :=
  match encs with
  | encoding :: rest =>
      match bytes_decode encoding raw with
      | Some s => s
      | None => decode_first rest raw
      end
  | [] => decode_utf8 reg raw
  end.

Definition decode_body (raw : list byte) (content_type : string) : string :=
  match raw with
  | [] => ""
  | _ => decode_first (encodings content_type) raw
  end.
End Decode.

(** ** Classification of one probe *)

(** [evaluate_probe] *)
Definition evaluate_probe (probe : ProbeResult) : UrlResult :=
  match p_status probe with
  | None =>
      mkResult false (p_method probe) None
        (or_else (p_error probe) "network failure") true (p_final_url probe)
  | Some st =>
      if 400 <=? st then
        mkResult false (p_method probe) (Some st)
          (or_else (p_error probe) ("HTTP " +:+ pretty st))
          (bool_decide (st ∈ RETRYABLE_STATUSES)) (p_final_url probe)
      else
        let success :=
          mkResult true (p_method probe) (Some st) "ok" false
            (p_final_url probe) in
        if bool_decide (p_method probe = "GET") && is_html (p_content_type probe)
        then
          match not_found_heuristic (p_body probe) with
          | Some heuristic =>
              if nonempty heuristic then
                mkResult false (p_method probe) (Some st) heuristic false
                  (p_final_url probe)
              else success
          | None => success
          end
        else success
  end.

(** ** The network and one check *)

(** What [urlopen] does with one request, as [fetch] tells the cases apart:
    a response, an [HTTPError], or one of the caught transport errors
    ([URLError], [socket.timeout], [TimeoutError], [OSError]).  [resp_code]
    is [response.getcode()], which is [None] for a response that carries no
    HTTP status (the one urllib hands back after a redirect to a URL that is
    not HTTP, for instance).  [resp_body] is the whole entity body, of
    which [fetch] reads a bounded prefix; [err_body] is [None] when reading
    the error body raises [OSError]; a [Content-Type] of [None] is a missing
    header. *)
Inductive outcome : Type :=
| Response (resp_code : option Z) (resp_url : string)
    (resp_content_type : option string) (resp_body : list byte)
| HTTPError (err_code : Z) (err_url : string)
    (err_content_type : option string) (err_body : option (list byte))
| TransportError (type_name : string) (reason : string).

(** [response.read(amt)]: at most [amt] bytes, everything when [amt] is
    negative. *)
Definition read (amt : Z) (body : list byte) : list byte :=
  if amt <? 0 then body else take (Z.to_nat amt) body.

Section Probe.
(** Python floats (the timeout and the delays) and [float * int]. *)
Variable float : Type.
Variable fmul : float -> Z -> float.

(** The outside world: [urlopen] answers a request and [time.sleep] lets
    time pass; both may change the world. *)
Variable World : Type.
Variable urlopen : World -> string -> string -> float -> outcome * World.
Variable sleep : World -> float -> World.

Variable reg : codecs.

(** What the run does to the world, in order. *)
Inductive event : Type :=
| Request (meth : string) (url : string)
| Sleep (seconds : float).

Record state : Type := mkState {
  world : World;
  trace : list event
}.

(** [fetch] *)
Definition fetch (url meth : string) (timeout : float) (max_body_bytes : Z)
    (st : state) : ProbeResult * state :=
  let '(out, w) := urlopen (world st) url meth timeout in
  let st' := mkState w (trace st ++ [Request meth url]) in
  match out with
  | Response code geturl ctype body =>
      let raw := if decide (meth = "GET") then read max_body_bytes body
                 else [] in
      let content_type := default "" ctype in
      (mkProbe code meth (Some geturl) content_type
         (decode_body reg raw content_type) None, st')
  | HTTPError code geturl ctype body =>
      let raw := if decide (meth = "GET")
                 then match body with
                      | Some b => read max_body_bytes b
                      | None => []
                      end
                 else [] in
      let content_type := default "" ctype in
      (mkProbe (Some code) meth (Some geturl) content_type
         (decode_body reg raw content_type) (Some ("HTTP " +:+ pretty code)),
       st')
  | TransportError name reason =>
      (mkProbe None meth None "" "" (Some (name +:+ ": " +:+ reason)), st')
  end.

(** Truthiness of [head_probe.status]: present and non-zero. *)
Definition truthy_status (s : option Z) : bool :=
  match s with
  | Some n => negb (n =? 0)
  | None => false
  end.

Definition status_at_least (s : option Z) (n : Z) : bool :=
  match s with
  | Some m => n <=? m
  | None => false
  end.

(** [check_once] *)
Definition check_once (url : string) (timeout : float) (max_body_bytes : Z)
    (st : state) : UrlResult * state :=
  let '(head_probe, st1) := fetch url "HEAD" timeout max_body_bytes st in
  let head_result := evaluate_probe head_probe in
  if ok head_result && negb (is_html (p_content_type head_probe))
  then (head_result, st1)
  else
    let '(get_probe, st2) := fetch url "GET" timeout max_body_bytes st1 in
    let get_result := evaluate_probe get_probe in
    let get_result :=
      if ok head_result then set_method get_result "GET (verify-html)"
      else if bool_decide (method get_result = "GET")
           then set_method get_result "GET (fallback)"
           else get_result in
    if negb (ok get_result) && truthy_status (p_status head_probe)
       && status_at_least (p_status head_probe) 400
       && bool_decide (p_status get_probe = None)
    then (head_result, st2)
    else (get_result, st2).

(** [time.sleep(seconds)] *)
Definition do_sleep (seconds : float) (st : state) : state :=
  mkState (sleep (world st) seconds) (trace st ++ [Sleep seconds]).

(** The [for attempt in range(1, attempts + 1)] loop of
    [check_with_retries]: [n] iterations remain, [attempt] is the loop
    variable and [result] the last verdict. *)
Fixpoint retry_loop (url : string) (retry_delay timeout : float)
    (max_body_bytes attempts : Z) (n : nat) (attempt : Z)
    (result : UrlResult) (st : state) : (UrlResult * Z) * state :=
  match n with
  | O => ((result, attempts), st)
  | S n' =>
      let '(result, st1) := check_once url timeout max_body_bytes st in
      if ok result then ((result, attempt), st1)
      else if retryable result && (attempt <? attempts)
      then retry_loop url retry_delay timeout max_body_bytes attempts n'
             (attempt + 1) result (do_sleep (fmul retry_delay attempt) st1)
      else ((result, attempt), st1)
  end.

Definition uninitialized : UrlResult :=
  mkResult false "HEAD" None "uninitialized" true None.

(** [check_with_retries] *)
Definition check_with_retries (url : string) (retries : Z)
    (retry_delay timeout : float) (max_body_bytes : Z) (st : state)
    : (UrlResult * Z) * state :=
  let attempts := retries + 1 in
  retry_loop url retry_delay timeout max_body_bytes attempts
    (Z.to_nat attempts) 1 uninitialized st.

End Probe.

Arguments Request {float} meth url.
Arguments Sleep {float} seconds.
Arguments mkState {float World} world trace.
Arguments world {float World} s.
Arguments trace {float World} s.
Arguments fetch {float World} urlopen reg url meth timeout max_body_bytes st.
Arguments check_once {float World} urlopen reg url timeout max_body_bytes st.
Arguments do_sleep {float World} sleep seconds st.
Arguments retry_loop {float} fmul {World} urlopen sleep reg url retry_delay
  timeout max_body_bytes attempts n attempt result st.
Arguments check_with_retries {float} fmul {World} urlopen sleep reg url retries
  retry_delay timeout max_body_bytes st.

(** ** The rule dataset and URL extraction *)

(** A JSON value as [json.loads] returns it (numbers kept to integers). *)
#[warnings="-register-all"]
Inductive json : Type :=
| JNull
| JBool (b : bool)
| JNum (n : Z)
| JStr (s : string)
| JArr (items : list json)
| JObj (fields : list (string * json)).

(** A rule record, as far as the checker reads it: [rule.get('id')] (a
    string when present) and the entries of [evidence.source_urls]; a
    missing, null or empty [evidence] or [source_urls] is the empty list, as
    [or {}] and [or []] make it. *)
Record rule : Type := mkRule {
  rule_id : option string;
  source_urls : list json
}.

(** The two fields of [urlparse(url)] that the script reads. *)
Record parsed_url : Type := mkParsed {
  scheme : string;
  netloc : string
}.

Section Extract.
Variable urlparse : string -> parsed_url.

(** [rule.get('id', '<unknown>')] *)
Definition id_of (r : rule) : string := default "<unknown>" (rule_id r).

Definition valid_parse (p : parsed_url) : bool :=
  (bool_decide (scheme p = "http") || bool_decide (scheme p = "https"))
  && nonempty (netloc p).

(** What one entry of [source_urls] becomes: a URL to check, or a
    diagnostic. *)
Inductive verdict : Type :=
| Valid (url : string)
| Invalid (diagnostic : string).

Definition classify (r : rule) (raw : json) : verdict :=
  match raw with
  | JStr s =>
      let url := strip s in
      if negb (nonempty url)
      then Invalid (id_of r +:+ ": empty URL entry")
      else if negb (valid_parse (urlparse url))
      then Invalid (id_of r +:+ ": invalid URL '" +:+ url +:+ "'")
      else Valid url
  | _ => Invalid (id_of r +:+ ": non-string URL entry")
  end.

(** One iteration of the inner loop: [urls.add] or [invalid.add]. *)
Definition add_entry (r : rule) (acc : gset string * gset string)
    (raw : json) : gset string * gset string :=
  match classify r raw with
  | Valid url => ({[url]} ∪ acc.1, acc.2)
  | Invalid d => (acc.1, {[d]} ∪ acc.2)
  end.

Definition add_rule (acc : gset string * gset string) (r : rule)
    : gset string * gset string :=
  foldl (add_entry r) acc (source_urls r).

(** [sorted(set_of_str)]: Python compares strings code point by code
    point. *)
Definition sorted (s : gset string) : list string :=
  merge_sort String.le (elements s).

(** [load_unique_urls], on the parsed dataset. *)
Definition load_unique_urls (rules : list rule)
    : list string * list string :=
  let acc := foldl add_rule (∅, ∅) rules in
  (sorted acc.1, sorted acc.2).
End Extract.

(** ** The report *)

Record arguments (float : Type) : Type := mkArgs {
  arg_timeout : float;
  arg_retries : Z;
  arg_retry_delay : float;
  arg_max_body_bytes : Z
}.
Arguments mkArgs {float} _ _ _ _.
Arguments arg_timeout {float} a.
Arguments arg_retries {float} a.
Arguments arg_retry_delay {float} a.
Arguments arg_max_body_bytes {float} a.

Section Main.
Variable float : Type.
Variable fmul : float -> Z -> float.
Variable World : Type.
Variable urlopen : World -> string -> string -> float -> outcome * World.
Variable sleep : World -> float -> World.
Variable reg : codecs.
Variable urlparse : string -> parsed_url.

(** The running totals of [main] and the lines printed so far. *)
Record report : Type := mkReport {
  broken : Z;
  ok_count : Z;
  printed : list string
}.

(** Body of [for entry in invalid_entries]. *)
Definition report_invalid (rep : report) (entry : string) : report :=
  mkReport (broken rep + 1) (ok_count rep)
    (printed rep ++ ["BROKEN [-] parse " +:+ entry]).

Definition status_text (s : option Z) : string :=
  match s with
  | Some n => pretty n
  | None => "-"
  end.

Definition redirect_text (url : string) (final : option string) : string :=
  match final with
  | Some f => if nonempty f && negb (bool_decide (f = url))
              then " -> " +:+ f else ""
  | None => ""
  end.

Definition ok_line (url : string) (result : UrlResult) : string :=
  "OK     [" +:+ status_text (status result) +:+ "] " +:+ method result
  +:+ " " +:+ url +:+ redirect_text url (final_url result).

Definition broken_line (url : string) (result : UrlResult) (attempt : Z)
    : string :=
  "BROKEN [" +:+ status_text (status result) +:+ "] " +:+ method result
  +:+ " " +:+ url +:+ " (" +:+ detail result +:+ "; attempts="
  +:+ pretty attempt +:+ ")" +:+ redirect_text url (final_url result).

(** Body of [for url in urls]. *)
Definition report_url (args : arguments float)
    (acc : report * state float World) (url : string)
    : report * state float World :=
  let '(rep, st) := acc in
  let '((result, attempt), st') :=
    check_with_retries fmul urlopen sleep reg url (arg_retries args)
      (arg_retry_delay args) (arg_timeout args) (arg_max_body_bytes args)
      st in
  if ok result
  then (mkReport (broken rep) (ok_count rep + 1)
          (printed rep ++ [ok_line url result]), st')
  else (mkReport (broken rep + 1) (ok_count rep)
          (printed rep ++ [broken_line url result attempt]), st').

Definition summary_line (total ok_n broken_n : Z) : string :=
  "Summary: checked=" +:+ pretty total +:+ " ok=" +:+ pretty ok_n
  +:+ " broken=" +:+ pretty broken_n.

(** [main]: the exit code, the lines written to standard output, and the
    world afterwards. *)
Definition main (args : arguments float) (rules : list rule)
    (st : state float World) : (Z * list string) * state float World :=
  let '(urls, invalid_entries) := load_unique_urls urlparse rules in
  let rep0 := foldl report_invalid (mkReport 0 0 []) invalid_entries in
  let '(rep, st') := foldl (report_url args) (rep0, st) urls in
  let total := Z.of_nat (length urls) + Z.of_nat (length invalid_entries) in
  let out := printed rep ++ [summary_line total (ok_count rep) (broken rep)] in
  ((if broken rep =? 0 then 0 else 1, out), st').
End Main.

Arguments main {float} fmul {World} urlopen sleep reg urlparse args rules st.
Arguments report_url {float} fmul {World} urlopen sleep reg args acc url.

(** * The vocabulary of the statements

    Definitions that the properties below are stated with: they describe
    runs, reports and matches, and are not part of the script. *)

(** ** Retry schedules *)

Section Schedule.
Context {float World : Type}.
Variable fmul : float -> Z -> float.
Variable urlopen : World -> string -> string -> float -> outcome * World.
Variable sleep : World -> float -> World.
Variable reg : codecs.
Variables (url : string) (retry_delay timeout : float) (max_body_bytes : Z).

Implicit Types (st : state float World) (a attempts : Z) (k n : nat).

(** One attempt. *)
Definition attempt st : UrlResult * state float World :=
  check_once urlopen reg url timeout max_body_bytes st.

(** The state in which attempt number [a + k] starts, when the attempts
    [a], ..., [a + k - 1] each ran and were followed by their sleep of
    [retry_delay × attempt number]. *)
Fixpoint advance a k st : state float World :=
  match k with
  | O => st
  | S k' => advance (a + 1) k' (do_sleep sleep (fmul retry_delay a) (attempt st).2)
  end.

(** The verdict of the attempt that follows [k] slept-over attempts. *)
Definition verdict_after a k st : UrlResult := (attempt (advance a k st)).1.

Definition fails_retryably (v : UrlResult) : Prop :=
  ok v = false /\ retryable v = true.

(** The events of a run in which every attempt of [evs] is followed by its
    sleep. *)
Fixpoint with_sleeps a (evs : list (list (event float))) : list (event float) :=
  match evs with
  | [] => []
  | ev :: rest => ev ++ Sleep (fmul retry_delay a) :: with_sleeps (a + 1) rest
  end.

Definition attempt_events (ev : list (event float)) : Prop :=
  ev = [Request "HEAD" url] \/ ev = [Request "HEAD" url; Request "GET" url].

Definition sleeps_of (tr : list (event float)) : list float :=
  omap (fun e => match e with Sleep s => Some s | Request _ _ => None end) tr.

Definition is_head (e : event float) : bool :=
  match e with
  | Request m _ => bool_decide (m = "HEAD")
  | Sleep _ => false
  end.

Definition heads_of (tr : list (event float)) : nat :=
  length (List.filter is_head tr).

End Schedule.

(** ** Outcomes and report lines *)

(** One [CheckOutcome]: the URL, its final verdict and the attempts used. *)
Abbreviation check_outcome := (string * (UrlResult * Z))%type.

Section Outcomes.
Context {float World : Type}.
Variable fmul : float -> Z -> float.
Variable urlopen : World -> string -> string -> float -> outcome * World.
Variable sleep : World -> float -> World.
Variable reg : codecs.
Variable args : arguments float.

Implicit Types (st : state float World) (url : string).

Definition check_url url st : (UrlResult * Z) * state float World :=
  check_with_retries fmul urlopen sleep reg url (arg_retries args)
    (arg_retry_delay args) (arg_timeout args) (arg_max_body_bytes args) st.

(** The outcomes of checking the URLs one after the other. *)
Fixpoint check_all (urls : list string) st
    : list check_outcome * state float World :=
  match urls with
  | [] => ([], st)
  | url :: rest =>
      let '(o, st1) := check_url url st in
      let '(os, st2) := check_all rest st1 in
      ((url, o) :: os, st2)
  end.

Definition passed (o : check_outcome) : bool := ok o.2.1.

Definition outcome_line (o : check_outcome) : string :=
  if passed o then ok_line o.1 o.2.1 else broken_line o.1 o.2.1 o.2.2.

Definition parse_line (diagnostic : string) : string :=
  "BROKEN [-] parse " +:+ diagnostic.

Definition count_passed (os : list check_outcome) : Z :=
  Z.of_nat (length (List.filter passed os)).

Definition count_failed (os : list check_outcome) : Z :=
  Z.of_nat (length (List.filter (fun o => negb (passed o)) os)).

(** An event that belongs to the check of [url]. *)
Definition event_for url (e : event float) : Prop :=
  match e with
  | Request _ u => u = url
  | Sleep _ => True
  end.

End Outcomes.

(** ** Entries and their order *)

Section Entries.
Variable urlparse : string -> parsed_url.

(** An entry that the extractor rejects: not a string, empty after
    trimming, a scheme other than http and https, or an empty network
    location (the [netloc] of the parse: user information, host and port
    together). *)
Definition rejected (raw : json) : Prop :=
  match raw with
  | JStr s =>
      strip s = "" \/
      (scheme (urlparse (strip s)) ≠ "http" /\
       scheme (urlparse (strip s)) ≠ "https") \/
      netloc (urlparse (strip s)) = ""
  | _ => True
  end.

End Entries.

(** Strictly increasing: no two neighbours are equal. *)
Definition str_lt (a b : string) : Prop := String.le a b /\ a ≠ b.

(** ** Matches of a regular expression *)

(** [matches r cap s cap']: the pattern [r] matches exactly the text [s], and
    group 1 goes from [cap] to [cap']. *)
Inductive matches : regex -> option text -> text -> option text -> Prop :=
| M_Eps cap : matches Eps cap [] cap
| M_Chr p c cap : p c = true -> matches (Chr p) cap [c] cap
| M_Seq a b cap cap1 cap2 s1 s2 :
    matches a cap s1 cap1 -> matches b cap1 s2 cap2 ->
    matches (Seq a b) cap (s1 ++ s2) cap2
| M_AltL a b cap cap' s : matches a cap s cap' -> matches (Alt a b) cap s cap'
| M_AltR a b cap cap' s : matches b cap s cap' -> matches (Alt a b) cap s cap'
| M_Star p cap s : forallb p s = true -> matches (Star p) cap s cap
| M_LazyStar p cap s : forallb p s = true -> matches (LazyStar p) cap s cap
| M_Group r cap cap' s : matches r cap s cap' -> matches (Group r) cap s (Some s).

(** [t] spells the word [w], letter case aside. *)
Definition same_letters (w : string) (t : text) : Prop :=
  lower_text t = lower_text (chars w).

(** White space only, and a non-empty run of white space. *)
Definition blank (t : text) : Prop := forallb isspace t = true.
Definition gap (t : text) : Prop := blank t /\ t ≠ [].

(** [t] is the words [ws], letter case aside, with white space between
    consecutive words. *)
Fixpoint spaced (ws : list string) (t : text) : Prop :=
  match ws with
  | [] => t = []
  | [w] => same_letters w t
  | w :: ws' =>
      exists a g t', t = a ++ g ++ t' /\ same_letters w a /\ gap g /\
                     spaced ws' t'
  end.

Definition not_found_phrase (t : text) : Prop :=
  spaced ["404"] t \/ spaced ["404"; "not"; "found"] t \/
  spaced ["page"; "not"; "found"] t \/ spaced ["not"; "found"] t.

Definition no_gt (t : text) : Prop := forallb (not_char gt_sign) t = true.

(** [m] is a whole heading element [<h1 ...>phrase</h1>] whose content is
    one of the four phrases, surrounded by optional white space and with
    nothing else, markup included, inside. *)
Definition h1_element (m : text) : Prop :=
  exists o attrs lead phrase trail c,
    m = o ++ attrs ++ [gt_sign] ++ lead ++ phrase ++ trail ++ c /\
    same_letters "<h1" o /\ no_gt attrs /\ blank lead /\
    not_found_phrase phrase /\ blank trail /\ same_letters "</h1>" c.

(** [m] is a whole element [<title ...>inner</title>]. *)
Definition title_element (m inner : text) : Prop :=
  exists o attrs c,
    m = o ++ attrs ++ [gt_sign] ++ inner ++ c /\
    same_letters "<title" o /\ no_gt attrs /\ same_letters "</title>" c.

(** [inner] is the content of the first title element of [s]: no title
    element starts earlier, and none that starts at the same place is
    shorter. *)
Definition first_title (s inner : text) : Prop :=
  exists pre m post,
    s = pre ++ m ++ post /\ title_element m inner /\
    forall pre' m' inner' post',
      s = pre' ++ m' ++ post' -> title_element m' inner' ->
      (length pre <= length pre')%nat /\
      (length pre' = length pre -> (length inner <= length inner')%nat).

(** The heading rule: some [<h1>] element of [s] holds exactly one of the
    phrases. *)
Definition has_not_found_h1 (s : text) : Prop :=
  exists pre m post, s = pre ++ m ++ post /\ h1_element m.

(** The text of a title as the heuristic reads it: tags replaced by spaces,
    lower case, white space collapsed and trimmed. *)
Definition title_text_of (inner : text) : string :=
  normalize_spaces (lower (str (sub TAG_RE (chars " ") inner))).

(** The first title element of the page contains every one of [needles]. *)
Definition title_says (html : string) (needles : list string) : Prop :=
  exists inner,
    first_title (chars html) inner /\
    Forall (fun n => contains n (title_text_of inner) = true) needles.

(** A word: non-empty and free of white space. *)
Definition solid (w : text) : Prop :=
  w ≠ [] /\ forallb (fun c => negb (isspace c)) w = true.

(** [worded body ws]: [body] is the words [ws] in order, separated by runs of
    white space and possibly followed by white space. *)
Inductive worded : text -> list text -> Prop :=
| W_nil : worded [] []
| W_last w trail : solid w -> blank trail -> worded (w ++ trail) [w]
| W_cons w g body ws :
    solid w -> gap g -> worded body ws -> ws ≠ [] ->
    worded (w ++ g ++ body) (w :: ws).

(** The words joined by single spaces. *)
Fixpoint unwords (ws : list text) : text :=
  match ws with
  | [] => []
  | [w] => w
  | w :: ws' => w ++ chars " " ++ unwords ws'
  end.

(** A text that neither starts nor ends with white space. *)
Definition tight (x : text) : Prop :=
  lstrip_by isspace x = x /\ lstrip_by isspace (rev x) = rev x.

(** The four phrases of the heading rule. *)
Definition NOT_FOUND_PHRASES : list string :=
  ["404"; "404 not found"; "page not found"; "not found"].

(** A character of a charset name: neither white space nor a semicolon. *)
Definition charset_char (c : ascii) : bool :=
  negb (isspace c) && not_char semicolon c.

(** [m] is a whole element [<h1 ...>inner</h1>]. *)
Definition h1_wrapped (m inner : text) : Prop :=
  exists o attrs c,
    m = o ++ attrs ++ [gt_sign] ++ inner ++ c /\
    same_letters "<h1" o /\ no_gt attrs /\ same_letters "</h1>" c.

(** Rule 3 of the heuristic: some heading's content, lower-cased and with
    white space collapsed and trimmed, is one of the four phrases.  Markup
    inside the heading stays in the text that is compared. *)
Definition heading_says_not_found (s : text) : Prop :=
  exists pre m inner post,
    s = pre ++ m ++ post /\ h1_wrapped m inner /\
    normalize_spaces (lower (str inner)) ∈ NOT_FOUND_PHRASES.

(** Rule 3 as the specification words it: the tags inside the heading are
    stripped before the text is compared. *)
Definition stated_h1_rule (s : text) : Prop :=
  exists pre m inner post,
    s = pre ++ m ++ post /\ h1_wrapped m inner /\
    title_text_of inner ∈ NOT_FOUND_PHRASES.

(** ** Further vocabulary *)

(** What [fetch] can see of an outcome when it reads at most [n] bytes. *)
Definition truncate_body (n : Z) (o : outcome) : outcome :=
  match o with
  | Response code url ctype body =>
      Response code url ctype (take (Z.to_nat n) body)
  | HTTPError code url ctype body =>
      HTTPError code url ctype (take (Z.to_nat n) <$> body)
  | TransportError _ _ => o
  end.

(** [cites rules i raw]: some rule with identifier [i] lists the entry
    [raw]. *)
Definition cites (rules : list rule) (i : string) (raw : json) : Prop :=
  exists r, r ∈ rules /\ id_of r = i /\ raw ∈ source_urls r.

(** The number of entries of the dataset. *)
Definition entry_count (rules : list rule) : nat :=
  length (concat (map source_urls rules)).

(** The number of requests of a trace. *)
Definition is_request {float : Type} (e : event float) : bool :=
  match e with
  | Request _ _ => true
  | Sleep _ => false
  end.

Definition requests_of {float : Type} (tr : list (event float)) : nat :=
  length (List.filter is_request tr).

(** An event of a run over [urls]: a HEAD or a GET request to one of them,
    or a sleep of [retry_delay × k] for an attempt number [k] that a retry
    follows. *)
Definition run_event {float : Type} (fmul : float -> Z -> float)
    (urls : list string) (retry_delay : float) (retries : Z)
    (e : event float) : Prop :=
  match e with
  | Request m u => (m = "HEAD" \/ m = "GET") /\ u ∈ urls
  | Sleep d => exists k, 1 <= k <= retries /\ d = fmul retry_delay k
  end.

(** Report lines by their first word. *)
Definition is_ok_line (line : string) : bool :=
  starts_with (chars "OK     [") (chars line).

Definition is_broken_line (line : string) : bool :=
  starts_with (chars "BROKEN [") (chars line).

Definition count_lines (p : string -> bool) (lines : list string) : Z :=
  Z.of_nat (length (List.filter p lines)).

(** A pattern whose character tests do not tell letter cases apart. *)
Fixpoint case_blind (r : regex) : Prop :=
  match r with
  | Eps => True
  | Chr p | Star p | LazyStar p => forall c, p (lower_char c) = p c
  | Seq a b | Alt a b => case_blind a /\ case_blind b
  | Group r' => case_blind r'
  end.

(** The continuation [k'] reads lower-cased what [k] reads as it is, and
    answers alike, up to [f]. *)
Definition follows {A B : Type} (f : A -> B)
    (k' : option text -> text -> option B)
    (k : option text -> text -> option A) : Prop :=
  forall cap s, k' (lower_text <$> cap) (lower_text s) = f <$> k cap s.

(** A match and a search result, lower-cased. *)
Definition lower_match (m : option text * text) : option text * text :=
  (lower_text <$> m.1, lower_text m.2).

Definition lower_found (m : text * option text * text)
    : text * option text * text :=
  (lower_text m.1.1, lower_text <$> m.1.2, lower_text m.2).

Ltac case_blind_tests :=
  cbn; repeat split; intros c;
  destruct c as [[] [] [] [] [] [] [] []]; vm_compute; reflexivity.

(** ** A scripted world for concrete runs

    The world is the list of outcomes still to come: [urlopen] hands out the
    next one, and reports a timeout once the script is exhausted.  Delays are
    whole seconds. *)

Module Scripted.

Definition timed_out : outcome := TransportError "TimeoutError" "timed out".

Definition urlopen (w : list outcome) (url meth : string) (timeout : Z)
    : outcome * list outcome :=
  match w with
  | o :: w' => (o, w')
  | [] => (timed_out, [])
  end.

Definition sleep (w : list outcome) (seconds : Z) : list outcome := w.

(** A registry that knows no codec besides the built-in one, which here
    reads every byte as the code point of the same number. *)
Definition bytes_as_text (raw : list byte) : string :=
  str (map ascii_of_byte raw).

Definition reg : codecs := mkCodecs bytes_as_text (fun _ => None).

Definition start (w : list outcome) : state Z (list outcome) := mkState w [].

Definition plain_200 : outcome :=
  Response (Some 200) "https://example.com/spec.txt" (Some "text/plain") [].

Definition html_200 (body : string) : outcome :=
  Response (Some 200) "https://example.com/"
    (Some "text/html; charset=utf-8")
    (map byte_of_ascii (chars body)).

Definition http_error (code : Z) : outcome :=
  HTTPError code "https://example.com/" (Some "text/html") (Some []).

(** A stand-in for [urllib.parse.urlparse], after [urlsplit]: leading
    control characters and spaces are dropped, TAB, CR and LF removed, the
    scheme is what precedes the first colon when it starts with a letter and
    consists of letters, digits, plus, minus and dot, and the network
    location is what follows a double slash up to the next slash, question
    mark or hash. *)
Definition is_alpha (c : ascii) : bool :=
  between 65 90 (code c) || between 97 122 (code c).

Definition scheme_char (c : ascii) : bool :=
  is_alpha c || between 48 57 (code c)
  || bool_decide (code c = 43%nat) || bool_decide (code c = 45%nat)
  || bool_decide (code c = 46%nat).

Definition c0_or_space (c : ascii) : bool := Nat.leb (code c) 32.

Definition unsafe (c : ascii) : bool :=
  bool_decide (code c = 9%nat) || bool_decide (code c = 10%nat)
  || bool_decide (code c = 13%nat).

Fixpoint span (p : ascii -> bool) (t : text) : text * text :=
  match t with
  | c :: t' => if p c then let '(a, b) := span p t' in (c :: a, b) else ([], t)
  | [] => ([], [])
  end.

Definition is_colon (c : ascii) : bool := bool_decide (code c = 58%nat).

Definition netloc_end (c : ascii) : bool :=
  bool_decide (code c = 47%nat) || bool_decide (code c = 63%nat)
  || bool_decide (code c = 35%nat).

Definition urlparse (url : string) : parsed_url :=
  let u := List.filter (fun c => negb (unsafe c))
             (lstrip_by c0_or_space (chars url)) in
  let '(before, after) := span (fun c => negb (is_colon c)) u in
  let '(sch, rest) :=
    match before, after with
    | c :: _, _ :: after' =>
        if is_alpha c && forallb scheme_char before
        then (lower_text before, after') else ([], u)
    | _, _ => ([], u)
    end in
  let loc :=
    match rest with
    | a :: b :: rest' =>
        if netloc_end a && bool_decide (a = b) && bool_decide (code a = 47%nat)
        then (span (fun c => negb (netloc_end c)) rest').1 else []
    | _ => []
    end in
  mkParsed (str sch) (str loc).

(** A stand-in for the [hostname] property of a parse result, which urllib
    computes from the network location: what follows the last [@]; the
    inside of the brackets when one opens; otherwise what precedes the first
    colon; lower-cased up to a percent sign.  The empty string stands for
    [None]. *)
Definition is_at (c : ascii) : bool := bool_decide (code c = 64%nat).
Definition is_open_bracket (c : ascii) : bool := bool_decide (code c = 91%nat).
Definition is_close_bracket (c : ascii) : bool :=
  bool_decide (code c = 93%nat).
Definition is_percent (c : ascii) : bool := bool_decide (code c = 37%nat).

(** [t.rpartition(c)[2]]: what follows the last [c], all of [t] without
    one. *)
Fixpoint after_last (p : ascii -> bool) (t : text) : text :=
  match t with
  | [] => []
  | c :: t' =>
      if existsb p t' then after_last p t' else if p c then t' else t
  end.

Definition hostname (netloc : string) : string :=
  let hostinfo := after_last is_at (chars netloc) in
  let host :=
    match (span (fun c => negb (is_open_bracket c)) hostinfo).2 with
    | _ :: bracketed =>
        (span (fun c => negb (is_close_bracket c)) bracketed).1
    | [] => (span (fun c => negb (is_colon c)) hostinfo).1
    end in
  let '(name, zone) := span (fun c => negb (is_percent c)) host in
  str (lower_text name ++ zone).

(** Stand-ins for the UTF-8 codec on the alphabet of the model: ASCII bytes
    stand for themselves and the two-byte sequences that start with C2 or
    C3 for the code points 128 to 255.  Any other byte cannot be used: the
    strict decoder then fails, and the decoder with [errors="replace"]
    writes a question mark for it and goes on.  (Python writes U+FFFD, which
    lies outside the alphabet; the question mark is what that character
    becomes when the text is encoded to Latin-1.) *)
Fixpoint utf8_decode (strict : bool) (raw : list byte) : option text :=
  match raw with
  | [] => Some []
  | b :: rest =>
      let n := code (ascii_of_byte b) in
      let bad :=
        if strict then None
        else cons (ascii_of_nat 63) <$> utf8_decode strict rest in
      if Nat.ltb n 128
      then cons (ascii_of_nat n) <$> utf8_decode strict rest
      else
        match rest with
        | b2 :: rest' =>
            let m := code (ascii_of_byte b2) in
            if between 194 195 n && between 128 191 m
            then cons (ascii_of_nat ((n - 192) * 64 + (m - 128)))
                   <$> utf8_decode strict rest'
            else bad
        | [] => bad
        end
  end.

(** Strict decoding by name: UTF-8 and Latin-1 are known, and Latin-1
    accepts every byte. *)
Definition strict_decode (encoding : string) (raw : list byte)
    : option string :=
  if decide (encoding = "utf-8") then str <$> utf8_decode true raw
  else if decide (encoding = "latin-1") then Some (bytes_as_text raw)
  else None.

(** A registry with the UTF-8 codec above in [errors="replace"] mode and
    the Latin-1 codec. *)
Definition reg_replace : codecs :=
  mkCodecs (fun raw => str (default [] (utf8_decode false raw)))
    (fun name => if decide (name = "latin-1") then Some bytes_as_text
                 else None).

Definition args : arguments Z := mkArgs 12 2 1 131072.

(** Two rules that cite the same page; the second also lists an FTP link
    twice and a number. *)
Definition rules : list rule :=
  [ mkRule (Some "CC-001")
      [JStr "https://example.com/spec.txt"; JStr " https://example.com/b "];
    mkRule (Some "CC-002")
      [JStr "https://example.com/spec.txt"; JStr "ftp://example.com/x";
       JNum 7; JStr "ftp://example.com/x"] ].

End Scripted.

(** ** Two rules as the specification words them

    Where the script does something else than the specification says, a
    second definition follows the words of the specification; the
    properties compare it with the script. *)

(** An entry that the specification has rejected: as [rejected], with the
    host of the network location in the place of the network location
    itself. *)
Definition stated_rejected (urlparse : string -> parsed_url)
    (hostname : string -> string) (raw : json) : Prop :=
  match raw with
  | JStr s =>
      strip s = "" \/
      (scheme (urlparse (strip s)) ≠ "http" /\
       scheme (urlparse (strip s)) ≠ "https") \/
      hostname (netloc (urlparse (strip s))) = ""
  | _ => True
  end.

(** Decoding as the specification has it: the declared charset, UTF-8 and
    Latin-1 are tried in this order with strict decoders, which fail on a
    name they do not know and on bytes that are not valid in the encoding;
    the first that succeeds decides. *)
Fixpoint first_decoding (strict : string -> list byte -> option string)
    (encs : list string) (raw : list byte) : option string :=
  match encs with
  | encoding :: rest =>
      match strict encoding raw with
      | Some s => Some s
      | None => first_decoding strict rest raw
      end
  | [] => None
  end.

Definition stated_decode_body (strict : string -> list byte -> option string)
    (raw : list byte) (content_type : string) : option string :=
  match raw with
  | [] => Some ""
  | _ => first_decoding strict (encodings content_type) raw
  end.


(** * Properties *)

(** ** Classification ([evaluate_probe]) *)

Lemma or_else_some (e alt : string) : e ≠ "" -> or_else (Some e) alt = e.
Proof. destruct e; [congruence | reflexivity]. Qed.

Lemma starts_with_spec (p t : text) :
  starts_with p t = true <-> exists rest, t = p ++ rest.
Proof.
  revert t. induction p as [|a p IH]; intros t; cbn [starts_with].
  - split; [eauto | reflexivity].
  - destruct t as [|b t]; [split; [discriminate | intros [rest H]; discriminate] |].
    destruct (decide (a = b)) as [-> | Hne].
    + rewrite IH. split; intros [rest H]; exists rest.
      * cbn. now rewrite H.
      * cbn in H. now injection H.
    + split; [discriminate |]. intros [rest H]. cbn in H.
      injection H as H _. congruence.
Qed.

(** [needle in hay]: the needle occurs somewhere in the text. *)
Lemma contains_text_spec (needle hay : text) :
  contains_text needle hay = true <->
  exists before after, hay = before ++ needle ++ after.
Proof.
  induction hay as [|c hay IH]; cbn [contains_text].
  - rewrite orb_false_r, starts_with_spec. split.
    + intros [rest H]. exists [], rest. exact H.
    + intros (before & after & H). destruct before; [eauto |]. discriminate.
  - rewrite orb_true_iff, IH, starts_with_spec. split.
    + intros [[rest H] | (before & after & H)].
      * exists [], rest. exact H.
      * exists (c :: before), after. cbn. now rewrite H.
    + intros ([|c' before] & after & H).
      * left. eauto.
      * right. cbn in H. injection H as -> H. eauto.
Qed.

Lemma retryable_statuses_spec (st : Z) :
  st ∈ RETRYABLE_STATUSES <->
  st = 408 \/ st = 429 \/ st = 500 \/ st = 502 \/ st = 503 \/ st = 504.
Proof.
  unfold RETRYABLE_STATUSES. rewrite !elem_of_cons, elem_of_nil. tauto.
Qed.

Lemma evaluate_probe_no_status (probe : ProbeResult) :
  p_status probe = None ->
  evaluate_probe probe =
    mkResult false (p_method probe) None
      (or_else (p_error probe) "network failure") true (p_final_url probe).
Proof. intros H. unfold evaluate_probe. now rewrite H. Qed.

Lemma evaluate_probe_error_status (probe : ProbeResult) (st : Z) :
  p_status probe = Some st -> 400 <= st ->
  evaluate_probe probe =
    mkResult false (p_method probe) (Some st)
      (or_else (p_error probe) ("HTTP " +:+ pretty st))
      (bool_decide (st ∈ RETRYABLE_STATUSES)) (p_final_url probe).
Proof.
  intros H Hge. unfold evaluate_probe. rewrite H.
  destruct (400 <=? st) eqn:E; [reflexivity | lia].
Qed.

Lemma evaluate_probe_ok_status (probe : ProbeResult) :
  ok (evaluate_probe probe) = true ->
  exists st, p_status probe = Some st /\ st < 400.
Proof.
  unfold evaluate_probe. destruct (p_status probe) as [st|]; [|discriminate].
  destruct (400 <=? st) eqn:E; [discriminate|]. intros _. exists st. split; [done|lia].
Qed.

(** C3.  A probe without a status code is a retryable failure whose detail
    is the error description of the probe (the text ["network failure"] when
    the probe carries none); a probe with a status of 400 or more is a
    failure that is retryable exactly for 408, 429, 500, 502, 503 and 504. *)
Theorem evaluate_probe_failures (probe : ProbeResult) :
  (p_status probe = None ->
     ok (evaluate_probe probe) = false /\
     retryable (evaluate_probe probe) = true /\
     (forall e, p_error probe = Some e -> e ≠ "" ->
        detail (evaluate_probe probe) = e) /\
     (p_error probe = None \/ p_error probe = Some "" ->
        detail (evaluate_probe probe) = "network failure")) /\
  (forall st, p_status probe = Some st -> 400 <= st ->
     ok (evaluate_probe probe) = false /\
     (retryable (evaluate_probe probe) = true <->
        st = 408 \/ st = 429 \/ st = 500 \/ st = 502 \/ st = 503 \/ st = 504) /\
     (~ (st = 408 \/ st = 429 \/ st = 500 \/ st = 502 \/ st = 503 \/ st = 504) ->
        retryable (evaluate_probe probe) = false)).
Proof.
  split.
  - intros H. rewrite (evaluate_probe_no_status _ H). cbn.
    repeat split; try reflexivity.
    + intros e He Hne. rewrite He. now apply or_else_some.
    + intros [-> | ->]; reflexivity.
  - intros st H Hge. rewrite (evaluate_probe_error_status _ _ H Hge). cbn.
    rewrite <- retryable_statuses_spec.
    split; [reflexivity |]. split.
    + apply bool_decide_eq_true.
    + apply bool_decide_eq_false_2.
Qed.

Lemma evaluate_probe_failures_witness :
  let timeout := mkProbe None "HEAD" None "" "" (Some "TimeoutError: timed out") in
  let gone := mkProbe (Some 410) "GET" None "" "" (Some "HTTP 410") in
  (ok (evaluate_probe timeout) = false /\
   retryable (evaluate_probe timeout) = true /\
   detail (evaluate_probe timeout) = "TimeoutError: timed out") /\
  (ok (evaluate_probe gone) = false /\ retryable (evaluate_probe gone) = false).
Proof.
  intros timeout gone. split.
  - destruct (evaluate_probe_failures timeout) as [H _].
    destruct (H eq_refl) as (H1 & H2 & H3 & _).
    split; [exact H1 | split; [exact H2 |]].
    apply H3; [reflexivity | discriminate].
  - destruct (evaluate_probe_failures gone) as [_ H].
    destruct (H 410 eq_refl ltac:(lia)) as (H1 & _ & H3).
    split; [exact H1 |]. apply H3. lia.
Defined.

(** ** One check ([fetch], [check_once]) *)

Section ProbeFacts.
Context {float World : Type}.
Variable urlopen : World -> string -> string -> float -> outcome * World.
Variable reg : codecs.

Implicit Types (url meth : string) (timeout : float) (st : state float World).

Lemma fetch_method url meth timeout mbb st :
  p_method (fetch urlopen reg url meth timeout mbb st).1 = meth.
Proof.
  unfold fetch. destruct (urlopen _ _ _ _) as [[| |] w]; reflexivity.
Qed.

Lemma fetch_trace url meth timeout mbb st :
  trace (fetch urlopen reg url meth timeout mbb st).2
  = trace st ++ [Request meth url].
Proof.
  unfold fetch. destruct (urlopen _ _ _ _) as [[| |] w]; reflexivity.
Qed.

(** X8.  A probe that [fetch] returns without a status comes from a caught
    transport error or from a response whose [getcode()] is [None].  In the
    first case the probe carries the error description [<type>: <reason>]
    and the verdict's detail is that description; in the second the probe
    carries no error text and the detail is the text ["network failure"].
    Either way the verdict is a failure that is retryable. *)
Lemma fetch_no_status_detail url meth timeout mbb st :
  let probe := (fetch urlopen reg url meth timeout mbb st).1 in
  let out := (urlopen (world st) url meth timeout).1 in
  p_status probe = None ->
  ok (evaluate_probe probe) = false /\
  retryable (evaluate_probe probe) = true /\
  ((exists name reason,
      out = TransportError name reason /\
      p_error probe = Some (name +:+ ": " +:+ reason) /\
      detail (evaluate_probe probe) = name +:+ ": " +:+ reason) \/
   (exists geturl ctype body,
      out = Response None geturl ctype body /\
      p_error probe = None /\
      detail (evaluate_probe probe) = "network failure")).
Proof.
  unfold fetch.
  destruct (urlopen _ _ _ _) as [[code u ct b | code u ct b | name reason] w];
    cbn [fst p_status]; intros Hnone; [subst code | discriminate |].
  - split; [reflexivity |]. split; [reflexivity |].
    right. exists u, ct, b. now split.
  - split; [reflexivity |]. split; [reflexivity |].
    left. exists name, reason. split; [reflexivity |]. split; [reflexivity |].
    unfold evaluate_probe. cbn. now destruct name.
Qed.

Lemma evaluate_probe_method (probe : ProbeResult) :
  method (evaluate_probe probe) = p_method probe.
Proof.
  unfold evaluate_probe.
  repeat (match goal with
          | |- context [match ?x with _ => _ end] => destruct x
          end; cbn); reflexivity.
Qed.

Lemma evaluate_probe_status (probe : ProbeResult) :
  status (evaluate_probe probe) = p_status probe.
Proof.
  unfold evaluate_probe.
  repeat (match goal with
          | |- context [match ?x with _ => _ end] => destruct x eqn:?
          end; cbn); congruence.
Qed.

Lemma set_method_ok (r : UrlResult) (m : string) : ok (set_method r m) = ok r.
Proof. reflexivity. Qed.

(** [check_once] when the HEAD alone decides, and when a GET follows. *)
Lemma check_once_head_decides url timeout mbb st :
  let head := fetch urlopen reg url "HEAD" timeout mbb st in
  ok (evaluate_probe head.1) = true ->
  is_html (p_content_type head.1) = false ->
  check_once urlopen reg url timeout mbb st = (evaluate_probe head.1, head.2).
Proof.
  intros head Hok Hhtml. unfold check_once. fold head.
  destruct head as [hp st1]. cbn [fst snd] in *. now rewrite Hok, Hhtml.
Qed.

Lemma check_once_with_get url timeout mbb st :
  let head := fetch urlopen reg url "HEAD" timeout mbb st in
  let head_verdict := evaluate_probe head.1 in
  let get := fetch urlopen reg url "GET" timeout mbb head.2 in
  let get_verdict := evaluate_probe get.1 in
  ok head_verdict = false \/ is_html (p_content_type head.1) = true ->
  check_once urlopen reg url timeout mbb st =
    (let g := if ok head_verdict
              then set_method get_verdict "GET (verify-html)"
              else set_method get_verdict "GET (fallback)" in
     if negb (ok g) && truthy_status (p_status head.1)
        && status_at_least (p_status head.1) 400
        && bool_decide (p_status get.1 = None)
     then head_verdict else g, get.2).
Proof.
  intros head head_verdict get get_verdict Hcase.
  assert (Hm : method get_verdict = "GET").
  { unfold get_verdict. rewrite evaluate_probe_method. apply fetch_method. }
  unfold check_once.
  change (fetch urlopen reg url "HEAD" timeout mbb st) with head.
  subst head_verdict get_verdict get.
  destruct head as [hp st1]. cbn [fst snd] in *.
  replace (ok (evaluate_probe hp) && negb (is_html (p_content_type hp)))
    with false
    by (destruct Hcase as [-> | ->]; [reflexivity | now rewrite andb_false_r]).
  destruct (fetch urlopen reg url "GET" timeout mbb st1) as [gp st2].
  cbn [fst snd] in *. rewrite Hm.
  rewrite (bool_decide_eq_true_2 _ eq_refl).
  destruct (ok (evaluate_probe hp));
    match goal with |- context [if ?c then _ else _] => destruct c end;
    reflexivity.
Qed.

(** C1.  When the HEAD verdict failed or the HEAD response is HTML, a GET
    follows the HEAD.  A successful HEAD verdict returns the GET verdict
    relabelled ["GET (verify-html)"]; a HEAD status of 400 or more together
    with a GET probe without status returns the HEAD verdict; every other
    case returns the GET verdict, relabelled ["GET (fallback)"] since the
    HEAD verdict failed. *)
Theorem check_once_tie_break url timeout mbb st :
  let head := fetch urlopen reg url "HEAD" timeout mbb st in
  let head_verdict := evaluate_probe head.1 in
  let get := fetch urlopen reg url "GET" timeout mbb head.2 in
  let get_verdict := evaluate_probe get.1 in
  let run := check_once urlopen reg url timeout mbb st in
  ok head_verdict = false \/ is_html (p_content_type head.1) = true ->
  run.2 = get.2 /\
  trace run.2 = trace st ++ [Request "HEAD" url; Request "GET" url] /\
  (ok head_verdict = true ->
     run.1 = set_method get_verdict "GET (verify-html)") /\
  ((exists s, p_status head.1 = Some s /\ 400 <= s) ->
   p_status get.1 = None ->
     run.1 = head_verdict) /\
  (ok head_verdict = false ->
   ~ ((exists s, p_status head.1 = Some s /\ 400 <= s) /\
      p_status get.1 = None) ->
     run.1 = set_method get_verdict "GET (fallback)").
Proof.
  intros head head_verdict get get_verdict run Hcase.
  pose proof (check_once_with_get url timeout mbb st Hcase) as Hrun.
  fold head head_verdict get get_verdict run in Hrun.
  rewrite Hrun. cbn [fst snd].
  split; [reflexivity |].
  split.
  { unfold get; rewrite !fetch_trace;
      unfold head; rewrite fetch_trace; now rewrite <- app_assoc. }
  split; [| split].
  - intros Hok. rewrite Hok.
    destruct (evaluate_probe_ok_status _ Hok) as (s & Hs & Hlt).
    rewrite Hs. cbn [status_at_least].
    replace (400 <=? s) with false by lia.
    now rewrite andb_false_r.
  - intros (s & Hs & Hge) Hnone.
    assert (Hhead : ok head_verdict = false).
    { unfold head_verdict. now rewrite (evaluate_probe_error_status _ _ Hs Hge). }
    assert (Hget : ok get_verdict = false).
    { unfold get_verdict. now rewrite (evaluate_probe_no_status _ Hnone). }
    rewrite Hhead, set_method_ok, Hget, Hs, Hnone. cbn.
    replace (s =? 0) with false by lia.
    replace (400 <=? s) with true by lia.
    reflexivity.
  - intros Hhead Hnot. rewrite Hhead.
    destruct (_ && _) eqn:E; [| reflexivity].
    exfalso. apply Hnot.
    apply andb_prop in E as [E E4]. apply andb_prop in E as [E E3].
    apply bool_decide_eq_true_1 in E4.
    destruct (p_status head.1) as [s|]; [| discriminate].
    split; [| exact E4]. exists s. split; [reflexivity |].
    cbn in E3. lia.
Qed.

(** C5.  A successful HEAD verdict on a response that is not HTML is
    returned as it is, and the HEAD is the only request made. *)
Theorem check_once_head_only url timeout mbb st :
  let head := fetch urlopen reg url "HEAD" timeout mbb st in
  let run := check_once urlopen reg url timeout mbb st in
  ok (evaluate_probe head.1) = true ->
  is_html (p_content_type head.1) = false ->
  run = (evaluate_probe head.1, head.2) /\
  trace run.2 = trace st ++ [Request "HEAD" url].
Proof.
  intros head run Hok Hhtml.
  pose proof (check_once_head_decides url timeout mbb st Hok Hhtml) as Hrun.
  split; [exact Hrun |].
  unfold run. rewrite Hrun. cbn [snd]. apply fetch_trace.
Qed.

(** Every check starts with one HEAD request and makes at most one GET
    request after it. *)
Lemma check_once_trace url timeout mbb st :
  exists new,
    trace (check_once urlopen reg url timeout mbb st).2 = trace st ++ new /\
    (new = [Request "HEAD" url] \/
     new = [Request "HEAD" url; Request "GET" url]).
Proof.
  set (head := fetch urlopen reg url "HEAD" timeout mbb st).
  destruct (ok (evaluate_probe head.1)
            && negb (is_html (p_content_type head.1))) eqn:E.
  - apply andb_prop in E as [E1 E2]. apply negb_true_iff in E2.
    rewrite (check_once_head_decides url timeout mbb st E1 E2).
    cbn [snd]. rewrite fetch_trace. eauto.
  - assert (Hc : ok (evaluate_probe head.1) = false \/
                 is_html (p_content_type head.1) = true).
    { apply andb_false_iff in E as [E | E]; [now left | right].
      now apply negb_false_iff in E. }
    rewrite (check_once_with_get url timeout mbb st Hc).
    cbn [snd]. rewrite !fetch_trace, <- app_assoc. eauto.
Qed.

End ProbeFacts.

Lemma check_once_tie_break_witness :
  let url := "https://example.com/" in
  let st := Scripted.start
              [Scripted.http_error 405; Scripted.html_200 "<title>hi</title>"] in
  let run := check_once Scripted.urlopen Scripted.reg url 12 131072 st in
  (ok run.1 = true /\ method run.1 = "GET (fallback)") /\
  trace run.2 = [Request "HEAD" url; Request "GET" url].
Proof.
  intros url st run.
  destruct (check_once_tie_break Scripted.urlopen Scripted.reg url 12 131072 st)
    as (_ & Htrace & _ & _ & Hfallback).
  { left. reflexivity. }
  split; [| exact Htrace].
  unfold run. rewrite Hfallback.
  - split; reflexivity.
  - reflexivity.
  - intros [_ H]. discriminate H.
Defined.

Lemma check_once_head_only_witness :
  let url := "https://example.com/spec.txt" in
  let st := Scripted.start [Scripted.plain_200] in
  let run := check_once Scripted.urlopen Scripted.reg url 12 131072 st in
  (ok run.1 = true /\ method run.1 = "HEAD") /\
  trace run.2 = [Request "HEAD" url].
Proof.
  intros url st run.
  destruct (check_once_head_only Scripted.urlopen Scripted.reg url 12 131072 st)
    as [Hrun Htrace]; [reflexivity | reflexivity |].
  split; [| exact Htrace].
  unfold run. rewrite Hrun. split; reflexivity.
Defined.

(** ** Retries ([check_with_retries]) *)

Section RetryFacts.
Context {float World : Type}.
Variable fmul : float -> Z -> float.
Variable urlopen : World -> string -> string -> float -> outcome * World.
Variable sleep : World -> float -> World.
Variable reg : codecs.
Variables (url : string) (retry_delay timeout : float) (max_body_bytes : Z).

Implicit Types (st : state float World) (a attempts : Z) (k n : nat).

Abbreviation loop := (retry_loop fmul urlopen sleep reg url retry_delay timeout
                        max_body_bytes).
Abbreviation attempt := (attempt urlopen reg url timeout max_body_bytes).
Abbreviation advance :=
  (advance fmul urlopen sleep reg url retry_delay timeout max_body_bytes).
Abbreviation verdict_after :=
  (verdict_after fmul urlopen sleep reg url retry_delay timeout max_body_bytes).
Abbreviation with_sleeps := (with_sleeps fmul retry_delay).
Abbreviation attempt_events := (attempt_events url).

Lemma advance_succ a k st :
  advance a (S k) st
  = do_sleep sleep (fmul retry_delay (a + Z.of_nat k))
      (attempt (advance a k st)).2.
Proof.
  revert a st. induction k as [|k IH]; intros a st.
  - cbn. now rewrite Z.add_0_r.
  - change (advance a (S (S k)) st)
      with (advance (a + 1) (S k)
              (do_sleep sleep (fmul retry_delay a) (attempt st).2)).
    rewrite IH.
    replace (a + Z.of_nat (S k)) with (a + 1 + Z.of_nat k) by lia.
    reflexivity.
Qed.

Lemma retry_loop_unfold n a attempts result st :
  loop attempts (S n) a result st
  = if ok (attempt st).1 then (((attempt st).1, a), (attempt st).2)
    else if retryable (attempt st).1 && (a <? attempts)
    then loop attempts n (a + 1) (attempt st).1
           (do_sleep sleep (fmul retry_delay a) (attempt st).2)
    else (((attempt st).1, a), (attempt st).2).
Proof.
  cbn [retry_loop]. fold (attempt st). now destruct (attempt st).
Qed.

(** The loop passes over attempts that fail retryably before the last
    attempt number. *)
Lemma retry_loop_skip k : forall n a attempts result st,
  (forall j, (j < k)%nat -> fails_retryably (verdict_after a j st)) ->
  a + Z.of_nat k <= attempts ->
  exists result',
    loop attempts (k + n)%nat a result st
    = loop attempts n (a + Z.of_nat k) result' (advance a k st).
Proof.
  induction k as [|k IH]; intros n a attempts result st Hfail Hle.
  - exists result. cbn. now rewrite Z.add_0_r.
  - destruct (Hfail 0%nat ltac:(lia)) as [Hok Hretry].
    unfold verdict_after in Hok, Hretry. cbn [advance] in Hok, Hretry.
    cbn [Nat.add]. rewrite retry_loop_unfold, Hok, Hretry.
    replace (a <? attempts) with true by lia. cbn [andb].
    destruct (IH n (a + 1) attempts (attempt st).1
                (do_sleep sleep (fmul retry_delay a) (attempt st).2))
      as [r' Hr'].
    + intros j Hj. apply (Hfail (S j)). lia.
    + lia.
    + exists r'. rewrite Hr'. cbn [advance]. f_equal. lia.
Qed.

(** The attempt at which the loop stops. *)
Lemma retry_loop_stop n a attempts result st :
  let v := (attempt st).1 in
  ok v = true \/ retryable v = false \/ attempts <= a ->
  loop attempts (S n) a result st = ((v, a), (attempt st).2).
Proof.
  intros v Hstop. rewrite retry_loop_unfold. fold v.
  destruct (ok v); [reflexivity |].
  destruct Hstop as [H | [-> | H]]; [discriminate | reflexivity |].
  replace (a <? attempts) with false by lia.
  now rewrite andb_false_r.
Qed.

(** Every run of the loop is a number of retryably failing attempts, each
    followed by its sleep, and one last attempt whose verdict is returned
    with its attempt number. *)
Lemma retry_loop_run n : forall a attempts result st,
  a + Z.of_nat n = attempts ->
  exists k,
    (k <= n)%nat /\
    (forall j, (j < k)%nat -> fails_retryably (verdict_after a j st)) /\
    (ok (verdict_after a k st) = true \/
     retryable (verdict_after a k st) = false \/ k = n) /\
    loop attempts (S n) a result st
    = ((verdict_after a k st, a + Z.of_nat k), (attempt (advance a k st)).2).
Proof.
  induction n as [|n IH]; intros a attempts result st Ha.
  - exists 0%nat. split; [lia |]. split; [intros j Hj; lia |].
    split; [auto |]. unfold verdict_after. cbn [advance].
    rewrite retry_loop_stop by (right; right; lia).
    now rewrite Z.add_0_r.
  - destruct (ok (attempt st).1) eqn:Hok;
      [| destruct (retryable (attempt st).1) eqn:Hretry].
    + exists 0%nat. split; [lia |]. split; [intros j Hj; lia |].
      unfold verdict_after. cbn [advance]. split; [auto |].
      rewrite retry_loop_stop by auto. now rewrite Z.add_0_r.
    + destruct (IH (a + 1) attempts (attempt st).1
                  (do_sleep sleep (fmul retry_delay a) (attempt st).2)
                  ltac:(lia))
        as (k & Hk & Hfail & Hlast & Hrun).
      exists (S k). split; [lia |]. split; [| split].
      * intros [|j] Hj; unfold verdict_after; cbn [advance].
        -- now split.
        -- apply Hfail. lia.
      * unfold verdict_after in *. cbn [advance].
        destruct Hlast as [H | [H | H]]; auto.
      * rewrite retry_loop_unfold, Hok, Hretry.
        replace (a <? attempts) with true by lia.
        cbn [andb]. rewrite Hrun. unfold verdict_after. cbn [advance].
        do 2 f_equal. lia.
    + exists 0%nat. split; [lia |]. split; [intros j Hj; lia |].
      unfold verdict_after. cbn [advance]. split; [auto |].
      rewrite retry_loop_stop by auto. now rewrite Z.add_0_r.
Qed.

(** *** What a run writes to the trace *)

Lemma attempt_trace st :
  exists ev, trace (attempt st).2 = trace st ++ ev /\ attempt_events ev.
Proof. apply check_once_trace. Qed.

Lemma advance_trace k : forall a st,
  exists evs,
    length evs = k /\ Forall attempt_events evs /\
    trace (advance a k st) = trace st ++ with_sleeps a evs.
Proof.
  induction k as [|k IH]; intros a st.
  - exists []. cbn. now rewrite app_nil_r.
  - destruct (attempt_trace st) as (ev & Hev & Hshape).
    destruct (IH (a + 1)
                (do_sleep sleep (fmul retry_delay a) (attempt st).2))
      as (evs & Hlen & Hall & Htr).
    exists (ev :: evs). split; [cbn; lia |]. split; [now constructor |].
    cbn [advance with_sleeps]. rewrite Htr. cbn [do_sleep trace].
    rewrite Hev, <- !app_assoc. reflexivity.
Qed.

Lemma sleeps_of_app (t1 t2 : list (event float)) :
  sleeps_of (t1 ++ t2) = sleeps_of t1 ++ sleeps_of t2.
Proof. apply omap_app. Qed.

Lemma heads_of_app (t1 t2 : list (event float)) :
  heads_of (t1 ++ t2) = (heads_of t1 + heads_of t2)%nat.
Proof. unfold heads_of. now rewrite List.filter_app, length_app. Qed.

Lemma attempt_events_sleeps (ev : list (event float)) :
  attempt_events ev -> sleeps_of ev = [].
Proof. intros [-> | ->]; reflexivity. Qed.

Lemma attempt_events_heads (ev : list (event float)) :
  attempt_events ev -> heads_of ev = 1%nat.
Proof. intros [-> | ->]; reflexivity. Qed.

Lemma with_sleeps_sleeps evs : forall a,
  Forall attempt_events evs ->
  sleeps_of (with_sleeps a evs)
  = map (fmul retry_delay) (seqZ a (Z.of_nat (length evs))).
Proof.
  induction evs as [|ev evs IH]; intros a Hall; [reflexivity |].
  inversion Hall as [|? ? Hev Hrest]; subst.
  cbn [with_sleeps length].
  change (Sleep (fmul retry_delay a) :: with_sleeps (a + 1) evs)
    with ([Sleep (fmul retry_delay a)] ++ with_sleeps (a + 1) evs).
  rewrite !sleeps_of_app, (attempt_events_sleeps _ Hev), (IH _ Hrest).
  rewrite (seqZ_cons a) by lia.
  cbn [map app]. change (sleeps_of [Sleep (fmul retry_delay a)])
    with [fmul retry_delay a].
  cbn [app]. do 3 f_equal; lia.
Qed.

Lemma with_sleeps_heads evs : forall a,
  Forall attempt_events evs -> heads_of (with_sleeps a evs) = length evs.
Proof.
  induction evs as [|ev evs IH]; intros a Hall; [reflexivity |].
  inversion Hall as [|? ? Hev Hrest]; subst.
  cbn [with_sleeps length]. rewrite heads_of_app, (attempt_events_heads _ Hev).
  change (Sleep (fmul retry_delay a) :: with_sleeps (a + 1) evs)
    with ([Sleep (fmul retry_delay a)] ++ with_sleeps (a + 1) evs).
  rewrite heads_of_app, (IH _ Hrest). reflexivity.
Qed.

(** The trace after the attempt that follows [k] slept-over attempts. *)
Lemma run_trace a k st :
  exists evs last,
    length evs = k /\ Forall attempt_events (last :: evs) /\
    trace (attempt (advance a k st)).2
    = trace st ++ with_sleeps a evs ++ last /\
    sleeps_of (with_sleeps a evs ++ last)
    = map (fmul retry_delay) (seqZ a (Z.of_nat k)) /\
    heads_of (with_sleeps a evs ++ last) = S k.
Proof.
  destruct (advance_trace k a st) as (evs & Hlen & Hall & Htr).
  destruct (attempt_trace (advance a k st)) as (last & Hlast & Hshape).
  exists evs, last. split; [exact Hlen |]. split; [now constructor |].
  split; [now rewrite Hlast, Htr, <- app_assoc |].
  split.
  - rewrite sleeps_of_app, (attempt_events_sleeps _ Hshape), app_nil_r.
    rewrite with_sleeps_sleeps by exact Hall. now rewrite Hlen.
  - rewrite heads_of_app, (attempt_events_heads _ Hshape).
    rewrite with_sleeps_heads by exact Hall. lia.
Qed.

Abbreviation retries_run retries st :=
  (check_with_retries fmul urlopen sleep reg url retries retry_delay timeout
     max_body_bytes st).

Lemma check_with_retries_loop retries st :
  0 <= retries ->
  retries_run retries st
  = loop (retries + 1) (S (Z.to_nat retries)) 1 uninitialized st.
Proof.
  intros H. unfold check_with_retries. f_equal.
  rewrite Z2Nat.inj_add by lia. cbn. lia.
Qed.

(** A run stops at the first attempt that succeeds or is not retryable. *)
Lemma retries_stop_at retries k st :
  0 <= retries -> (k <= Z.to_nat retries)%nat ->
  (forall j, (j < k)%nat -> fails_retryably (verdict_after 1 j st)) ->
  ok (verdict_after 1 k st) = true \/
  retryable (verdict_after 1 k st) = false \/ k = Z.to_nat retries ->
  retries_run retries st
  = ((verdict_after 1 k st, Z.of_nat k + 1), (attempt (advance 1 k st)).2).
Proof.
  intros Hr Hk Hfail Hstop. rewrite check_with_retries_loop by exact Hr.
  replace (S (Z.to_nat retries)) with (k + S (Z.to_nat retries - k))%nat by lia.
  destruct (retry_loop_skip k (S (Z.to_nat retries - k)) 1 (retries + 1)
              uninitialized st Hfail ltac:(lia)) as [r' ->].
  rewrite retry_loop_stop.
  - unfold verdict_after. do 2 f_equal. lia.
  - unfold verdict_after in Hstop.
    destruct Hstop as [H | [H | H]]; auto. right; right. lia.
Qed.

(** X17.  With a negative [retries] the range of the loop is empty: no
    attempt is made and the initial verdict comes back with the count
    [retries + 1]. *)
Lemma check_with_retries_no_attempt retries st :
  retries < 0 ->
  retries_run retries st = ((uninitialized, retries + 1), st).
Proof.
  intros H. unfold check_with_retries.
  replace (Z.to_nat (retries + 1)) with 0%nat by lia. reflexivity.
Qed.

(** C2.  With [retries >= 0], [check_with_retries] makes at most
    [retries + 1] attempts; it stops at the first successful verdict and
    returns it with its attempt number; when every attempt fails retryably it
    makes exactly [retries + 1] attempts, with sleeps of
    [retry_delay × 1], ..., [retry_delay × retries] between consecutive
    attempts; and a first verdict that fails and is not retryable is returned
    after that one attempt. *)
Theorem check_with_retries_schedule (retries : Z) st :
  0 <= retries ->
  let r := Z.to_nat retries in
  let run := retries_run retries st in
  (exists k evs last,
     (k <= r)%nat /\
     run = ((verdict_after 1 k st, Z.of_nat k + 1),
            (attempt (advance 1 k st)).2) /\
     length evs = k /\ Forall attempt_events (last :: evs) /\
     trace run.2 = trace st ++ with_sleeps 1 evs ++ last /\
     heads_of (with_sleeps 1 evs ++ last) = S k) /\
  (forall k, (k <= r)%nat ->
     (forall j, (j < k)%nat -> fails_retryably (verdict_after 1 j st)) ->
     ok (verdict_after 1 k st) = true ->
     run = ((verdict_after 1 k st, Z.of_nat k + 1),
            (attempt (advance 1 k st)).2)) /\
  ((forall j, (j <= r)%nat -> fails_retryably (verdict_after 1 j st)) ->
     run.1 = (verdict_after 1 r st, retries + 1) /\
     exists evs last,
       length evs = r /\ Forall attempt_events (last :: evs) /\
       trace run.2 = trace st ++ with_sleeps 1 evs ++ last /\
       sleeps_of (with_sleeps 1 evs ++ last)
       = map (fmul retry_delay) (seqZ 1 retries) /\
       heads_of (with_sleeps 1 evs ++ last) = S r) /\
  (ok (attempt st).1 = false -> retryable (attempt st).1 = false ->
     run = (((attempt st).1, 1), (attempt st).2)).
Proof.
  intros Hr r run. split; [| split; [| split]].
  - destruct (retry_loop_run r 1 (retries + 1) uninitialized st ltac:(lia))
      as (k & Hk & Hfail & Hlast & _).
    destruct (run_trace 1 k st) as (evs & last & Hlen & Hall & Htr & _ & Hheads).
    exists k, evs, last.
    assert (Hrun : run = ((verdict_after 1 k st, Z.of_nat k + 1),
                          (attempt (advance 1 k st)).2))
      by (apply retries_stop_at; auto).
    split; [exact Hk |]. split; [exact Hrun |]. split; [exact Hlen |].
    split; [exact Hall |]. split; [| exact Hheads].
    rewrite Hrun. exact Htr.
  - intros k Hk Hfail Hok. apply retries_stop_at; auto.
  - intros Hfail.
    assert (Hrun : run = ((verdict_after 1 r st, Z.of_nat r + 1),
                          (attempt (advance 1 r st)).2)).
    { apply retries_stop_at; auto. intros j Hj. apply Hfail. lia. }
    split.
    + rewrite Hrun. cbn [fst]. f_equal. lia.
    + destruct (run_trace 1 r st)
        as (evs & last & Hlen & Hall & Htr & Hsleeps & Hheads).
      exists evs, last. split; [exact Hlen |]. split; [exact Hall |].
      split; [rewrite Hrun; exact Htr |]. split; [| exact Hheads].
      rewrite Hsleeps. do 2 f_equal. lia.
  - intros Hok Hretry.
    apply (retries_stop_at retries 0 st Hr ltac:(lia)).
    + intros j Hj. lia.
    + right. left. exact Hretry.
Qed.

End RetryFacts.

Lemma check_with_retries_schedule_witness :
  let url := "https://example.com/" in
  let run := check_with_retries Z.mul Scripted.urlopen Scripted.sleep
               Scripted.reg url 2 5 12 131072 (Scripted.start []) in
  0 <= 2 /\ run.1.2 = 3 /\ sleeps_of (trace run.2) = [5 * 1; 5 * 2] /\
  heads_of (trace run.2) = 3%nat.
Proof.
  intros url run. split; [lia |].
  destruct (check_with_retries_schedule Z.mul Scripted.urlopen Scripted.sleep
              Scripted.reg url 5 12 131072 2 (Scripted.start []) ltac:(lia))
    as (_ & _ & Hall & _).
  destruct Hall as (Hres & evs & last & _ & _ & Htr & Hsleeps & Hheads).
  { intros j Hj. destruct j as [|[|[|j]]]; [split; reflexivity .. |].
    cbn in Hj. lia. }
  fold run in Hres, Htr.
  split; [now rewrite Hres |].
  rewrite Htr. cbn [Scripted.start trace app].
  split; [exact Hsleeps | exact Hheads].
Defined.

(** ** Decoding ([decode_body]) *)

Section DecodeFacts.
Variable reg : codecs.

Lemma bytes_decode_utf8 (raw : list byte) :
  bytes_decode reg "utf-8" raw = Some (decode_utf8 reg raw).
Proof. reflexivity. Qed.

(** The loop returns the text of the first encoding of the list that the
    registry knows. *)
Lemma decode_first_spec (encs : list string) (raw : list byte) :
  (exists i encoding,
     encs !! i = Some encoding /\
     bytes_decode reg encoding raw = Some (decode_first reg encs raw) /\
     forall j e, (j < i)%nat -> encs !! j = Some e ->
                 bytes_decode reg e raw = None) \/
  ((forall e, e ∈ encs -> bytes_decode reg e raw = None) /\
   decode_first reg encs raw = decode_utf8 reg raw).
Proof.
  induction encs as [|enc encs IH]; cbn [decode_first].
  - right. split; [| reflexivity]. intros e He. now apply elem_of_nil in He.
  - destruct (bytes_decode reg enc raw) as [s|] eqn:E.
    + left. exists 0%nat, enc. split; [reflexivity |]. split; [exact E |].
      intros j e Hj. lia.
    + destruct IH as [(i & e & Hi & Hdec & Hbefore) | [Hnone Heq]].
      * left. exists (S i), e. split; [exact Hi |]. split; [exact Hdec |].
        intros [|j] e' Hj He'; cbn in He'.
        -- now inversion He'; subst.
        -- apply (Hbefore j); [lia | exact He'].
      * right. split; [| exact Heq].
        intros e He. apply elem_of_cons in He as [-> | He]; auto.
Qed.

(** C9 (as the code has it).  A non-empty body is decoded with the first
    encoding, in the order declared charset, UTF-8, Latin-1, that the codec
    registry knows: the declared charset when the header names one and it is
    known, otherwise UTF-8.  Only an unknown encoding name makes the script
    pass on to the next encoding; with [errors="replace"] the bytes
    themselves never make a decoding fail, so Latin-1 is never used as a
    fallback. *)
Theorem decode_body_fallback (raw : list byte) (content_type : string) :
  raw ≠ [] ->
  let body := decode_body reg raw content_type in
  let candidates :=
    match declared_charset content_type with
    | Some cs => [cs; "utf-8"; "latin-1"]
    | None => ["utf-8"; "latin-1"]
    end in
  (exists i encoding,
     candidates !! i = Some encoding /\
     bytes_decode reg encoding raw = Some body /\
     forall j e, (j < i)%nat -> candidates !! j = Some e ->
                 bytes_decode reg e raw = None) /\
  (forall cs s, declared_charset content_type = Some cs ->
     bytes_decode reg cs raw = Some s -> body = s) /\
  (forall cs, declared_charset content_type = Some cs ->
     bytes_decode reg cs raw = None -> body = decode_utf8 reg raw) /\
  (declared_charset content_type = None -> body = decode_utf8 reg raw).
Proof.
  intros Hraw body candidates.
  assert (Hbody : body = decode_first reg candidates raw).
  { unfold body, decode_body, candidates, encodings.
    destruct raw; [congruence |]. now destruct (declared_charset content_type). }
  split.
  - destruct (decode_first_spec candidates raw)
      as [(i & e & Hi & Hdec & Hbefore) | [Hnone _]].
    + exists i, e. rewrite Hbody. auto.
    + exfalso. assert (H : "utf-8" ∈ candidates).
      { unfold candidates. destruct (declared_charset content_type);
          rewrite !elem_of_cons; auto. }
      specialize (Hnone _ H). discriminate Hnone.
  - rewrite Hbody. unfold candidates. split; [| split].
    + intros cs s -> Hs. cbn [decode_first]. now rewrite Hs.
    + intros cs -> Hs. cbn [decode_first]. now rewrite Hs.
    + intros ->. reflexivity.
Qed.

(** X3.  The Latin-1 entry of the list is never reached: the body is read
    with the declared charset when the registry knows it and as UTF-8
    otherwise, so the result does not depend on what the registry holds under
    the name [latin-1], unless the header declares it. *)
Lemma decode_body_without_latin1 (raw : list byte) (content_type : string) :
  decode_body reg raw content_type
  = match raw with
    | [] => ""
    | _ =>
        match declared_charset content_type with
        | Some cs => default (decode_utf8 reg raw) (bytes_decode reg cs raw)
        | None => decode_utf8 reg raw
        end
    end.
Proof.
  unfold decode_body, encodings. destruct raw as [|b raw]; [reflexivity |].
  destruct (declared_charset content_type) as [cs|]; cbn [app decode_first].
  - now destruct (bytes_decode reg cs (b :: raw)).
  - reflexivity.
Qed.

End DecodeFacts.

Lemma decode_body_fallback_witness :
  let latin1 (raw : list byte) : string := "latin-1 text" in
  let reg := mkCodecs (fun _ => "utf-8 text")
               (fun name => if decide (name = "ISO-8859-1") then Some latin1
                            else None) in
  [x41] ≠ [] /\
  decode_body reg [x41] "text/html; charset='ISO-8859-1'" = "latin-1 text" /\
  decode_body reg [x41] "text/html; charset=klingon" = "utf-8 text" /\
  decode_body reg [x41] "text/html" = "utf-8 text".
Proof.
  intros latin1 reg. split; [discriminate |].
  split; [| split].
  - destruct (decode_body_fallback reg [x41] "text/html; charset='ISO-8859-1'")
      as (_ & H & _); [discriminate |].
    apply (H "ISO-8859-1"); reflexivity.
  - destruct (decode_body_fallback reg [x41] "text/html; charset=klingon")
      as (_ & _ & H & _); [discriminate |].
    apply (H "klingon"); reflexivity.
  - destruct (decode_body_fallback reg [x41] "text/html")
      as (_ & _ & _ & H); [discriminate |].
    apply H; reflexivity.
Defined.

(** The bytes [63 61 66 E9] are not valid UTF-8 and spell a four-letter
    word in Latin-1.  As the specification has it, UTF-8 fails and Latin-1
    decodes them; the script keeps the UTF-8 reading, in which the last
    byte is replaced, whatever codec is registered for Latin-1. *)
Lemma invalid_bytes_not_passed_to_latin1 :
  let raw := [x63; x61; x66; xe9] in
  Scripted.strict_decode "utf-8" raw = None /\
  stated_decode_body Scripted.strict_decode raw "text/html"
  = Some (Scripted.bytes_as_text raw) /\
  decode_body Scripted.reg_replace raw "text/html" = "caf?" /\
  decode_body Scripted.reg_replace raw "text/html"
  ≠ Scripted.bytes_as_text raw /\
  (forall reg, decode_body reg raw "text/html" = decode_utf8 reg raw).
Proof.
  intros raw. split; [reflexivity |]. split; [reflexivity |].
  split; [reflexivity |]. split; [discriminate | reflexivity].
Qed.

(** ** URL extraction ([load_unique_urls]) *)

Section ExtractFacts.
Variable urlparse : string -> parsed_url.

Abbreviation classify' := (classify urlparse).

Lemma add_entries_spec (r : rule) (entries : list json) :
  forall acc : gset string * gset string,
  let acc' := foldl (add_entry urlparse r) acc entries in
  (forall u, u ∈ acc'.1 <->
     u ∈ acc.1 \/ exists raw, raw ∈ entries /\ classify' r raw = Valid u) /\
  (forall d, d ∈ acc'.2 <->
     d ∈ acc.2 \/ exists raw, raw ∈ entries /\ classify' r raw = Invalid d).
Proof.
  induction entries as [|raw entries IH]; intros acc; cbn [foldl].
  - split; intros x; setoid_rewrite elem_of_nil;
      (split; [auto | intros [H | (raw & [] & _)]; exact H]).
  - destruct (IH (add_entry urlparse r acc raw)) as [IH1 IH2].
    split; intros x; [rewrite IH1 | rewrite IH2]; clear IH IH1 IH2;
      unfold add_entry; destruct (classify' r raw) as [u|d] eqn:E;
      cbn [fst snd]; rewrite ?elem_of_union, ?elem_of_singleton;
      setoid_rewrite elem_of_cons;
      (split; [intros [H | (raw' & Hraw' & Hc)]
              | intros [H | (raw' & [-> | Hraw'] & Hc)]];
       try (rewrite E in Hc; inversion Hc; subst); eauto 7; try tauto;
       destruct H as [-> | H]; eauto 7).
Qed.

Lemma add_rules_spec (rules : list rule) :
  forall acc : gset string * gset string,
  let acc' := foldl (add_rule urlparse) acc rules in
  (forall u, u ∈ acc'.1 <->
     u ∈ acc.1 \/ exists r raw, r ∈ rules /\ raw ∈ source_urls r /\
                               classify' r raw = Valid u) /\
  (forall d, d ∈ acc'.2 <->
     d ∈ acc.2 \/ exists r raw, r ∈ rules /\ raw ∈ source_urls r /\
                               classify' r raw = Invalid d).
Proof.
  induction rules as [|r rules IH]; intros acc; cbn [foldl].
  - split; intros x; setoid_rewrite elem_of_nil;
      (split; [auto | intros [H | (r & raw & [] & _)]; exact H]).
  - destruct (IH (add_rule urlparse acc r)) as [IH1 IH2].
    destruct (add_entries_spec r (source_urls r) acc) as [E1 E2].
    fold (add_rule urlparse acc r) in E1, E2.
    split; intros x; [rewrite IH1, E1 | rewrite IH2, E2]; clear;
      setoid_rewrite elem_of_cons;
      (split;
       [ intros [[H | (raw & Hraw & Hc)] | (r' & raw & Hr & Hraw & Hc)];
         eauto 9
       | intros [H | (r' & raw & [-> | Hr] & Hraw & Hc)]; eauto 9 ]).
Qed.

(** [sorted] lists the members of the set once each, in increasing order. *)
Lemma sorted_elem (s : gset string) (x : string) : x ∈ sorted s <-> x ∈ s.
Proof.
  unfold sorted. rewrite merge_sort_Permutation. apply elem_of_elements.
Qed.

Lemma sorted_NoDup (s : gset string) : NoDup (sorted s).
Proof.
  unfold sorted. rewrite merge_sort_Permutation. apply NoDup_elements.
Qed.

Lemma sorted_increasing (s : gset string) : StronglySorted String.le (sorted s).
Proof. apply StronglySorted_merge_sort; apply _. Qed.

Lemma sorted_strictly (s : gset string) : StronglySorted str_lt (sorted s).
Proof.
  pose proof (sorted_NoDup s) as Hnd. pose proof (sorted_increasing s) as Hs.
  induction Hs as [|a l Hs IH Hall]; [constructor |].
  apply NoDup_cons in Hnd as [Hnotin Hnd].
  constructor; [auto |].
  rewrite Forall_forall in Hall |- *. intros x Hx. split; [auto |].
  intros ->. contradiction.
Qed.

(** [String.le] is the order of Python's string comparison: the first
    differing code point decides, and a proper prefix comes first. *)
Lemma string_le_lexicographic (a b : ascii) (s t : string) :
  String.le "" t /\ ~ String.le (String a s) "" /\
  (String.le (String a s) (String b t) <->
   (code a < code b)%nat \/ (a = b /\ String.le s t)).
Proof.
  split; [now destruct t |]. split; [intros H; exact H |].
  unfold String.le, String.leb. cbn [String.compare].
  unfold code, nat_of_ascii.
  destruct (Ascii.compare a b) eqn:E.
  - apply Ascii.compare_eq_iff in E as ->. split; [auto |].
    intros [H | [_ H]]; [lia | exact H].
  - unfold Ascii.compare in E. rewrite N2Nat.inj_compare in E.
    apply Nat.compare_lt_iff in E.
    split; [intros _; left; exact E | intros _; exact I].
  - unfold Ascii.compare in E. rewrite N2Nat.inj_compare in E.
    apply Nat.compare_gt_iff in E.
    split; [intros [] |]. intros [H | [-> _]]; lia.
Qed.

Lemma load_unique_urls_spec (rules : list rule) :
  let '(urls, invalid) := load_unique_urls urlparse rules in
  (forall u, u ∈ urls <->
     exists r raw, r ∈ rules /\ raw ∈ source_urls r /\
                   classify' r raw = Valid u) /\
  (forall d, d ∈ invalid <->
     exists r raw, r ∈ rules /\ raw ∈ source_urls r /\
                   classify' r raw = Invalid d).
Proof.
  unfold load_unique_urls.
  destruct (add_rules_spec rules (∅, ∅)) as [H1 H2]. cbn [fst snd] in *.
  split; intros x; rewrite sorted_elem; [rewrite H1 | rewrite H2];
    (split; [intros [H | H]; [now apply not_elem_of_empty in H | exact H]
            | now right]).
Qed.

End ExtractFacts.

(** ** The report ([main]) *)

Section MainFacts.
Context {float World : Type}.
Variable fmul : float -> Z -> float.
Variable urlopen : World -> string -> string -> float -> outcome * World.
Variable sleep : World -> float -> World.
Variable reg : codecs.
Variable urlparse : string -> parsed_url.
Variable args : arguments float.

Implicit Types (st : state float World) (url : string).

Abbreviation check_url := (check_url fmul urlopen sleep reg args).
Abbreviation check_all := (check_all fmul urlopen sleep reg args).

Lemma report_invalid_fold (l : list string) : forall rep,
  foldl report_invalid rep l
  = mkReport (broken rep + Z.of_nat (length l)) (ok_count rep)
      (printed rep ++ map parse_line l).
Proof.
  induction l as [|d l IH]; intros [b o p]; cbn [foldl].
  - cbn. now rewrite Z.add_0_r, app_nil_r.
  - rewrite IH. unfold report_invalid. cbn [broken ok_count printed length map].
    f_equal; [lia | now rewrite <- app_assoc].
Qed.

Lemma count_cons (o : check_outcome) (os : list check_outcome) :
  count_passed (o :: os) = (if passed o then 1 else 0) + count_passed os /\
  count_failed (o :: os) = (if passed o then 0 else 1) + count_failed os.
Proof.
  unfold count_passed, count_failed. cbn [List.filter].
  destruct (passed o); cbn [negb length]; lia.
Qed.

Lemma report_url_fold (urls : list string) : forall rep st,
  foldl (report_url fmul urlopen sleep reg args) (rep, st) urls
  = (mkReport (broken rep + count_failed (check_all urls st).1)
       (ok_count rep + count_passed (check_all urls st).1)
       (printed rep ++ map outcome_line (check_all urls st).1),
     (check_all urls st).2).
Proof.
  induction urls as [|url urls IH]; intros [b o p] st; cbn [foldl check_all].
  - cbn. now rewrite !Z.add_0_r, app_nil_r.
  - unfold report_url at 2. fold (check_url url st).
    destruct (check_url url st) as [[result attempt] st1].
    destruct (ok result) eqn:Hok; rewrite IH;
      destruct (check_all urls st1) as [os st2] eqn:E;
      cbn [fst snd broken ok_count printed];
      destruct (count_cons (url, (result, attempt)) os) as [Hp Hf];
      rewrite Hp, Hf; cbn [map]; unfold outcome_line at 2, passed;
      cbn [fst snd]; rewrite Hok, <- app_assoc;
      (f_equal; f_equal; lia).
Qed.

(** [main] in one piece: the diagnostics, then one line per outcome, then
    the summary. *)
Lemma main_report (rules : list rule) st :
  let '(urls, invalid) := load_unique_urls urlparse rules in
  let outs := (check_all urls st).1 in
  let broken_n := Z.of_nat (length invalid) + count_failed outs in
  main fmul urlopen sleep reg urlparse args rules st
  = ((if broken_n =? 0 then 0 else 1,
      map parse_line invalid ++ map outcome_line outs ++
      [summary_line (Z.of_nat (length urls) + Z.of_nat (length invalid))
         (count_passed outs) broken_n]),
     (check_all urls st).2).
Proof.
  unfold main. destruct (load_unique_urls urlparse rules) as [urls invalid].
  rewrite report_invalid_fold, report_url_fold.
  cbn [broken ok_count printed app]. rewrite !Z.add_0_l, <- app_assoc.
  reflexivity.
Qed.

Lemma check_all_urls (urls : list string) : forall st,
  map fst (check_all urls st).1 = urls.
Proof.
  induction urls as [|url urls IH]; intros st; [reflexivity |].
  cbn [check_all]. destruct (check_url url st) as [o st1].
  specialize (IH st1). destruct (check_all urls st1). cbn in *. now rewrite IH.
Qed.

Lemma check_all_outcomes (urls : list string) : forall st,
  Forall2 (fun url o => o.1 = url /\ exists st0, o.2 = (check_url url st0).1)
    urls (check_all urls st).1.
Proof.
  induction urls as [|url urls IH]; intros st; [constructor |].
  cbn [check_all]. destruct (check_url url st) as [o st1] eqn:E.
  specialize (IH st1). destruct (check_all urls st1). cbn [fst] in *.
  constructor; [| exact IH]. split; [reflexivity |].
  exists st. now rewrite E.
Qed.

(** *** Requests made by a run *)

Lemma retry_loop_events url (n : nat) : forall attempts a result st,
  exists new,
    trace (retry_loop fmul urlopen sleep reg url (arg_retry_delay args)
             (arg_timeout args) (arg_max_body_bytes args) attempts n a
             result st).2
    = trace st ++ new /\ Forall (event_for url) new.
Proof.
  induction n as [|n IH]; intros attempts a result st.
  - exists []. cbn. now rewrite app_nil_r.
  - destruct (check_once_trace urlopen reg url (arg_timeout args)
                (arg_max_body_bytes args) st) as (ev & Hev & Hshape).
    assert (Hfor : Forall (event_for url) ev).
    { destruct Hshape as [-> | ->]; repeat constructor. }
    cbn [retry_loop].
    destruct (check_once urlopen reg url (arg_timeout args)
                (arg_max_body_bytes args) st) as [v st1].
    cbn [snd] in Hev.
    destruct (ok v); [exists ev; now split |].
    destruct (retryable v && (a <? attempts)); [| exists ev; now split].
    destruct (IH attempts (a + 1) v
                (do_sleep sleep (fmul (arg_retry_delay args) a) st1))
      as (new & Hnew & Hall).
    exists (ev ++ Sleep (fmul (arg_retry_delay args) a) :: new).
    split.
    + rewrite Hnew. cbn [do_sleep trace]. rewrite Hev, <- !app_assoc.
      reflexivity.
    + apply Forall_app. split; [exact Hfor |]. constructor; [exact I | exact Hall].
Qed.

Lemma check_url_events url st :
  exists new,
    trace (check_url url st).2 = trace st ++ new /\
    Forall (event_for url) new.
Proof. apply retry_loop_events. Qed.

(** The URLs are checked one after the other: the trace of the whole run is
    the concatenation of the traces of the single checks, in the order of
    the list. *)
Lemma check_all_events (urls : list string) : forall st,
  exists runs,
    trace (check_all urls st).2 = trace st ++ concat runs /\
    Forall2 (fun url run => Forall (event_for url) run) urls runs.
Proof.
  induction urls as [|url urls IH]; intros st.
  - exists []. cbn. split; [now rewrite app_nil_r | constructor].
  - destruct (check_url_events url st) as (new & Hnew & Hall).
    cbn [check_all]. destruct (check_url url st) as [o st1].
    destruct (IH st1) as (runs & Hruns & Hall2).
    destruct (check_all urls st1) as [os st2]. cbn [snd] in *.
    exists (new :: runs). split; [| now constructor].
    rewrite Hruns, Hnew. cbn [concat]. now rewrite <- app_assoc.
Qed.

Lemma check_all_requests (urls : list string) st :
  exists new,
    trace (check_all urls st).2 = trace st ++ new /\
    forall meth u, Request meth u ∈ new -> u ∈ urls.
Proof.
  destruct (check_all_events urls st) as (runs & Htr & Hall).
  exists (concat runs). split; [exact Htr |].
  intros meth u Hin. clear Htr.
  induction Hall as [|url run urls runs Hrun Hall IH].
  - cbn in Hin. now apply elem_of_nil in Hin.
  - cbn [concat] in Hin. apply elem_of_app in Hin as [Hin | Hin].
    + rewrite Forall_forall in Hrun. specialize (Hrun _ Hin). cbn in Hrun.
      subst. apply list_elem_of_here.
    + apply list_elem_of_further. now apply IH.
Qed.

End MainFacts.

Lemma filter_eq_absent {A} `{EqDecision A} (x : A) (l : list A) :
  x ∉ l -> filter (fun y => y = x) l = [].
Proof.
  induction l as [|y l IH]; intros Hnotin; [reflexivity |].
  apply not_elem_of_cons in Hnotin as [Hne Hnotin].
  rewrite filter_cons_False by (intros Heq; now apply Hne). now apply IH.
Qed.

Lemma NoDup_count_one {A} `{EqDecision A} (x : A) (l : list A) :
  NoDup l -> x ∈ l -> length (filter (fun y => y = x) l) = 1%nat.
Proof.
  induction 1 as [|y l Hnotin Hnd IH]; intros Hin.
  - now apply elem_of_nil in Hin.
  - apply elem_of_cons in Hin as [-> | Hin].
    + rewrite filter_cons_True by reflexivity.
      now rewrite filter_eq_absent.
    + rewrite filter_cons_False; [now apply IH |].
      intros ->. contradiction.
Qed.

Section ReportFacts.
Context {float World : Type}.
Variable fmul : float -> Z -> float.
Variable urlopen : World -> string -> string -> float -> outcome * World.
Variable sleep : World -> float -> World.
Variable reg : codecs.
Variable urlparse : string -> parsed_url.
Variable args : arguments float.

Implicit Types (st : state float World) (rules : list rule).

Abbreviation rejected := (rejected urlparse).
Abbreviation run_main rules st :=
  (main fmul urlopen sleep reg urlparse args rules st).
Abbreviation outcomes urls st :=
  (check_all fmul urlopen sleep reg args urls st).1.

Lemma nonempty_false (s : string) : nonempty s = false <-> s = "".
Proof. destruct s; cbn; split; congruence. Qed.

Lemma classify_rejected (r : rule) (raw : json) :
  rejected raw ->
  exists msg, classify urlparse r raw = Invalid (id_of r +:+ ": " +:+ msg).
Proof.
  destruct raw as [| | |s| |]; cbn [rejected classify];
    try (intros _; exists "non-string URL entry"; reflexivity).
  intros Hbad.
  destruct (nonempty (strip s)) eqn:Hne; cbn [negb].
  - assert (Hv : valid_parse (urlparse (strip s)) = false).
    { unfold valid_parse. destruct Hbad as [H | [[H1 H2] | H]].
      - rewrite H in Hne. discriminate.
      - rewrite (bool_decide_eq_false_2 _ H1), (bool_decide_eq_false_2 _ H2).
        reflexivity.
      - rewrite H. apply andb_false_r. }
    rewrite Hv. cbn [negb].
    exists ("invalid URL '" +:+ strip s +:+ "'"). reflexivity.
  - exists "empty URL entry". reflexivity.
Qed.

Lemma classify_valid (r : rule) (raw : json) (u : string) :
  classify urlparse r raw = Valid u ->
  exists s, raw = JStr s /\ u = strip s /\ u ≠ "" /\
            (scheme (urlparse u) = "http" \/ scheme (urlparse u) = "https") /\
            netloc (urlparse u) ≠ "".
Proof.
  destruct raw as [| | |s| |]; cbn [classify]; try discriminate.
  destruct (nonempty (strip s)) eqn:Hne; cbn [negb]; [| discriminate].
  destruct (valid_parse (urlparse (strip s))) eqn:Hv; cbn [negb];
    [| discriminate].
  intros [= <-]. exists s. split; [reflexivity |]. split; [reflexivity |].
  split; [intros H; rewrite H in Hne; discriminate |].
  unfold valid_parse in Hv. apply andb_prop in Hv as [Hs Hn].
  split.
  - apply orb_prop in Hs as [H | H]; apply bool_decide_eq_true_1 in H; auto.
  - intros H. rewrite H in Hn. discriminate.
Qed.


(** C7.  The URLs to check are exactly the valid entries of the dataset,
    each listed once and in increasing (code point lexicographic) order; the
    run produces one outcome and one report line per listed URL, in that
    order, and checks them in that order. *)
Theorem unique_urls_checked_once rules st :
  let urls := (load_unique_urls urlparse rules).1 in
  let invalid := (load_unique_urls urlparse rules).2 in
  let outs := outcomes urls st in
  (forall u, u ∈ urls <->
     exists r raw, r ∈ rules /\ raw ∈ source_urls r /\
                   classify urlparse r raw = Valid u) /\
  NoDup urls /\
  (forall u, u ∈ urls -> length (filter (fun x => x = u) urls) = 1%nat) /\
  StronglySorted String.le urls /\
  StronglySorted str_lt urls /\
  map fst outs = urls /\
  (forall u, u ∈ urls ->
     length (filter (fun o : check_outcome => o.1 = u) outs) = 1%nat) /\
  (exists summary,
     (run_main rules st).1.2
     = map parse_line invalid ++ map outcome_line outs ++ [summary]) /\
  (exists runs,
     trace (run_main rules st).2 = trace st ++ concat runs /\
     Forall2 (fun url run => Forall (event_for url) run) urls runs).
Proof.
  intros urls invalid outs.
  pose proof (load_unique_urls_spec urlparse rules) as Hspec.
  pose proof (main_report fmul urlopen sleep reg urlparse args rules st)
    as Hmain.
  assert (Hnd : NoDup urls) by apply sorted_NoDup.
  assert (Hs1 : StronglySorted String.le urls) by apply sorted_increasing.
  assert (Hs2 : StronglySorted str_lt urls) by apply sorted_strictly.
  assert (Hfst : map fst outs = urls) by apply check_all_urls.
  subst outs urls invalid.
  destruct (load_unique_urls urlparse rules) as [urls invalid].
  cbn [fst snd] in *. destruct Hspec as [Hurls _].
  split; [exact Hurls |]. split; [exact Hnd |].
  split; [intros u Hu; now apply NoDup_count_one |].
  split; [exact Hs1 |]. split; [exact Hs2 |]. split; [exact Hfst |].
  split; [| split].
  - intros u Hu.
    pose proof (NoDup_count_one u urls Hnd Hu) as Hone.
    rewrite <- Hfst in Hone at 1.
    rewrite <- Hone. clear.
    induction (outcomes urls st) as [|o os IH]; [reflexivity |].
    cbn [map]. destruct (decide (o.1 = u)) as [Heq | Hne].
    + rewrite !filter_cons_True by exact Heq. cbn [length]. now rewrite IH.
    + rewrite !filter_cons_False by exact Hne. exact IH.
  - rewrite Hmain. cbn [fst snd]. eauto.
  - rewrite Hmain. cbn [snd]. apply check_all_events.
Qed.

(** C8.  The last line of the report is the summary line; its [checked]
    count is the number of listed URLs plus the number of diagnostics, and
    the exit code is 0 when there is no diagnostic and every outcome passed,
    and 1 otherwise. *)
Theorem summary_and_exit_code rules st :
  let urls := (load_unique_urls urlparse rules).1 in
  let invalid := (load_unique_urls urlparse rules).2 in
  let outs := outcomes urls st in
  let code := (run_main rules st).1.1 in
  let out := (run_main rules st).1.2 in
  last out
  = Some ("Summary: checked="
          +:+ pretty (Z.of_nat (length urls) + Z.of_nat (length invalid))
          +:+ " ok=" +:+ pretty (count_passed outs)
          +:+ " broken="
          +:+ pretty (Z.of_nat (length invalid) + count_failed outs)) /\
  length out = (length invalid + length urls + 1)%nat /\
  (invalid = [] /\ Forall (fun o => passed o = true) outs -> code = 0) /\
  (~ (invalid = [] /\ Forall (fun o => passed o = true) outs) -> code = 1).
Proof.
  intros urls invalid outs code out.
  pose proof (main_report fmul urlopen sleep reg urlparse args rules st)
    as Hmain.
  assert (Hlen : length outs = length urls).
  { unfold outs. rewrite <- (check_all_urls fmul urlopen sleep reg args urls st)
      at 2. now rewrite length_map. }
  subst code out outs urls invalid.
  destruct (load_unique_urls urlparse rules) as [urls invalid].
  cbn [fst snd] in *. rewrite Hmain. cbn [fst snd].
  assert (Hfail : count_failed (outcomes urls st) = 0 <->
                  Forall (fun o => passed o = true) (outcomes urls st)).
  { clear. induction (outcomes urls st) as [|o os IH].
    - split; [constructor | reflexivity].
    - destruct (count_cons o os) as [_ ->].
      assert (0 <= count_failed os) by (unfold count_failed; lia).
      rewrite Forall_cons. destruct (passed o); [rewrite <- IH; lia |].
      split; [lia | intros [? _]; discriminate]. }
  split; [now rewrite app_assoc, last_snoc |].
  split; [rewrite !length_app, !length_map; cbn; lia |].
  assert (0 <= count_failed (outcomes urls st))
    by (unfold count_failed; lia).
  split.
  - intros [-> Hall]. apply Hfail in Hall. rewrite Hall. reflexivity.
  - intros Hnot.
    destruct (Z.eqb_spec (Z.of_nat (length invalid)
                          + count_failed (outcomes urls st)) 0) as [Hz |];
      [| reflexivity].
    exfalso. apply Hnot. split.
    + apply length_zero_iff_nil. lia.
    + apply Hfail. lia.
Qed.

(** C10.  The diagnostics are exactly the messages of the rejected entries,
    each listed once however often an entry repeats, in increasing order;
    each gives one [BROKEN [-] parse] line at the head of the report and
    counts once in [checked] and in [broken]. *)
Theorem diagnostics_deduplicated rules st :
  let urls := (load_unique_urls urlparse rules).1 in
  let invalid := (load_unique_urls urlparse rules).2 in
  let outs := outcomes urls st in
  (forall d, d ∈ invalid <->
     exists r raw, r ∈ rules /\ raw ∈ source_urls r /\
                   classify urlparse r raw = Invalid d) /\
  NoDup invalid /\
  StronglySorted String.le invalid /\
  StronglySorted str_lt invalid /\
  (forall r raw d, r ∈ rules -> raw ∈ source_urls r ->
     classify urlparse r raw = Invalid d ->
     length (filter (fun x => x = d) invalid) = 1%nat /\
     length (filter (fun l => l = "BROKEN [-] parse " +:+ d)
               (take (length invalid) (run_main rules st).1.2)) = 1%nat) /\
  take (length invalid) (run_main rules st).1.2
  = map (fun d => "BROKEN [-] parse " +:+ d) invalid /\
  last (run_main rules st).1.2
  = Some (summary_line (Z.of_nat (length urls) + Z.of_nat (length invalid))
            (count_passed outs)
            (Z.of_nat (length invalid) + count_failed outs)).
Proof.
  intros urls invalid outs.
  pose proof (load_unique_urls_spec urlparse rules) as Hspec.
  pose proof (main_report fmul urlopen sleep reg urlparse args rules st)
    as Hmain.
  assert (Hnd : NoDup invalid) by apply sorted_NoDup.
  assert (Hs1 : StronglySorted String.le invalid) by apply sorted_increasing.
  assert (Hs2 : StronglySorted str_lt invalid) by apply sorted_strictly.
  subst outs urls invalid.
  destruct (load_unique_urls urlparse rules) as [urls invalid].
  cbn [fst snd] in *. destruct Hspec as [_ Hinvalid].
  rewrite Hmain. cbn [fst snd].
  assert (Htake : take (length invalid)
                    (map parse_line invalid ++
                     map outcome_line (outcomes urls st) ++
                     [summary_line
                        (Z.of_nat (length urls) + Z.of_nat (length invalid))
                        (count_passed (outcomes urls st))
                        (Z.of_nat (length invalid)
                         + count_failed (outcomes urls st))])
                  = map parse_line invalid).
  { rewrite take_app_le by (rewrite length_map; lia).
    apply take_ge. rewrite length_map. lia. }
  split; [exact Hinvalid |]. split; [exact Hnd |]. split; [exact Hs1 |].
  split; [exact Hs2 |]. split; [| split].
  - intros r raw d Hr Hraw Hc.
    assert (Hin : d ∈ invalid) by (apply Hinvalid; eauto).
    split; [now apply NoDup_count_one |].
    rewrite Htake. change (fun d0 => "BROKEN [-] parse " +:+ d0) with parse_line.
    rewrite <- (NoDup_count_one d invalid Hnd Hin). clear.
    induction invalid as [|x l IH]; [reflexivity |].
    cbn [map]. destruct (decide (x = d)) as [-> | Hne].
    + rewrite !filter_cons_True by reflexivity. cbn [length]. now rewrite IH.
    + rewrite !filter_cons_False; [exact IH | exact Hne |].
      unfold parse_line. intros Heq. apply Hne.
      now apply (inj (String.app "BROKEN [-] parse ")) in Heq.
  - exact Htake.
  - now rewrite app_assoc, last_snoc.
Qed.

End ReportFacts.



(** ** Regular expressions: what the matcher finds *)

Section MatcherFacts.
Context {A : Type}.
Implicit Types (k : option text -> text -> option A) (s : text) (r : regex).

Lemma take_length_diff (s1 s2 : text) :
  take (length (s1 ++ s2) - length s2) (s1 ++ s2) = s1.
Proof.
  rewrite length_app. replace (length s1 + length s2 - length s2)%nat
    with (length s1) by lia.
  apply take_app_length.
Qed.

(** Repetition: the greedy star tries the longest run first, the lazy star
    the shortest; both stop at the first split that the continuation
    accepts. *)
Lemma star_greedy_sound p cap k s x :
  star_greedy p cap k s = Some x ->
  exists s1 s2, s = s1 ++ s2 /\ forallb p s1 = true /\ k cap s2 = Some x.
Proof.
  revert x. induction s as [|c s IH]; intros x; cbn [star_greedy].
  - intros H. exists [], []. auto.
  - destruct (p c) eqn:Hp.
    + destruct (star_greedy p cap k s) as [y|] eqn:E.
      * intros [= <-]. destruct (IH y eq_refl) as (s1 & s2 & -> & Hall & Hk).
        exists (c :: s1), s2. cbn. rewrite Hp. auto.
      * intros H. exists [], (c :: s). auto.
    + intros H. exists [], (c :: s). auto.
Qed.

Lemma star_greedy_complete p cap k s1 : forall s2,
  forallb p s1 = true -> is_Some (k cap s2) ->
  is_Some (star_greedy p cap k (s1 ++ s2)).
Proof.
  induction s1 as [|c s1 IH]; intros s2 Hall Hk.
  - cbn [app]. destruct s2 as [|c s2]; cbn [star_greedy]; [exact Hk |].
    destruct (p c); [| exact Hk].
    destruct (star_greedy p cap k s2); [eauto | exact Hk].
  - cbn in Hall. apply andb_prop in Hall as [Hc Hall].
    cbn [app star_greedy]. rewrite Hc.
    destruct (IH s2 Hall Hk) as [y ->]. eauto.
Qed.

Lemma star_lazy_sound p cap k s x :
  star_lazy p cap k s = Some x ->
  exists s1 s2,
    s = s1 ++ s2 /\ forallb p s1 = true /\ k cap s2 = Some x /\
    forall t1 t2, s = t1 ++ t2 -> (length t1 < length s1)%nat ->
                  k cap t2 = None.
Proof.
  revert x. induction s as [|c s IH]; intros x; cbn [star_lazy].
  - destruct (k cap []) as [y|] eqn:E; [| discriminate].
    intros [= <-]. exists [], []. repeat split; auto.
    intros t1 t2 _ Hlen. cbn in Hlen. lia.
  - destruct (k cap (c :: s)) as [y|] eqn:E.
    + intros [= <-]. exists [], (c :: s). repeat split; auto.
      intros t1 t2 _ Hlen. cbn in Hlen. lia.
    + destruct (p c) eqn:Hp; [| discriminate].
      intros H. destruct (IH x H) as (s1 & s2 & -> & Hall & Hk & Hmin).
      exists (c :: s1), s2. cbn. rewrite Hp. repeat split; auto.
      intros [|c' t1] t2 Heq Hlen.
      * cbn in Heq. now subst.
      * cbn in Heq. injection Heq as -> Heq. apply (Hmin t1 t2 Heq).
        cbn in Hlen. lia.
Qed.

Lemma star_lazy_complete p cap k s1 : forall s2,
  forallb p s1 = true -> is_Some (k cap s2) ->
  is_Some (star_lazy p cap k (s1 ++ s2)).
Proof.
  induction s1 as [|c s1 IH]; intros s2 Hall Hk.
  - cbn [app]. destruct Hk as [y Hy].
    destruct s2; cbn [star_lazy]; rewrite Hy; eauto.
  - cbn in Hall. apply andb_prop in Hall as [Hc Hall].
    cbn [app star_lazy]. rewrite Hc.
    destruct (k cap (c :: s1 ++ s2)); [eauto |]. now apply IH.
Qed.

(** Soundness: a result of the matcher comes from a match of the pattern
    and a success of the continuation on the rest. *)
Lemma run_sound r : forall cap s k x,
  run r cap s k = Some x ->
  exists s1 s2 cap',
    s = s1 ++ s2 /\ matches r cap s1 cap' /\ k cap' s2 = Some x.
Proof.
  induction r as [|p|a IHa b IHb|a IHa b IHb|p|p|r IH];
    intros cap s k x; cbn [run].
  - intros H. exists [], s, cap. split; [reflexivity |].
    split; [constructor | exact H].
  - destruct s as [|c s]; [discriminate |].
    destruct (p c) eqn:Hp; [| discriminate].
    intros H. exists [c], s, cap. split; [reflexivity |].
    split; [now constructor | exact H].
  - intros H. apply IHa in H as (s1 & s' & cap1 & -> & Ha & H).
    apply IHb in H as (s2 & s3 & cap2 & -> & Hb & H).
    exists (s1 ++ s2), s3, cap2. rewrite <- app_assoc.
    split; [reflexivity |]. split; [econstructor; eauto | exact H].
  - destruct (run a cap s k) as [y|] eqn:E.
    + intros [= <-]. apply IHa in E as (s1 & s2 & cap' & -> & Ha & H).
      exists s1, s2, cap'. split; [reflexivity |].
      split; [now apply M_AltL | exact H].
    + intros H. apply IHb in H as (s1 & s2 & cap' & -> & Hb & H).
      exists s1, s2, cap'. split; [reflexivity |].
      split; [now apply M_AltR | exact H].
  - intros H. apply star_greedy_sound in H as (s1 & s2 & -> & Hall & H).
    exists s1, s2, cap. split; [reflexivity |].
    split; [now constructor | exact H].
  - intros H. apply star_lazy_sound in H as (s1 & s2 & -> & Hall & H & _).
    exists s1, s2, cap. split; [reflexivity |].
    split; [now constructor | exact H].
  - intros H. apply IH in H as (s1 & s2 & cap' & -> & Hr & H).
    rewrite take_length_diff in H.
    exists s1, s2, (Some s1). split; [reflexivity |].
    split; [econstructor; eauto | exact H].
Qed.

(** Completeness: when the pattern matches a prefix and the continuation
    accepts the rest, the matcher finds some match. *)
Lemma run_complete r cap s1 cap' :
  matches r cap s1 cap' ->
  forall s2 k, is_Some (k cap' s2) -> is_Some (run r cap (s1 ++ s2) k).
Proof.
  induction 1 as [cap|p c cap Hp|a b cap cap1 cap2 s1 s2 Ha IHa Hb IHb
                 |a b cap cap' s Ha IHa|a b cap cap' s Hb IHb
                 |p cap s Hall|p cap s Hall|r cap cap' s Hr IH];
    intros t k Hk; cbn [run].
  - exact Hk.
  - cbn [app]. now rewrite Hp.
  - rewrite <- app_assoc. apply IHa. now apply IHb.
  - destruct (IHa t k Hk) as [y ->]. eauto.
  - destruct (run a cap (s ++ t) k); [eauto |]. now apply IHb.
  - now apply star_greedy_complete.
  - now apply star_lazy_complete.
  - apply IH. now rewrite take_length_diff.
Qed.

End MatcherFacts.

(** *** [match] and [search] *)

Lemma match_at_sound (r : regex) (s : text) (g : option text) (rest : text) :
  match_at r s = Some (g, rest) ->
  exists m, s = m ++ rest /\ matches r None m g.
Proof.
  unfold match_at. intros H.
  apply run_sound in H as (s1 & s2 & cap' & -> & Hm & [= -> ->]).
  eauto.
Qed.

Lemma match_at_complete (r : regex) (m rest : text) (g : option text) :
  matches r None m g -> is_Some (match_at r (m ++ rest)).
Proof.
  intros Hm. unfold match_at. eapply run_complete; eauto.
Qed.

Lemma search_sound (r : regex) (s : text) : forall pre g rest,
  search r s = Some (pre, g, rest) ->
  exists m, s = pre ++ m ++ rest /\ matches r None m g.
Proof.
  induction s as [|c s IH]; intros pre g rest; cbn [search].
  - destruct (match_at r []) as [[g' rest']|] eqn:E; [| discriminate].
    intros [= <- <- <-]. now apply match_at_sound.
  - destruct (match_at r (c :: s)) as [[g' rest']|] eqn:E.
    + intros [= <- <- <-]. now apply match_at_sound.
    + destruct (search r s) as [[[pre' g'] rest']|]; [| discriminate].
      intros [= <- <- <-].
      destruct (IH pre' g' rest' eq_refl) as (m & -> & Hm).
      exists m. split; [reflexivity | exact Hm].
Qed.

(** The match that [search] returns is the leftmost one. *)
Lemma search_leftmost (r : regex) (s : text) : forall pre g rest,
  search r s = Some (pre, g, rest) ->
  match_at r (drop (length pre) s) = Some (g, rest) /\
  forall t1 t2, s = t1 ++ t2 -> (length t1 < length pre)%nat ->
                match_at r t2 = None.
Proof.
  induction s as [|c s IH]; intros pre g rest; cbn [search].
  - destruct (match_at r []) as [[g' rest']|] eqn:E; [| discriminate].
    intros [= <- <- <-]. split; [exact E |].
    intros t1 t2 _ Hlen. cbn in Hlen. lia.
  - destruct (match_at r (c :: s)) as [[g' rest']|] eqn:E.
    + intros [= <- <- <-]. split; [exact E |].
      intros t1 t2 _ Hlen. cbn in Hlen. lia.
    + destruct (search r s) as [[[pre' g'] rest']|]; [| discriminate].
      intros [= <- <- <-].
      destruct (IH pre' g' rest' eq_refl) as [Hm Hleft].
      split; [exact Hm |].
      intros [|c' t1] t2 Heq Hlen.
      * cbn in Heq. now subst.
      * cbn in Heq. injection Heq as -> Heq. apply (Hleft t1 t2 Heq).
        cbn in Hlen. lia.
Qed.

Lemma search_complete (r : regex) (pre m rest : text) (g : option text) :
  matches r None m g -> is_Some (search r (pre ++ m ++ rest)).
Proof.
  intros Hm. induction pre as [|c pre IH]; cbn [app].
  - destruct (match_at_complete r m rest g Hm) as [[g' rest'] E].
    destruct (m ++ rest); cbn [search]; rewrite E; eauto.
  - cbn [search]. destruct (match_at r (c :: pre ++ m ++ rest)) as [[? ?]|];
      [eauto |].
    destruct IH as [[[pre' g'] rest'] ->]. eauto.
Qed.

Lemma search_none (r : regex) (s : text) :
  search r s = None <->
  ~ exists pre m rest g, s = pre ++ m ++ rest /\ matches r None m g.
Proof.
  split.
  - intros Hnone (pre & m & rest & g & -> & Hm).
    destruct (search_complete r pre m rest g Hm) as [x Hx]. congruence.
  - intros Hnot. destruct (search r s) as [[[pre g] rest]|] eqn:E;
      [| reflexivity].
    exfalso. apply Hnot.
    destruct (search_sound r s pre g rest E) as (m & Hs & Hm). eauto 6.
Qed.

(** *** Reading a match back *)

Lemma matches_eps cap s cap' :
  matches Eps cap s cap' <-> s = [] /\ cap' = cap.
Proof.
  split; [inversion 1; auto | intros [-> ->]; constructor].
Qed.

Lemma matches_chr p cap s cap' :
  matches (Chr p) cap s cap' <-> cap' = cap /\ exists c, s = [c] /\ p c = true.
Proof.
  split; [inversion 1; subst; eauto | intros [-> (c & -> & Hp)]; now constructor].
Qed.

Lemma matches_seq a b cap s cap' :
  matches (Seq a b) cap s cap' <->
  exists s1 s2 cap1,
    s = s1 ++ s2 /\ matches a cap s1 cap1 /\ matches b cap1 s2 cap'.
Proof.
  split.
  - inversion 1; subst. eauto 6.
  - intros (s1 & s2 & cap1 & -> & Ha & Hb). econstructor; eauto.
Qed.

Lemma matches_alt a b cap s cap' :
  matches (Alt a b) cap s cap' <-> matches a cap s cap' \/ matches b cap s cap'.
Proof.
  split; [inversion 1; auto | intros [H | H]; [now apply M_AltL | now apply M_AltR]].
Qed.

Lemma matches_star p cap s cap' :
  matches (Star p) cap s cap' <-> cap' = cap /\ forallb p s = true.
Proof.
  split; [inversion 1; auto | intros [-> H]; now constructor].
Qed.

Lemma matches_lazy_star p cap s cap' :
  matches (LazyStar p) cap s cap' <-> cap' = cap /\ forallb p s = true.
Proof.
  split; [inversion 1; auto | intros [-> H]; now constructor].
Qed.

Lemma matches_group r cap s cap' :
  matches (Group r) cap s cap' <->
  cap' = Some s /\ exists cap1, matches r cap s cap1.
Proof.
  split; [inversion 1; eauto | intros [-> [cap1 H]]; econstructor; eauto].
Qed.

Lemma matches_plus p cap s cap' :
  matches (Plus p) cap s cap' <-> cap' = cap /\ forallb p s = true /\ s ≠ [].
Proof.
  unfold Plus. rewrite matches_seq. split.
  - intros (s1 & s2 & cap1 & -> & H1 & H2).
    apply matches_chr in H1 as [-> (c & -> & Hc)].
    apply matches_star in H2 as [-> Hall].
    split; [reflexivity |]. cbn. rewrite Hc, Hall. split; [reflexivity | discriminate].
  - intros (-> & Hall & Hne). destruct s as [|c s]; [congruence |].
    cbn in Hall. apply andb_prop in Hall as [Hc Hall].
    exists [c], s, cap. split; [reflexivity |].
    split; [now apply matches_chr; eauto | now apply matches_star].
Qed.

Lemma matches_word_ci (w : text) : forall cap s cap',
  matches (word_of is_char_ci w) cap s cap' <->
  cap' = cap /\ lower_text s = lower_text w.
Proof.
  induction w as [|c w IH]; intros cap s cap'.
  - cbn [word_of]. rewrite matches_eps. split.
    + intros [-> ->]. auto.
    + intros [-> H]. destruct s; [auto | discriminate].
  - destruct w as [|c' w].
    + cbn [word_of]. rewrite matches_chr. unfold is_char_ci. split.
      * intros [-> (x & -> & Hx)]. apply bool_decide_eq_true_1 in Hx.
        cbn. now rewrite Hx.
      * intros [-> H]. split; [reflexivity |].
        destruct s as [|x [|y s]]; cbn in H; try discriminate.
        injection H as H. exists x. split; [reflexivity |].
        now apply bool_decide_eq_true_2.
    + change (word_of is_char_ci (c :: c' :: w))
        with (Seq (Chr (is_char_ci c)) (word_of is_char_ci (c' :: w))).
      rewrite matches_seq. split.
      * intros (s1 & s2 & cap1 & -> & H1 & H2).
        apply matches_chr in H1 as [-> (x & -> & Hx)].
        apply IH in H2 as [-> H2].
        unfold is_char_ci in Hx. apply bool_decide_eq_true_1 in Hx.
        split; [reflexivity |]. unfold lower_text in *.
        cbn [app map]. now rewrite Hx, H2.
      * intros [-> H]. destruct s as [|x s]; [discriminate |].
        unfold lower_text in H. cbn [map] in H. injection H as Hx H.
        exists [x], s, cap. split; [reflexivity |]. split.
        -- apply matches_chr. split; [reflexivity |]. exists x.
           split; [reflexivity |]. now apply bool_decide_eq_true_2.
        -- apply IH. auto.
Qed.

(** *** The title and heading elements that the heuristic looks at *)

Lemma matches_lit_ci (w : string) cap s cap' :
  matches (lit_ci w) cap s cap' <-> cap' = cap /\ same_letters w s.
Proof. apply matches_word_ci. Qed.

Lemma lower_char_gt (c : ascii) : lower_char c = gt_sign -> c = gt_sign.
Proof.
  destruct c as [[] [] [] [] [] [] [] []]; vm_compute; intros H;
    try reflexivity; discriminate H.
Qed.

Lemma same_letters_gt (s : text) : same_letters ">" s <-> s = [gt_sign].
Proof.
  unfold same_letters. split; [| now intros ->].
  destruct s as [|c [|c' s]]; try discriminate.
  cbn. intros [= H]. f_equal. now apply lower_char_gt.
Qed.

Lemma matches_word_gap (w : string) (r : regex) cap s cap' :
  matches (lit_ci w ⋅ Plus isspace ⋅ r) cap s cap' <->
  exists a g t, s = a ++ g ++ t /\ same_letters w a /\ gap g /\
                matches r cap t cap'.
Proof.
  rewrite matches_seq. split.
  - intros (a & s2 & cap1 & -> & Ha & H).
    apply matches_lit_ci in Ha as [-> Ha].
    apply matches_seq in H as (g & t & cap2 & -> & Hg & Ht).
    apply matches_plus in Hg as (-> & Hg & Hne).
    exists a, g, t. repeat split; auto.
  - intros (a & g & t & -> & Ha & [Hg Hne] & Ht).
    exists a, (g ++ t), cap. split; [reflexivity |].
    split; [now apply matches_lit_ci |].
    apply matches_seq. exists g, t, cap. split; [reflexivity |].
    split; [now apply matches_plus | exact Ht].
Qed.

Lemma not_found_tail_spec cap s cap' :
  matches (lit_ci "not" ⋅ Plus isspace ⋅ lit_ci "found") cap s cap' <->
  cap' = cap /\ spaced ["not"; "found"] s.
Proof.
  rewrite matches_word_gap. cbn [spaced]. split.
  - intros (a & g & t & -> & Ha & Hg & Ht).
    apply matches_lit_ci in Ht as [-> Ht]. eauto 8.
  - intros (-> & a & g & t & -> & Ha & Hg & Ht).
    exists a, g, t. split; [reflexivity |]. split; [exact Ha |].
    split; [exact Hg |]. now apply matches_lit_ci.
Qed.

Lemma phrase_re_spec cap s cap' :
  matches ((lit_ci "404" ⋅
              Opt (Plus isspace ⋅ lit_ci "not" ⋅ Plus isspace ⋅ lit_ci "found"))
           ∣ (lit_ci "page" ⋅ Plus isspace ⋅ lit_ci "not" ⋅ Plus isspace ⋅
              lit_ci "found")
           ∣ (lit_ci "not" ⋅ Plus isspace ⋅ lit_ci "found")) cap s cap' <->
  cap' = cap /\ not_found_phrase s.
Proof.
  rewrite !matches_alt, not_found_tail_spec, matches_word_gap.
  setoid_rewrite not_found_tail_spec.
  unfold not_found_phrase. split.
  - intros [H | [H | H]].
    + apply matches_seq in H as (a & t & cap1 & -> & Ha & H).
      apply matches_lit_ci in Ha as [-> Ha].
      unfold Opt in H. apply matches_alt in H as [H | H].
      * apply matches_seq in H as (g & t' & cap1 & -> & Hg & H).
        apply matches_plus in Hg as (-> & Hg & Hne).
        apply not_found_tail_spec in H as [-> H].
        split; [reflexivity |]. right. left.
        change (spaced ["404"; "not"; "found"] (a ++ g ++ t'))
          with (exists a0 g0 t0, a ++ g ++ t' = a0 ++ g0 ++ t0 /\
                  same_letters "404" a0 /\ gap g0 /\
                  spaced ["not"; "found"] t0).
        exists a, g, t'. split; [reflexivity |]. split; [exact Ha |].
        split; [split; [exact Hg | exact Hne] | exact H].
      * apply matches_eps in H as [-> ->]. rewrite app_nil_r.
        split; [reflexivity |]. left. exact Ha.
    + destruct H as (a & g & t & -> & Ha & Hg & -> & Ht).
      split; [reflexivity |]. right. right. left.
      change (spaced ["page"; "not"; "found"] (a ++ g ++ t))
        with (exists a0 g0 t0, a ++ g ++ t = a0 ++ g0 ++ t0 /\
                same_letters "page" a0 /\ gap g0 /\
                spaced ["not"; "found"] t0).
      eauto 8.
    + destruct H as [-> H]. auto.
  - intros [-> [H | [H | [H | H]]]].
    + left. apply matches_seq. exists s, [], cap. rewrite app_nil_r.
      split; [reflexivity |]. split; [now apply matches_lit_ci |].
      apply matches_alt. right. now apply matches_eps.
    + left.
      change (exists a g t, s = a ++ g ++ t /\ same_letters "404" a /\ gap g /\
                            spaced ["not"; "found"] t) in H.
      destruct H as (a & g & t & -> & Ha & [Hg Hne] & Ht).
      apply matches_seq. exists a, (g ++ t), cap.
      split; [reflexivity |]. split; [now apply matches_lit_ci |].
      apply matches_alt. left. apply matches_seq. exists g, t, cap.
      split; [reflexivity |]. split; [now apply matches_plus |].
      now apply not_found_tail_spec.
    + right. left.
      change (exists a g t, s = a ++ g ++ t /\ same_letters "page" a /\ gap g /\
                            spaced ["not"; "found"] t) in H.
      destruct H as (a & g & t & -> & Ha & Hg & Ht). eauto 9.
    + right. right. auto.
Qed.

Lemma h1_re_spec (m : text) :
  (exists g, matches NOT_FOUND_H1_RE None m g) <-> h1_element m.
Proof.
  unfold NOT_FOUND_H1_RE, h1_element. split.
  - intros (g & H).
    apply matches_seq in H as (o & s & cap & -> & Ho & H).
    apply matches_lit_ci in Ho as [-> Ho].
    apply matches_seq in H as (attrs & s' & cap & -> & Hattrs & H).
    apply matches_star in Hattrs as [-> Hattrs].
    apply matches_seq in H as (gt & s & cap & -> & Hgt & H).
    apply matches_lit_ci in Hgt as [-> Hgt]. apply same_letters_gt in Hgt as ->.
    apply matches_seq in H as (lead & s' & cap & -> & Hlead & H).
    apply matches_star in Hlead as [-> Hlead].
    apply matches_seq in H as (phrase & s & cap & -> & Hphrase & H).
    apply matches_group in Hphrase as [-> [cap Hphrase]].
    apply phrase_re_spec in Hphrase as [-> Hphrase].
    apply matches_seq in H as (trail & c & cap & -> & Htrail & Hc).
    apply matches_star in Htrail as [-> Htrail].
    apply matches_lit_ci in Hc as [-> Hc].
    exists o, attrs, lead, phrase, trail, c. repeat split; auto.
  - intros (o & attrs & lead & phrase & trail & c & -> & Ho & Hattrs & Hlead
            & Hphrase & Htrail & Hc).
    exists (Some phrase).
    apply matches_seq. exists o, (attrs ++ [gt_sign] ++ lead ++ phrase ++ trail ++ c), None.
    split; [reflexivity |]. split; [now apply matches_lit_ci |].
    apply matches_seq. exists attrs, ([gt_sign] ++ lead ++ phrase ++ trail ++ c), None.
    split; [reflexivity |]. split; [now apply matches_star |].
    apply matches_seq. exists [gt_sign], (lead ++ phrase ++ trail ++ c), None.
    split; [reflexivity |].
    split; [apply matches_lit_ci; split; [reflexivity | now apply same_letters_gt] |].
    apply matches_seq. exists lead, (phrase ++ trail ++ c), None.
    split; [reflexivity |]. split; [now apply matches_star |].
    apply matches_seq. exists phrase, (trail ++ c), (Some phrase).
    split; [reflexivity |]. split.
    { apply matches_group. split; [reflexivity |]. exists None.
      now apply phrase_re_spec. }
    apply matches_seq. exists trail, c, (Some phrase).
    split; [reflexivity |]. split; [now apply matches_star |].
    now apply matches_lit_ci.
Qed.

Lemma title_re_spec (m : text) (g : option text) :
  matches TITLE_RE None m g <->
  exists inner, g = Some inner /\ title_element m inner.
Proof.
  unfold TITLE_RE, title_element. split.
  - intros H.
    apply matches_seq in H as (o & s & cap & -> & Ho & H).
    apply matches_lit_ci in Ho as [-> Ho].
    apply matches_seq in H as (attrs & s' & cap & -> & Hattrs & H).
    apply matches_star in Hattrs as [-> Hattrs].
    apply matches_seq in H as (gt & s & cap & -> & Hgt & H).
    apply matches_lit_ci in Hgt as [-> Hgt]. apply same_letters_gt in Hgt as ->.
    apply matches_seq in H as (inner & c & cap & -> & Hinner & Hc).
    apply matches_group in Hinner as [-> _].
    apply matches_lit_ci in Hc as [-> Hc].
    exists inner. split; [reflexivity |]. exists o, attrs, c. auto.
  - intros (inner & -> & o & attrs & c & -> & Ho & Hattrs & Hc).
    apply matches_seq. exists o, (attrs ++ [gt_sign] ++ inner ++ c), None.
    split; [reflexivity |]. split; [now apply matches_lit_ci |].
    apply matches_seq. exists attrs, ([gt_sign] ++ inner ++ c), None.
    split; [reflexivity |]. split; [now apply matches_star |].
    apply matches_seq. exists [gt_sign], (inner ++ c), None.
    split; [reflexivity |].
    split; [apply matches_lit_ci; split; [reflexivity | now apply same_letters_gt] |].
    apply matches_seq. exists inner, c, (Some inner).
    split; [reflexivity |]. split.
    { apply matches_group. split; [reflexivity |]. exists None.
      apply matches_lazy_star. split; [reflexivity |].
      clear. induction inner; [reflexivity | exact IHinner]. }
    now apply matches_lit_ci.
Qed.

(** *** The first title element *)

Lemma same_letters_length (w : string) (t : text) :
  same_letters w t -> length t = length (chars w).
Proof.
  unfold same_letters, lower_text. intros H.
  apply (f_equal length) in H. now rewrite !length_map in H.
Qed.

(** A tag is closed by the first [>] that follows. *)
Lemma no_gt_split (a a' x x' : text) :
  no_gt a -> no_gt a' ->
  a ++ [gt_sign] ++ x = a' ++ [gt_sign] ++ x' -> a = a' /\ x = x'.
Proof.
  unfold no_gt. revert a'. induction a as [|c a IH]; intros [|c' a'] Ha Ha' Heq;
    cbn in *.
  - injection Heq as ->. auto.
  - injection Heq as <- _. discriminate.
  - injection Heq as -> _. discriminate.
  - injection Heq as -> Heq.
    apply andb_prop in Ha as [_ Ha]. apply andb_prop in Ha' as [_ Ha'].
    destruct (IH a' Ha Ha' Heq) as [-> ->]. auto.
Qed.

Lemma run_seq {A} (a b : regex) cap s (k : option text -> text -> option A) :
  run (Seq a b) cap s k = run a cap s (fun cap' s' => run b cap' s' k).
Proof. reflexivity. Qed.

(** Two title elements that start at the same place share the opening tag. *)
Lemma title_bodies_agree (o attrs x o' attrs' x' : text) :
  same_letters "<title" o -> same_letters "<title" o' ->
  no_gt attrs -> no_gt attrs' ->
  o ++ attrs ++ [gt_sign] ++ x = o' ++ attrs' ++ [gt_sign] ++ x' ->
  o = o' /\ attrs = attrs' /\ x = x'.
Proof.
  intros Ho Ho' Ha Ha' Heq.
  apply app_inj_1 in Heq as [-> Heq];
    [| now rewrite (same_letters_length _ _ Ho), (same_letters_length _ _ Ho')].
  apply no_gt_split in Heq as [-> ->]; auto.
Qed.

(** At a given start, the lazy [.*?] makes the matcher stop at the first
    closing tag. *)
Lemma title_match_shortest (s0 inner post : text) :
  match_at TITLE_RE s0 = Some (Some inner, post) ->
  exists m, s0 = m ++ post /\ title_element m inner /\
    forall m' inner' post',
      s0 = m' ++ post' -> title_element m' inner' ->
      (length inner <= length inner')%nat.
Proof.
  unfold match_at, TITLE_RE. intros H.
  rewrite run_seq in H. apply run_sound in H as (o & s1 & cap1 & -> & Ho & H).
  apply matches_lit_ci in Ho as [-> Ho].
  rewrite run_seq in H. apply run_sound in H as (attrs & s2 & cap2 & -> & Ha & H).
  apply matches_star in Ha as [-> Ha].
  rewrite run_seq in H. apply run_sound in H as (gt & s3 & cap3 & -> & Hgt & H).
  apply matches_lit_ci in Hgt as [-> Hgt]. apply same_letters_gt in Hgt as ->.
  rewrite run_seq in H. cbn [run] in H.
  apply star_lazy_sound in H as (inner0 & s4 & -> & _ & Hk & Hmin).
  rewrite take_length_diff in Hk.
  apply run_sound in Hk as (c & rest & cap4 & -> & Hc & [= -> ->]).
  apply matches_lit_ci in Hc as [[= <-] Hc].
  exists (o ++ attrs ++ [gt_sign] ++ inner ++ c).
  split; [now rewrite <- !app_assoc |].
  split; [exists o, attrs, c; auto |].
  intros m' inner' post' Heq (o' & attrs' & c' & -> & Ho' & Ha' & Hc').
  destruct (le_lt_dec (length inner) (length inner')) as [Hle | Hlt];
    [exact Hle | exfalso].
  rewrite <- !app_assoc in Heq.
  apply title_bodies_agree in Heq as (_ & _ & Heq); [| assumption ..].
  specialize (Hmin inner' (c' ++ post') Heq Hlt).
  assert (Hsome : is_Some
            (run (lit_ci "</title>")
               (Some (take (length (inner ++ c ++ post) - length (c' ++ post'))
                        (inner ++ c ++ post)))
               (c' ++ post')
               (fun (cap : option text) (rest : text) => Some (cap, rest)))).
  { eapply run_complete; [apply matches_lit_ci; eauto | eauto]. }
  rewrite Hmin in Hsome. destruct Hsome as [? ?]. discriminate.
Qed.

Lemma search_title_first (s pre : text) (g : option text) (post : text) :
  search TITLE_RE s = Some (pre, g, post) ->
  exists inner, g = Some inner /\ first_title s inner.
Proof.
  intros H.
  destruct (search_sound _ _ _ _ _ H) as (m & Hs & Hm).
  apply title_re_spec in Hm as (inner & -> & Helem).
  exists inner. split; [reflexivity |].
  destruct (search_leftmost _ _ _ _ _ H) as [Hat Hleft].
  apply title_match_shortest in Hat as (m0 & Hdrop & _ & Hshort).
  exists pre, m, post. split; [exact Hs |]. split; [exact Helem |].
  intros pre' m' inner' post' Hs' Helem'.
  assert (Hle : (length pre <= length pre')%nat).
  { destruct (le_lt_dec (length pre) (length pre')) as [Hle | Hlt];
      [exact Hle | exfalso].
    specialize (Hleft pre' (m' ++ post') Hs' Hlt).
    destruct (match_at_complete TITLE_RE m' post' (Some inner')) as [x Hx].
    - apply title_re_spec. eauto.
    - congruence. }
  split; [exact Hle |]. intros Hlen.
  apply (Hshort m' inner' post'); [| exact Helem'].
  rewrite Hs' at 1. rewrite <- Hlen. now rewrite drop_app_length.
Qed.

Lemma first_title_unique (s inner1 inner2 : text) :
  first_title s inner1 -> first_title s inner2 -> inner1 = inner2.
Proof.
  intros (pre1 & m1 & post1 & Hs1 & He1 & Hmin1)
         (pre2 & m2 & post2 & Hs2 & He2 & Hmin2).
  destruct (Hmin1 _ _ _ _ Hs2 He2) as [Hle1 Hin1].
  destruct (Hmin2 _ _ _ _ Hs1 He1) as [Hle2 Hin2].
  assert (Hlen : length pre1 = length pre2) by lia.
  assert (Hlen' : length inner1 = length inner2) by (specialize (Hin1 ltac:(lia)); specialize (Hin2 ltac:(lia)); lia).
  rewrite Hs1 in Hs2. apply app_inj_1 in Hs2 as [_ Hs2]; [| exact Hlen].
  destruct He1 as (o1 & a1 & c1 & -> & Ho1 & Ha1 & _).
  destruct He2 as (o2 & a2 & c2 & -> & Ho2 & Ha2 & _).
  rewrite <- !app_assoc in Hs2.
  apply title_bodies_agree in Hs2 as (_ & _ & Hs2); [| assumption ..].
  now apply app_inj_1 in Hs2 as [-> _].
Qed.

Lemma first_title_found (s inner : text) :
  first_title s inner ->
  exists pre post, search TITLE_RE s = Some (pre, Some inner, post).
Proof.
  intros Hfirst. pose proof Hfirst as (pre & m & post & -> & Helem & _).
  destruct (search_complete TITLE_RE pre m post (Some inner)) as [[[p g] q] H].
  { apply title_re_spec. eauto. }
  destruct (search_title_first _ _ _ _ H) as (inner' & -> & Hfirst').
  rewrite (first_title_unique _ _ _ Hfirst Hfirst'). eauto.
Qed.

Lemma no_title_found (s : text) :
  search TITLE_RE s = None -> forall inner, ~ first_title s inner.
Proof.
  intros Hnone inner Hfirst.
  destruct (first_title_found s inner Hfirst) as (pre & post & H). congruence.
Qed.

Lemma search_h1_spec (s : text) :
  is_Some (search NOT_FOUND_H1_RE s) <-> has_not_found_h1 s.
Proof.
  unfold has_not_found_h1. split.
  - intros [[[pre g] post] H].
    destruct (search_sound _ _ _ _ _ H) as (m & -> & Hm).
    exists pre, m, post. split; [reflexivity |]. apply h1_re_spec. eauto.
  - intros (pre & m & post & -> & Hm).
    apply h1_re_spec in Hm as [g Hm]. eapply search_complete; eauto.
Qed.


(** ** White-space normalisation ([normalize_spaces]) *)

Lemma chars_str (t : text) : chars (str t) = t.
Proof. apply list_ascii_of_string_of_list_ascii. Qed.

Lemma str_chars (s : string) : str (chars s) = s.
Proof. apply string_of_list_ascii_of_string. Qed.

(** With a continuation that accepts everything, the greedy star takes the
    whole run. *)
Lemma star_greedy_all (p : ascii -> bool) (cap : option text) (s : text) :
  star_greedy p cap (fun cap rest => Some (cap, rest)) s
  = Some (cap, lstrip_by p s).
Proof.
  induction s as [|c s IH]; cbn [star_greedy lstrip_by]; [reflexivity |].
  destruct (p c); [now rewrite IH | reflexivity].
Qed.

Lemma match_at_whitespace (c : ascii) (s : text) :
  match_at WHITESPACE_RE (c :: s)
  = if isspace c then Some (None, lstrip_by isspace s) else None.
Proof.
  unfold match_at, WHITESPACE_RE, Plus. cbn [run].
  destruct (isspace c); [apply star_greedy_all | reflexivity].
Qed.

Lemma length_lstrip_by (p : ascii -> bool) (s : text) :
  (length (lstrip_by p s) <= length s)%nat.
Proof.
  induction s as [|c s IH]; cbn [lstrip_by]; [lia |].
  destruct (p c); cbn [length]; lia.
Qed.

(** Dropping the rest of a run of white space. *)
Lemma sub_go_skip_run (r : regex) (repl : text) (p : ascii -> bool) (s : text) :
  sub_go r repl (length s - length (lstrip_by p s)) s
  = sub_go r repl 0 (lstrip_by p s).
Proof.
  induction s as [|c s IH]; [reflexivity |].
  cbn [lstrip_by]. destruct (p c).
  - pose proof (length_lstrip_by p s).
    replace (length (c :: s) - length (lstrip_by p s))%nat
      with (S (length s - length (lstrip_by p s))) by (cbn [length]; lia).
    cbn [sub_go]. exact IH.
  - now rewrite Nat.sub_diag.
Qed.

(** [WHITESPACE_RE.sub(" ", t)], one character at a time: a run of white
    space becomes one space, everything else stays. *)
Lemma collapse_cons (c : ascii) (s : text) :
  sub WHITESPACE_RE (chars " ") (c :: s)
  = if isspace c
    then chars " " ++ sub WHITESPACE_RE (chars " ") (lstrip_by isspace s)
    else c :: sub WHITESPACE_RE (chars " ") s.
Proof.
  unfold sub. cbn [sub_go]. rewrite match_at_whitespace.
  destruct (isspace c); [| reflexivity].
  pose proof (length_lstrip_by isspace s).
  replace (length (c :: s) - length (lstrip_by isspace s))%nat
    with (S (length s - length (lstrip_by isspace s))) by (cbn [length]; lia).
  now rewrite sub_go_skip_run.
Qed.

Abbreviation collapse := (sub WHITESPACE_RE (chars " ")).

Lemma isspace_lower (c : ascii) : isspace (lower_char c) = isspace c.
Proof. destruct c as [[] [] [] [] [] [] [] []]; vm_compute; reflexivity. Qed.

Lemma blank_lower (t : text) : blank (lower_text t) <-> blank t.
Proof.
  unfold blank, lower_text. induction t as [|c t IH]; [reflexivity |].
  cbn [map forallb]. rewrite isspace_lower, !andb_true_iff, IH. reflexivity.
Qed.

Lemma solid_lower (w : text) : solid (lower_text w) <-> solid w.
Proof.
  unfold solid, lower_text.
  assert (H : forallb (fun c => negb (isspace c)) (map lower_char w)
              = forallb (fun c => negb (isspace c)) w).
  { induction w as [|c w IH]; [reflexivity |].
    cbn [map forallb]. now rewrite isspace_lower, IH. }
  rewrite H. destruct w; cbn; split; intros [H1 H2]; split; auto; discriminate.
Qed.

Lemma lstrip_blank (g rest : text) :
  blank g -> lstrip_by isspace (g ++ rest) = lstrip_by isspace rest.
Proof.
  unfold blank. induction g as [|c g IH]; [reflexivity |].
  cbn [forallb app lstrip_by]. intros H. apply andb_prop in H as [-> H]. auto.
Qed.

Lemma lstrip_solid (w rest : text) :
  solid w -> lstrip_by isspace (w ++ rest) = w ++ rest.
Proof.
  intros [Hne Hall]. destruct w as [|c w]; [congruence |].
  cbn in Hall. apply andb_prop in Hall as [Hc _].
  cbn [app lstrip_by]. apply negb_true_iff in Hc. now rewrite Hc.
Qed.

Lemma collapse_nil : collapse [] = [].
Proof. reflexivity. Qed.

Lemma collapse_solid (w rest : text) :
  forallb (fun c => negb (isspace c)) w = true ->
  collapse (w ++ rest) = w ++ collapse rest.
Proof.
  induction w as [|c w IH]; [reflexivity |].
  cbn [forallb app]. intros H. apply andb_prop in H as [Hc H].
  rewrite collapse_cons. apply negb_true_iff in Hc. rewrite Hc.
  now rewrite IH.
Qed.

(** A gap in front of a word, or of nothing, becomes one space. *)
Lemma collapse_gap (g rest : text) :
  gap g -> lstrip_by isspace rest = rest ->
  collapse (g ++ rest) = chars " " ++ collapse rest.
Proof.
  intros [Hg Hne] Hrest. destruct g as [|c g]; [congruence |].
  unfold blank in Hg. cbn in Hg. apply andb_prop in Hg as [Hc Hg].
  cbn [app]. rewrite collapse_cons, Hc, lstrip_blank by exact Hg.
  now rewrite Hrest.
Qed.

Lemma worded_solid (body : text) (ws : list text) :
  worded body ws -> Forall solid ws.
Proof.
  induction 1 as [|w trail Hw _|w g body ws Hw _ _ IH _].
  - constructor.
  - constructor; [exact Hw | constructor].
  - constructor; [exact Hw | exact IH].
Qed.

Lemma worded_lstrip (body : text) (ws : list text) :
  worded body ws -> lstrip_by isspace body = body.
Proof.
  destruct 1 as [|w trail Hw _|w g body ws Hw _ _ _]; [reflexivity | |];
    now apply lstrip_solid.
Qed.

Lemma unwords_cons (w : text) (ws : list text) :
  ws ≠ [] -> unwords (w :: ws) = w ++ chars " " ++ unwords ws.
Proof. destruct ws; [congruence | reflexivity]. Qed.

(** Collapsing a worded text gives the words joined by single spaces, and
    one more space when white space trails. *)
Lemma collapse_worded (body : text) (ws : list text) :
  worded body ws ->
  exists tail, blank tail /\ collapse body = unwords ws ++ tail.
Proof.
  induction 1 as [|w trail Hw Htrail|w g body ws Hw Hg Hbody IH Hne].
  - exists []. split; reflexivity.
  - destruct Hw as [_ Hw]. rewrite (collapse_solid _ _ Hw). cbn [unwords].
    destruct trail as [|c trail].
    + exists []. split; reflexivity.
    + exists (chars " "). split; [reflexivity |]. f_equal.
      rewrite <- (app_nil_r (c :: trail)), collapse_gap; try reflexivity.
      split; [exact Htrail | discriminate].
  - destruct IH as (tail & Htail & IH). exists tail. split; [exact Htail |].
    destruct Hw as [_ Hw]. rewrite (collapse_solid _ _ Hw).
    rewrite (collapse_gap _ _ Hg (worded_lstrip _ _ Hbody)), IH.
    rewrite (unwords_cons _ _ Hne), <- !app_assoc. reflexivity.
Qed.

Lemma strip_tight (l x r : text) :
  blank l -> blank r -> tight x -> strip_by isspace (l ++ x ++ r) = x.
Proof.
  intros Hl Hr [Hx Hxr]. unfold strip_by, rstrip_by.
  destruct x as [|c x].
  - cbn [app]. rewrite lstrip_blank by exact Hl.
    rewrite <- (app_nil_r r), lstrip_blank by exact Hr.
    reflexivity.
  - rewrite lstrip_blank by exact Hl.
    assert (Hc : lstrip_by isspace ((c :: x) ++ r) = (c :: x) ++ r).
    { cbn [app lstrip_by] in *. destruct (isspace c); [| reflexivity].
      exfalso. pose proof (length_lstrip_by isspace x) as Hlen.
      rewrite Hx in Hlen. cbn in Hlen. lia. }
    rewrite Hc, rev_app_distr, lstrip_blank.
    + now rewrite Hxr, rev_involutive.
    + unfold blank in *. rewrite forallb_forall in *.
      intros a Ha. apply Hr. now apply in_rev.
Qed.

Lemma solid_tight_ends (w : text) :
  solid w ->
  (exists c y, w = c :: y /\ isspace c = false) /\
  (exists y c, w = y ++ [c] /\ isspace c = false).
Proof.
  intros [Hne Hall]. split.
  - destruct w as [|c y]; [congruence |]. cbn in Hall.
    apply andb_prop in Hall as [Hc _]. apply negb_true_iff in Hc. eauto.
  - destruct (exists_last Hne) as (y & c & ->).
    rewrite forallb_app in Hall. apply andb_prop in Hall as [_ Hc].
    cbn in Hc. rewrite andb_true_r in Hc. apply negb_true_iff in Hc. eauto.
Qed.

Lemma unwords_tight (ws : list text) : Forall solid ws -> tight (unwords ws).
Proof.
  intros Hall. split.
  - destruct Hall as [|w ws Hw Hall]; [reflexivity |].
    destruct ws; [| cbn [unwords]]; [rewrite <- (app_nil_r w) |];
      now apply lstrip_solid.
  - induction Hall as [|w ws Hw Hall IH]; [reflexivity |].
    destruct (solid_tight_ends w Hw) as [_ (y & c & -> & Hc)].
    destruct ws as [|w' ws].
    + cbn [unwords]. rewrite rev_app_distr. cbn [rev app lstrip_by].
      now rewrite Hc.
    + rewrite unwords_cons by discriminate.
      rewrite !rev_app_distr. 
      destruct (rev (unwords (w' :: ws))) as [|d rest] eqn:E.
      * cbn [app rev lstrip_by].
        apply (f_equal (@rev ascii)) in E. rewrite rev_involutive in E.
        cbn in E. inversion Hall as [|? ? Hw' _]; subst.
        destruct Hw' as [Hne' _]. destruct w' ; [congruence |].
        destruct ws; discriminate E.
      * cbn [app]. cbn [app] in IH. cbn [lstrip_by] in *.
        destruct (isspace d); [| reflexivity].
        exfalso. pose proof (length_lstrip_by isspace rest) as Hlen.
        rewrite IH in Hlen. cbn in Hlen. lia.
Qed.

(** [normalize_spaces] on a text with known words. *)
Lemma normalize_worded (lead body : text) (ws : list text) :
  blank lead -> worded body ws ->
  normalize_spaces (str (lead ++ body)) = str (unwords ws).
Proof.
  intros Hlead Hbody. unfold normalize_spaces, strip.
  rewrite !chars_str. f_equal.
  destruct (collapse_worded _ _ Hbody) as (tail & Htail & Hc).
  assert (Hcol : collapse (lead ++ body)
                 = (if decide (lead = []) then [] else chars " ")
                   ++ unwords ws ++ tail).
  { destruct (decide (lead = [])) as [-> | Hne]; [exact Hc |].
    rewrite collapse_gap, Hc; [reflexivity | now split |].
    now apply (worded_lstrip _ ws). }
  rewrite Hcol. apply strip_tight; [| exact Htail |].
  - now destruct (decide (lead = [])).
  - apply unwords_tight. now apply (worded_solid body).
Qed.

(** Every text is leading white space followed by words. *)
Lemma text_worded (t : text) :
  exists lead body ws, t = lead ++ body /\ blank lead /\ worded body ws.
Proof.
  induction t as [|c t IH].
  - exists [], [], []. repeat split. constructor.
  - destruct IH as (lead & body & ws & -> & Hlead & Hbody).
    destruct (isspace c) eqn:Hc.
    + exists (c :: lead), body, ws. split; [reflexivity |].
      split; [| exact Hbody]. unfold blank in *. cbn. now rewrite Hc.
    + assert (Hsolid : forall w, forallb (fun c => negb (isspace c)) w = true ->
                                 solid (c :: w)).
      { intros w Hw. split; [discriminate |]. cbn. now rewrite Hc, Hw. }
      destruct lead as [|d lead].
      * cbn [app]. inversion Hbody as [|w trail Hw Htrail|w g b ws' Hw Hg Hb Hne];
          subst.
        -- exists [], ([c] ++ []), [[c]]. repeat split.
           apply W_last; [now apply Hsolid | reflexivity].
        -- exists [], ((c :: w) ++ trail), [c :: w]. repeat split.
           apply W_last; [apply Hsolid, Hw | exact Htrail].
        -- exists [], ((c :: w) ++ g ++ b), ((c :: w) :: ws'). repeat split.
           apply W_cons; auto. apply Hsolid, Hw.
      * destruct ws as [|w ws].
        -- inversion Hbody; subst.
           exists [], ([c] ++ (d :: lead)), [[c]]. rewrite app_nil_r.
           repeat split. apply W_last; [now apply Hsolid | exact Hlead].
        -- exists [], ([c] ++ (d :: lead) ++ body), ([c] :: w :: ws).
           repeat split. apply W_cons.
           ++ now apply Hsolid.
           ++ split; [exact Hlead | discriminate].
           ++ exact Hbody.
           ++ discriminate.
Qed.

Lemma lower_text_app (a b : text) :
  lower_text (a ++ b) = lower_text a ++ lower_text b.
Proof. apply map_app. Qed.

Lemma worded_lower (body : text) (ws : list text) :
  worded body ws -> worded (lower_text body) (map lower_text ws).
Proof.
  induction 1 as [|w trail Hw Htrail|w g body ws Hw Hg Hbody IH Hne];
    rewrite ?lower_text_app; cbn [map].
  - constructor.
  - apply W_last; [now apply solid_lower | now apply blank_lower].
  - apply W_cons; [now apply solid_lower | | exact IH | now destruct ws].
    destruct Hg as [Hg Hgne]. split; [now apply blank_lower | now destruct g].
Qed.

(** The first space of a text decides where its first word ends. *)
Lemma split_at_space (a a' x x' : text) :
  forallb (fun c => negb (isspace c)) a = true ->
  forallb (fun c => negb (isspace c)) a' = true ->
  a ++ chars " " ++ x = a' ++ chars " " ++ x' -> a = a' /\ x = x'.
Proof.
  revert a'. induction a as [|c a IH]; intros [|c' a'] Ha Ha' Heq; cbn in *.
  - injection Heq as ->. auto.
  - injection Heq as <- _. discriminate.
  - injection Heq as -> _. discriminate.
  - injection Heq as -> Heq.
    apply andb_prop in Ha as [_ Ha]. apply andb_prop in Ha' as [_ Ha'].
    destruct (IH a' Ha Ha' Heq) as [-> ->]. auto.
Qed.

Lemma no_space_inside (v rest : text) :
  forallb (fun c => negb (isspace c)) (v ++ chars " " ++ rest) = false.
Proof. rewrite forallb_app. cbn. apply andb_false_r. Qed.

Lemma unwords_inj (ws : list text) : forall ws',
  Forall solid ws -> Forall solid ws' -> unwords ws = unwords ws' -> ws = ws'.
Proof.
  induction ws as [|w ws IH]; intros ws' Hall Hall' Heq.
  - destruct ws' as [|w' ws']; [reflexivity |].
    inversion Hall' as [|? ? [Hne _] _]; subst.
    destruct ws'; cbn in Heq; destruct w'; try congruence; discriminate.
  - inversion Hall as [|? ? Hw Hrest]; subst.
    destruct ws' as [|w' ws'].
    { destruct Hw as [Hne _]. destruct ws; cbn in Heq; destruct w;
        try congruence; discriminate. }
    inversion Hall' as [|? ? Hw' Hrest']; subst.
    destruct Hw as [_ Hw]. destruct Hw' as [_ Hw'].
    destruct ws as [|w2 ws]; destruct ws' as [|w2' ws'].
    + cbn in Heq. now subst.
    + exfalso. rewrite (unwords_cons w') in Heq by discriminate.
      cbn [unwords] in Heq. subst w. rewrite no_space_inside in Hw.
      discriminate.
    + exfalso. rewrite (unwords_cons w) in Heq by discriminate.
      cbn [unwords] in Heq. subst w'. rewrite no_space_inside in Hw'.
      discriminate.
    + rewrite !unwords_cons in Heq by discriminate.
      apply split_at_space in Heq as [-> Heq]; [| assumption ..].
      f_equal. now apply IH.
Qed.

Abbreviation word_text := (fun w : string => lower_text (chars w)).

Lemma spaced_worded (names : list string) :
  names ≠ [] -> Forall (fun w => solid (word_text w)) names ->
  forall phrase trail,
    spaced names phrase -> blank trail ->
    worded (lower_text (phrase ++ trail)) (map word_text names).
Proof.
  induction names as [|w names IH]; [congruence |].
  intros _ Hall phrase trail Hsp Htrail.
  inversion Hall as [|? ? Hw Hrest]; subst.
  destruct names as [|w2 names].
  - cbn [spaced] in Hsp. unfold same_letters in Hsp.
    rewrite lower_text_app, Hsp. cbn [map].
    apply W_last; [exact Hw | now apply blank_lower].
  - change (exists a g t', phrase = a ++ g ++ t' /\ same_letters w a /\ gap g /\
                           spaced (w2 :: names) t') in Hsp.
    destruct Hsp as (a & g & t' & -> & Ha & [Hg Hgne] & Ht').
    rewrite <- !app_assoc, !lower_text_app. unfold same_letters in Ha.
    rewrite Ha. rewrite <- lower_text_app.
    change (map word_text (w :: w2 :: names))
      with (word_text w :: map word_text (w2 :: names)).
    apply W_cons; [exact Hw | | | discriminate].
    + split; [now apply blank_lower | now destruct g].
    + apply IH; [discriminate | exact Hrest | exact Ht' | exact Htrail].
Qed.

Lemma worded_spaced (names : list string) :
  names ≠ [] ->
  forall body ws,
    worded body ws -> map lower_text ws = map word_text names ->
    exists phrase trail,
      body = phrase ++ trail /\ blank trail /\ spaced names phrase.
Proof.
  induction names as [|w names IH]; [congruence |].
  intros _ body ws Hbody Hmap.
  destruct names as [|w2 names].
  - inversion Hbody as [|x trail Hx Htrail|x g b ws' Hx Hg Hb Hne]; subst;
      cbn in Hmap; try discriminate.
    + injection Hmap as Hmap. exists x, trail. repeat split; auto.
    + destruct ws'; [congruence | discriminate].
  - inversion Hbody as [|x trail Hx Htrail|x g b ws' Hx Hg Hb Hne]; subst;
      cbn [map] in Hmap; try discriminate.
    injection Hmap as Hx' Hmap.
    destruct (IH ltac:(discriminate) b ws' Hb Hmap)
      as (phrase & trail & -> & Htrail & Hsp).
    exists (x ++ g ++ phrase), trail. rewrite <- !app_assoc.
    split; [reflexivity |]. split; [exact Htrail |].
    change (exists a g0 t', x ++ g ++ phrase = a ++ g0 ++ t' /\
                            same_letters w a /\ gap g0 /\
                            spaced (w2 :: names) t').
    exists x, g, phrase. repeat split; auto; apply Hg.
Qed.

Lemma lower_str (t : text) : lower (str t) = str (lower_text t).
Proof. unfold lower. now rewrite chars_str. Qed.

Lemma str_inj (a b : text) : str a = str b -> a = b.
Proof. intros H. apply (f_equal chars) in H. now rewrite !chars_str in H. Qed.

(** The content of a heading is one of the phrases, letter case and white
    space aside, exactly when its normalised lower-case text is one of the
    phrases. *)
Lemma heading_content_normalized (inner : text) :
  (exists lead phrase trail,
     inner = lead ++ phrase ++ trail /\ blank lead /\
     not_found_phrase phrase /\ blank trail)
  <-> normalize_spaces (lower (str inner)) ∈ NOT_FOUND_PHRASES.
Proof.
  assert (Hsolid : forall names : list string,
            forallb (fun w => negb (bool_decide (word_text w = []))
                              && forallb (fun c => negb (isspace c)) (word_text w))
              names = true ->
            Forall (fun w => solid (word_text w)) names).
  { intros names H. apply Forall_forall. intros w Hw.
    rewrite forallb_forall in H. apply list_elem_of_In in Hw.
    specialize (H w Hw). apply andb_prop in H as [H1 H2].
    split; [| exact H2]. apply negb_true_iff, bool_decide_eq_false_1 in H1.
    exact H1. }
  rewrite lower_str. split.
  - intros (lead & phrase & trail & -> & Hlead & Hphrase & Htrail).
    assert (Hnorm : forall names : list string,
              names ≠ [] -> Forall (fun w => solid (word_text w)) names ->
              spaced names phrase ->
              normalize_spaces (str (lower_text (lead ++ phrase ++ trail)))
              = str (unwords (map word_text names))).
    { intros names Hne Hall Hsp. rewrite lower_text_app.
      apply normalize_worded; [now apply blank_lower |].
      now apply spaced_worded. }
    unfold NOT_FOUND_PHRASES. rewrite !elem_of_cons.
    destruct Hphrase as [H | [H | [H | H]]];
      apply Hnorm in H; try discriminate; try (apply Hsolid; reflexivity);
      rewrite H; cbn; tauto.
  - unfold NOT_FOUND_PHRASES. rewrite !elem_of_cons, elem_of_nil.
    intros Hin.
    destruct (text_worded inner) as (lead & body & ws & -> & Hlead & Hbody).
    assert (Hnorm : normalize_spaces (str (lower_text (lead ++ body)))
                    = str (unwords (map lower_text ws))).
    { rewrite lower_text_app.
      apply normalize_worded; [now apply blank_lower | now apply worded_lower]. }
    rewrite Hnorm in Hin.
    assert (Hback : forall names : list string,
              names ≠ [] -> Forall (fun w => solid (word_text w)) names ->
              str (unwords (map lower_text ws))
              = str (unwords (map word_text names)) ->
              exists phrase trail,
                body = phrase ++ trail /\ blank trail /\ spaced names phrase).
    { intros names Hne Hall Heq. apply str_inj in Heq.
      apply unwords_inj in Heq.
      - now apply (worded_spaced names Hne body ws).
      - apply Forall_fmap. eapply Forall_impl; [apply (worded_solid _ _ Hbody) |].
        intros w Hw. now apply solid_lower.
      - apply Forall_fmap. exact Hall. }
    assert (Hcase :
      exists phrase trail, body = phrase ++ trail /\ blank trail /\
                           not_found_phrase phrase).
    { unfold not_found_phrase.
      destruct Hin as [H | [H | [H | [H | []]]]].
      - destruct (Hback ["404"]) as (p & t & ? & ? & ?);
          [discriminate | apply Hsolid; reflexivity | exact H |]. eauto 7.
      - destruct (Hback ["404"; "not"; "found"]) as (p & t & ? & ? & ?);
          [discriminate | apply Hsolid; reflexivity | exact H |]. eauto 7.
      - destruct (Hback ["page"; "not"; "found"]) as (p & t & ? & ? & ?);
          [discriminate | apply Hsolid; reflexivity | exact H |]. eauto 8.
      - destruct (Hback ["not"; "found"]) as (p & t & ? & ? & ?);
          [discriminate | apply Hsolid; reflexivity | exact H |]. eauto 8. }
    destruct Hcase as (phrase & trail & -> & Htrail & Hphrase).
    exists lead, phrase, trail. auto.
Qed.

(** The heading rule in the words of normalisation: the element's content,
    lower-cased and with white space collapsed and trimmed, but with any
    markup left in place, is one of the four phrases. *)
Lemma h1_element_normalized (m : text) :
  h1_element m <->
  exists inner,
    h1_wrapped m inner /\
    normalize_spaces (lower (str inner)) ∈ NOT_FOUND_PHRASES.
Proof.
  unfold h1_element, h1_wrapped. split.
  - intros (o & attrs & lead & phrase & trail & c & -> & Ho & Ha & Hlead
            & Hphrase & Htrail & Hc).
    exists (lead ++ phrase ++ trail). split.
    + exists o, attrs, c. rewrite <- !app_assoc. auto.
    + apply heading_content_normalized. eauto 8.
  - intros (inner & (o & attrs & c & -> & Ho & Ha & Hc) & Hin).
    apply heading_content_normalized in Hin
      as (lead & phrase & trail & -> & Hlead & Hphrase & Htrail).
    exists o, attrs, lead, phrase, trail, c. rewrite <- !app_assoc. auto 10.
Qed.

(** ** The declared charset ([declared_charset]) *)

Lemma star_greedy_total {A} (p : ascii -> bool) (cap : option text)
    (k : option text -> text -> option A) (s : text) :
  (forall s', is_Some (k cap s')) ->
  star_greedy p cap k s = k cap (lstrip_by p s).
Proof.
  intros Hk. induction s as [|c s IH]; cbn [star_greedy lstrip_by];
    [reflexivity |].
  destruct (p c); [| reflexivity].
  rewrite IH. now destruct (Hk (lstrip_by p s)) as [x ->].
Qed.

Lemma lstrip_split (p : ascii -> bool) (s : text) :
  exists run, s = run ++ lstrip_by p s /\ forallb p run = true.
Proof.
  induction s as [|c s (run & Hs & Hrun)]; [exists []; auto |].
  cbn [lstrip_by]. destruct (p c) eqn:Hc.
  - exists (c :: run). cbn. rewrite Hc, Hrun, <- Hs. auto.
  - exists []. auto.
Qed.

Lemma lstrip_idempotent (p : ascii -> bool) (s : text) :
  lstrip_by p (lstrip_by p s) = lstrip_by p s.
Proof.
  induction s as [|c s IH]; [reflexivity |].
  cbn [lstrip_by]. destruct (p c) eqn:Hc; [exact IH |].
  cbn [lstrip_by]. now rewrite Hc.
Qed.

(** A match of [charset=([^\s;]+)] at the start of [s0]: the keyword, then
    the longest run of name characters, which is group 1. *)
Lemma match_at_charset (s0 : text) (g : option text) (rest : text) :
  match_at CHARSET_RE s0 = Some (g, rest) ->
  exists kw value,
    s0 = kw ++ value ++ rest /\ g = Some value /\
    same_letters "charset=" kw /\ value ≠ [] /\
    forallb charset_char value = true /\
    lstrip_by charset_char rest = rest.
Proof.
  unfold match_at, CHARSET_RE. fold charset_char. intros H.
  rewrite run_seq in H. apply run_sound in H as (kw & s1 & cap & -> & Hkw & H).
  apply matches_lit_ci in Hkw as [-> Hkw].
  unfold Plus in H. cbn [run] in H.
  destruct s1 as [|c s1]; [discriminate |].
  destruct (charset_char c) eqn:Hc; [| discriminate].
  rewrite star_greedy_total in H by eauto.
  destruct (lstrip_split charset_char s1) as (run & Hs1 & Hrun).
  pose proof (lstrip_idempotent charset_char s1) as Hidem.
  remember (lstrip_by charset_char s1) as rest0 eqn:Hrest0. clear Hrest0.
  subst s1. injection H as <- <-.
  assert (Ht : take (S (length (run ++ rest0)) - length rest0)
                 (c :: run ++ rest0) = c :: run)
    by apply (take_length_diff (c :: run) rest0).
  rewrite Ht. exists kw, (c :: run).
  split; [reflexivity |]. split; [reflexivity |]. split; [exact Hkw |].
  split; [discriminate |]. split; [cbn; now rewrite Hc, Hrun | exact Hidem].
Qed.

(** X4.  The declared charset is the name that follows the first
    [charset=] of the header that a name character follows, up to the next
    white space or semicolon, without surrounding quotes. *)
Lemma declared_charset_spec (content_type cs : string) :
  declared_charset content_type = Some cs ->
  exists pre kw value rest,
    chars content_type = pre ++ kw ++ value ++ rest /\
    same_letters "charset=" kw /\ value ≠ [] /\
    forallb charset_char value = true /\
    lstrip_by charset_char rest = rest /\
    cs = str (strip_by is_quote value) /\
    forall pre' kw' c rest',
      chars content_type = pre' ++ kw' ++ c :: rest' ->
      same_letters "charset=" kw' -> charset_char c = true ->
      (length pre <= length pre')%nat.
Proof.
  unfold declared_charset.
  destruct (search CHARSET_RE (chars content_type)) as [[[pre g] rest]|] eqn:E;
    [| discriminate].
  intros [= <-].
  destruct (search_leftmost _ _ _ _ _ E) as [Hat Hleft].
  destruct (search_sound _ _ _ _ _ E) as (m & Hs & _).
  rewrite Hs, drop_app_length in Hat.
  apply match_at_charset in Hat as (kw & value & Hm & -> & Hkw & Hne & Hval & Hrest).
  exists pre, kw, value, rest.
  split; [now rewrite Hs, Hm |]. split; [exact Hkw |]. split; [exact Hne |].
  split; [exact Hval |]. split; [exact Hrest |]. split; [reflexivity |].
  intros pre' kw' c rest' Hs' Hkw' Hc.
  destruct (le_lt_dec (length pre) (length pre')) as [Hle | Hlt];
    [exact Hle | exfalso].
  specialize (Hleft pre' (kw' ++ c :: rest') Hs' Hlt).
  destruct (match_at_complete CHARSET_RE (kw' ++ [c]) rest' (Some [c]))
    as [x Hx].
  - unfold CHARSET_RE. apply matches_seq. exists kw', [c], None.
    split; [reflexivity |]. split; [now apply matches_lit_ci |].
    apply matches_group. split; [reflexivity |]. exists None.
    apply matches_plus. split; [reflexivity |].
    split; [| discriminate]. cbn. fold (charset_char c). now rewrite Hc.
  - rewrite <- app_assoc in Hx. cbn [app] in Hx. congruence.
Qed.

(** ** The soft-404 heuristic ([not_found_heuristic]) *)

Lemma title_element_nonempty (m inner : text) : title_element m inner -> m ≠ [].
Proof.
  intros (o & attrs & c & -> & Ho & _) H.
  apply same_letters_length in Ho. apply (f_equal length) in H.
  rewrite length_app in H. cbn in *. lia.
Qed.

Lemma h1_element_nonempty (m : text) : h1_element m -> m ≠ [].
Proof.
  intros (o & attrs & lead & phrase & trail & c & -> & Ho & _) H.
  apply same_letters_length in Ho. apply (f_equal length) in H.
  rewrite length_app in H. cbn in *. lia.
Qed.

Lemma heading_rule_normalized (s : text) :
  has_not_found_h1 s <-> heading_says_not_found s.
Proof.
  unfold has_not_found_h1, heading_says_not_found. split.
  - intros (pre & m & post & -> & Hm).
    apply h1_element_normalized in Hm as (inner & Hw & Hin). eauto 8.
  - intros (pre & m & inner & post & -> & Hw & Hin).
    exists pre, m, post. split; [reflexivity |].
    apply h1_element_normalized. eauto.
Qed.

Lemma empty_page_has_nothing :
  (forall needles, ~ title_says "" needles) /\ ~ has_not_found_h1 (chars "").
Proof.
  split.
  - intros needles (inner & (pre & m & post & Hs & Helem & _) & _).
    apply title_element_nonempty in Helem. cbn in Hs.
    destruct pre; [destruct m; [congruence | discriminate] | discriminate].
  - intros (pre & m & post & Hs & Helem).
    apply h1_element_nonempty in Helem. cbn in Hs.
    destruct pre; [destruct m; [congruence | discriminate] | discriminate].
Qed.

Lemma title_says_found (html : string) (pre inner post : text)
    (needles : list string) :
  search TITLE_RE (chars html) = Some (pre, Some inner, post) ->
  title_says html needles <->
  forallb (fun n => contains n (title_text_of inner)) needles = true.
Proof.
  intros H. destruct (search_title_first _ _ _ _ H) as (inner' & [= <-] & Hfirst).
  unfold title_says. rewrite forallb_forall. split.
  - intros (inner2 & Hfirst2 & Hall) n Hn. rewrite Forall_forall in Hall.
    rewrite (first_title_unique _ _ _ Hfirst Hfirst2).
    apply Hall. now apply list_elem_of_In.
  - intros Hall. exists inner. split; [exact Hfirst |].
    apply Forall_forall. intros n Hn. apply Hall. now apply list_elem_of_In.
Qed.

(** C4 (as the code has it).  The heuristic applies three rules in order.
    (1) The first [<title>] element, tags replaced by spaces, lower-cased and
    white space collapsed, contains both [404] and [not found]: reason
    [HTML title indicates 404].  (2) Otherwise that text contains
    [page not found]: reason [HTML title indicates missing page].
    (3) Otherwise the content of some [<h1>] element, lower-cased and with
    white space collapsed and trimmed but with markup left in place, is
    exactly one of [404], [404 not found], [page not found], [not found]:
    reason [HTML h1 indicates missing page].  Otherwise it does not fire. *)
Theorem not_found_heuristic_rules (html : string) :
  (title_says html ["404"; "not found"] ->
     not_found_heuristic html = Some "HTML title indicates 404") /\
  (~ title_says html ["404"; "not found"] ->
   title_says html ["page not found"] ->
     not_found_heuristic html = Some "HTML title indicates missing page") /\
  (~ title_says html ["404"; "not found"] ->
   ~ title_says html ["page not found"] ->
   heading_says_not_found (chars html) ->
     not_found_heuristic html = Some "HTML h1 indicates missing page") /\
  (~ title_says html ["404"; "not found"] ->
   ~ title_says html ["page not found"] ->
   ~ heading_says_not_found (chars html) ->
     not_found_heuristic html = None).
Proof.
  destruct empty_page_has_nothing as [Hno_title Hno_h1].
  rewrite <- heading_rule_normalized.
  unfold not_found_heuristic.
  destruct (nonempty html) eqn:Hne; cbn [negb].
  2: { apply nonempty_false in Hne as ->.
       split; [intros H; now apply Hno_title in H |].
       split; [intros _ H; now apply Hno_title in H |].
       split; [intros _ _ H; now apply Hno_h1 in H | reflexivity]. }
  pose proof (search_h1_spec (chars html)) as Hh1.
  assert (Hcheck :
    (has_not_found_h1 (chars html) ->
       match search NOT_FOUND_H1_RE (chars html) with
       | Some _ => Some "HTML h1 indicates missing page"
       | None => None
       end = Some "HTML h1 indicates missing page") /\
    (~ has_not_found_h1 (chars html) ->
       match search NOT_FOUND_H1_RE (chars html) with
       | Some _ => Some "HTML h1 indicates missing page"
       | None => None
       end = None)).
  { destruct (search NOT_FOUND_H1_RE (chars html)) as [x|].
    - split; [reflexivity |]. intros Hnot. exfalso. apply Hnot, Hh1. eauto.
    - split; [| reflexivity]. intros Hyes. apply Hh1 in Hyes as [x Hx].
      discriminate. }
  destruct Hcheck as [Hfire Hquiet].
  destruct (search TITLE_RE (chars html)) as [[[pre g] post]|] eqn:E.
  - destruct (search_title_first _ _ _ _ E) as (inner & -> & Hfirst).
    pose proof (title_says_found html pre inner post ["404"; "not found"] E)
      as H1.
    pose proof (title_says_found html pre inner post ["page not found"] E)
      as H2.
    cbn [forallb] in H1, H2. rewrite andb_true_r in H1, H2.
    change (default [] (Some inner)) with inner. fold (title_text_of inner).
    destruct (contains "404" (title_text_of inner)
              && contains "not found" (title_text_of inner)) eqn:B1.
    + split; [reflexivity |].
      split; [intros Hnot; exfalso; now apply Hnot, H1 |].
      split; intros Hnot; exfalso; now apply Hnot, H1.
    + assert (Hn1 : ~ title_says html ["404"; "not found"])
        by (intros H; apply H1 in H; discriminate).
      split; [intros H; contradiction |].
      destruct (contains "page not found" (title_text_of inner)) eqn:B2.
      * split; [reflexivity |].
        split; intros _ Hnot; exfalso; now apply Hnot, H2.
      * assert (Hn2 : ~ title_says html ["page not found"])
          by (intros H; apply H2 in H; discriminate).
        split; [intros _ H; contradiction |].
        split; [intros _ _; exact Hfire | intros _ _; exact Hquiet].
  - assert (Hnone : forall needles, ~ title_says html needles).
    { intros needles (inner & Hfirst & _).
      now apply (no_title_found _ E inner). }
    split; [intros H; now apply Hnone in H |].
    split; [intros _ H; now apply Hnone in H |].
    split; [intros _ _; exact Hfire | intros _ _; exact Hquiet].
Qed.

(** A heading whose text is [404] inside a [<b>] element: the stated rule 3
    applies, no title is present, and the heuristic does not fire.  And on a
    title match the reason text starts with [HTML]. *)
Lemma h1_with_markup_not_detected :
  stated_h1_rule (chars "<h1><b>404</b></h1>") /\
  not_found_heuristic "<h1><b>404</b></h1>" = None /\
  not_found_heuristic "<title>404 Not Found</title>"
    ≠ Some "title indicates 404".
Proof.
  split; [| split].
  - exists [], (chars "<h1><b>404</b></h1>"), (chars "<b>404</b>"), [].
    split; [reflexivity |]. split.
    + exists (chars "<h1"), [], (chars "</h1>"). repeat split.
    + vm_compute. apply list_elem_of_here.
  - vm_compute. reflexivity.
  - vm_compute. discriminate.
Qed.

Lemma not_found_heuristic_rules_witness :
  not_found_heuristic "<html><h1> Page   NOT Found </h1></html>"
    = Some "HTML h1 indicates missing page" /\
  not_found_heuristic "<h1>Sorry, Page Not Found here</h1>" = None.
Proof.
  assert (Hno : forall page needles,
            search TITLE_RE (chars page) = None -> ~ title_says page needles).
  { intros page needles Hnone (inner & Hfirst & _).
    now apply (no_title_found _ Hnone inner). }
  split.
  - destruct (not_found_heuristic_rules
                "<html><h1> Page   NOT Found </h1></html>") as (_ & _ & H & _).
    apply H.
    + apply Hno. vm_compute. reflexivity.
    + apply Hno. vm_compute. reflexivity.
    + apply heading_rule_normalized, search_h1_spec. vm_compute. eauto.
  - destruct (not_found_heuristic_rules "<h1>Sorry, Page Not Found here</h1>")
      as (_ & _ & _ & H).
    apply H.
    + apply Hno. vm_compute. reflexivity.
    + apply Hno. vm_compute. reflexivity.
    + intros Hh1. apply heading_rule_normalized, search_h1_spec in Hh1 as [x Hx].
      vm_compute in Hx. discriminate.
Defined.

(** ** White-space normalisation, continued *)

Lemma worded_unwords (ws : list text) :
  Forall solid ws -> worded (unwords ws) ws.
Proof.
  induction ws as [|w ws IH]; intros Hall; [constructor |].
  inversion Hall as [|? ? Hw Hrest]; subst.
  destruct ws as [|w2 ws].
  - cbn [unwords]. rewrite <- (app_nil_r w) at 1. now apply W_last.
  - rewrite unwords_cons by discriminate.
    apply W_cons; [exact Hw | split; [reflexivity | discriminate] | now apply IH
                  | discriminate].
Qed.

Lemma normalize_spaces_words (s : string) :
  exists lead body ws,
    chars s = lead ++ body /\ blank lead /\ worded body ws /\
    normalize_spaces s = str (unwords ws).
Proof.
  destruct (text_worded (chars s)) as (lead & body & ws & Hs & Hlead & Hw).
  exists lead, body, ws. split; [exact Hs |]. split; [exact Hlead |].
  split; [exact Hw |].
  rewrite <- (str_chars s), Hs. now apply normalize_worded.
Qed.

(** X1.  Normalising twice changes nothing more: [normalize_spaces] is
    idempotent. *)
Theorem normalize_spaces_idempotent (s : string) :
  normalize_spaces (normalize_spaces s) = normalize_spaces s.
Proof.
  destruct (normalize_spaces_words s) as (lead & body & ws & _ & _ & Hw & ->).
  apply (normalize_worded [] (unwords ws) ws); [reflexivity |].
  apply worded_unwords, (worded_solid _ _ Hw).
Qed.

Lemma solid_no_space (w : text) (c : ascii) :
  solid w -> c ∈ w -> isspace c = false.
Proof.
  intros [_ Hall] Hin. rewrite forallb_forall in Hall.
  apply list_elem_of_In, Hall in Hin. now apply negb_true_iff in Hin.
Qed.

Lemma unwords_spaces (ws : list text) (c : ascii) :
  Forall solid ws -> c ∈ unwords ws -> isspace c = true -> c = " "%char.
Proof.
  induction ws as [|w ws IH]; intros Hall Hin Hsp.
  - now apply elem_of_nil in Hin.
  - inversion Hall as [|? ? Hw Hrest]; subst.
    destruct ws as [|w2 ws].
    + cbn [unwords] in Hin. rewrite (solid_no_space _ _ Hw Hin) in Hsp.
      discriminate.
    + rewrite unwords_cons in Hin by discriminate.
      apply elem_of_app in Hin as [Hin | Hin].
      * rewrite (solid_no_space _ _ Hw Hin) in Hsp. discriminate.
      * apply elem_of_cons in Hin as [-> | Hin]; [reflexivity |].
        now apply IH.
Qed.

Lemma double_space_cons (c : ascii) (t : text) :
  contains_text (chars "  ") (c :: t)
  = (bool_decide (c = " "%char) && bool_decide (head t = Some " "%char))
    || contains_text (chars "  ") t.
Proof.
  cbn [contains_text chars list_ascii_of_string starts_with].
  f_equal.
  destruct (decide (" "%char = c)) as [<- | Hne].
  - rewrite bool_decide_eq_true_2 by reflexivity. cbn [andb].
    destruct t as [|b t]; [reflexivity |]. cbn [head].
    destruct (decide (" "%char = b)) as [<- | Hne].
    + now rewrite bool_decide_eq_true_2.
    + rewrite bool_decide_eq_false_2; [reflexivity | congruence].
  - rewrite bool_decide_eq_false_2; [reflexivity | congruence].
Qed.

Lemma double_space_solid (w rest : text) :
  forallb (fun c => negb (isspace c)) w = true ->
  contains_text (chars "  ") (w ++ rest) = contains_text (chars "  ") rest.
Proof.
  induction w as [|c w IH]; intros Hall; [reflexivity |].
  cbn [forallb] in Hall. apply andb_prop in Hall as [Hc Hall].
  cbn [app]. rewrite double_space_cons, (IH Hall).
  rewrite bool_decide_eq_false_2; [reflexivity |].
  intros ->. discriminate Hc.
Qed.

Lemma unwords_no_double_space (ws : list text) :
  Forall solid ws -> contains_text (chars "  ") (unwords ws) = false.
Proof.
  induction ws as [|w ws IH]; intros Hall; [reflexivity |].
  inversion Hall as [|? ? Hw Hrest]; subst.
  destruct ws as [|w2 ws].
  - cbn [unwords]. rewrite <- (app_nil_r w).
    rewrite double_space_solid by apply Hw. reflexivity.
  - rewrite unwords_cons by discriminate.
    rewrite double_space_solid by apply Hw.
    change (chars " " ++ unwords (w2 :: ws))
      with (" "%char :: unwords (w2 :: ws)).
    rewrite double_space_cons, (IH Hrest), orb_false_r.
    apply andb_false_iff. right. apply bool_decide_eq_false_2.
    inversion Hrest as [|? ? Hw2 _]; subst.
    destruct (solid_tight_ends _ Hw2) as [(c & y & -> & Hc) _].
    destruct ws; cbn; intros [= ->]; discriminate Hc.
Qed.

(** X2.  The result of [normalize_spaces] keeps the words of its argument, in
    order, and joins them with single spaces: it neither starts nor ends with
    white space, its only white-space characters are plain spaces, and no two
    of them are adjacent. *)
Theorem normalize_spaces_single_spaces (s : string) :
  let t := chars (normalize_spaces s) in
  (exists lead body ws,
     chars s = lead ++ body /\ blank lead /\ worded body ws /\
     t = unwords ws) /\
  tight t /\
  (forall c, c ∈ t -> isspace c = true -> c = " "%char) /\
  contains "  " (normalize_spaces s) = false.
Proof.
  intros t.
  destruct (normalize_spaces_words s)
    as (lead & body & ws & Hs & Hlead & Hw & Hn).
  assert (Ht : t = unwords ws) by (unfold t; now rewrite Hn, chars_str).
  pose proof (worded_solid _ _ Hw) as Hsolid.
  split; [exists lead, body, ws; auto |].
  split; [rewrite Ht; now apply unwords_tight |].
  split; [rewrite Ht; intros c; now apply unwords_spaces |].
  unfold contains. fold t. rewrite Ht. now apply unwords_no_double_space.
Qed.

(** ** Content types ([is_html]) *)

Lemma contains_any_case (needle : string) (s : string) :
  lower_text (chars needle) = chars needle ->
  contains needle (lower s) = true <->
  exists pre m post, chars s = pre ++ m ++ post /\ same_letters needle m.
Proof.
  intros Hlow. unfold contains, lower. rewrite chars_str, contains_text_spec.
  unfold same_letters. rewrite Hlow. split.
  - intros (before & after & H). unfold lower_text in H.
    apply map_eq_app in H as (pre & rest & Hs & Hpre & H).
    apply map_eq_app in H as (m & post & Hrest & Hm & Hpost).
    exists pre, m, post. split; [now rewrite Hs, Hrest | exact Hm].
  - intros (pre & m & post & Hs & Hm).
    exists (lower_text pre), (lower_text post).
    now rewrite Hs, !lower_text_app, Hm.
Qed.

(** X9.  [is_html] holds exactly for the content types that contain
    [text/html] or [application/xhtml+xml], in any letter case and with
    anything before and after (parameters such as a charset included). *)
Theorem is_html_any_case (content_type : string) :
  is_html content_type = true <->
  exists pre m post,
    chars content_type = pre ++ m ++ post /\
    (same_letters "text/html" m \/ same_letters "application/xhtml+xml" m).
Proof.
  unfold is_html. rewrite orb_true_iff, !contains_any_case by reflexivity.
  split.
  - intros [(pre & m & post & H & Hm) | (pre & m & post & H & Hm)];
      exists pre, m, post; auto.
  - intros (pre & m & post & H & [Hm | Hm]); [left | right];
      exists pre, m, post; auto.
Qed.

(** ** Classification, continued ([evaluate_probe]) *)

(** The heuristic answers with one of its three reasons, none of them
    empty, so [if heuristic:] tests for a reason. *)
Lemma not_found_heuristic_reasons (html reason : string) :
  not_found_heuristic html = Some reason ->
  reason = "HTML title indicates 404" \/
  reason = "HTML title indicates missing page" \/
  reason = "HTML h1 indicates missing page".
Proof.
  unfold not_found_heuristic.
  repeat match goal with
         | |- context [match ?x with _ => _ end] => destruct x
         end; intros [= <-]; auto.
Qed.

Lemma not_found_heuristic_nonempty (html reason : string) :
  not_found_heuristic html = Some reason -> nonempty reason = true.
Proof.
  intros H. apply not_found_heuristic_reasons in H as [-> | [-> | ->]];
    reflexivity.
Qed.

(** X12.  A verdict keeps the method, the status and the final URL of its
    probe.  A passing verdict has the detail [ok], is never retryable, and
    comes from a status below 400; a retryable verdict is a failure without
    status or with one of the transient statuses. *)
Theorem evaluate_probe_consistent (probe : ProbeResult) :
  let v := evaluate_probe probe in
  method v = p_method probe /\ status v = p_status probe /\
  final_url v = p_final_url probe /\
  (ok v = true ->
     detail v = "ok" /\ retryable v = false /\
     exists st, p_status probe = Some st /\ st < 400) /\
  (retryable v = true ->
     ok v = false /\
     (p_status probe = None \/
      exists st, p_status probe = Some st /\ 400 <= st /\
                 st ∈ RETRYABLE_STATUSES)).
Proof.
  cbv zeta. unfold evaluate_probe.
  destruct (p_status probe) as [st|]; cbn.
  2: { repeat split; try discriminate; auto. }
  destruct (Z.leb_spec 400 st) as [Hge | Hlt]; cbn.
  - repeat split; try discriminate.
    match goal with H : bool_decide _ = true |- _ =>
      apply bool_decide_eq_true_1 in H; right; eauto
    end.
  - assert (Hok : exists st0, Some st = Some st0 /\ st0 < 400) by eauto.
    destruct (bool_decide (p_method probe = "GET")
              && is_html (p_content_type probe));
      [destruct (not_found_heuristic (p_body probe)) as [r|] eqn:E;
       [rewrite (not_found_heuristic_nonempty _ _ E) |] |];
      cbn; repeat split; auto; discriminate.
Qed.

(** X13.  A probe with a status below 400 fails only as a soft 404: when it
    is a GET of an HTML content type whose body trips the heuristic.  The
    verdict then carries the reason of the heuristic and is not retryable.
    Every other probe below 400 passes, whatever error text it carries; in
    particular a probe made with another method than GET always passes. *)
Theorem evaluate_probe_below_400 (probe : ProbeResult) (st : Z) :
  p_status probe = Some st -> st < 400 ->
  let v := evaluate_probe probe in
  (ok v = false <->
     p_method probe = "GET" /\ is_html (p_content_type probe) = true /\
     exists reason, not_found_heuristic (p_body probe) = Some reason) /\
  (forall reason,
     p_method probe = "GET" -> is_html (p_content_type probe) = true ->
     not_found_heuristic (p_body probe) = Some reason ->
     v = mkResult false "GET" (Some st) reason false (p_final_url probe)) /\
  (ok v = true ->
     v = mkResult true (p_method probe) (Some st) "ok" false
           (p_final_url probe)).
Proof.
  intros Hst Hlt v. subst v. unfold evaluate_probe. rewrite Hst.
  replace (400 <=? st) with false by lia.
  destruct (decide (p_method probe = "GET")) as [Hm | Hm].
  - rewrite (bool_decide_eq_true_2 _ Hm). cbn [andb].
    destruct (is_html (p_content_type probe)).
    + destruct (not_found_heuristic (p_body probe)) as [r|] eqn:E.
      * rewrite (not_found_heuristic_nonempty _ _ E). cbn.
        split; [split; eauto |]. split; [| discriminate].
        intros reason _ _ [= <-]. now rewrite Hm.
      * cbn. split; [split; [discriminate | intros (_ & _ & r & [=])] |].
        split; [intros reason _ _ [=] | reflexivity].
    + cbn. split; [split; [discriminate | intros (_ & [=] & _)] |].
      split; [intros reason _ [=] | reflexivity].
  - rewrite (bool_decide_eq_false_2 _ Hm). cbn.
    split; [split; [discriminate | intros (H & _); contradiction] |].
    split; [intros reason H; contradiction | reflexivity].
Qed.

Lemma evaluate_probe_below_400_witness :
  let not_modified :=
    mkProbe (Some 304) "HEAD" (Some "https://example.com/") "text/html" ""
      (Some "HTTP 304") in
  let missing :=
    mkProbe (Some 200) "GET" None "text/html; charset=utf-8"
      "<html><title>Page not found</title></html>" None in
  evaluate_probe not_modified
  = mkResult true "HEAD" (Some 304) "ok" false (Some "https://example.com/") /\
  evaluate_probe missing
  = mkResult false "GET" (Some 200) "HTML title indicates missing page" false
      None.
Proof.
  intros not_modified missing. split.
  - destruct (evaluate_probe_below_400 not_modified 304 eq_refl ltac:(lia))
      as (_ & _ & H).
    apply H. reflexivity.
  - destruct (evaluate_probe_below_400 missing 200 eq_refl ltac:(lia))
      as (_ & H & _).
    apply H; reflexivity.
Defined.

(** ** One probe, continued ([fetch]) *)

Section FetchFacts.
Context {float World : Type}.
Variable urlopen : World -> string -> string -> float -> outcome * World.
Variable reg : codecs.

Implicit Types (url meth : string) (timeout : float) (st : state float World).

Lemma read_prefix (n : Z) (body : list byte) :
  0 <= n -> read n body = take (Z.to_nat n) body.
Proof. intros H. unfold read. now replace (n <? 0) with false by lia. Qed.

(** X6.  A probe made with another method than GET, or with a
    [max_body_bytes] of 0, has an empty body whatever the server sends; the
    soft-404 heuristic has nothing to read, so with a status below 400 the
    verdict of such a probe passes. *)
Theorem fetch_without_body url meth timeout mbb st :
  meth ≠ "GET" \/ mbb = 0 ->
  let probe := (fetch urlopen reg url meth timeout mbb st).1 in
  p_body probe = "" /\
  (forall s, p_status probe = Some s -> s < 400 ->
     ok (evaluate_probe probe) = true).
Proof.
  intros Hcase probe.
  assert (Hbody : p_body probe = "").
  { subst probe. unfold fetch.
    destruct (urlopen _ _ _ _) as [[code u ct b | code u ct b | name reason] w];
      cbn [fst p_body]; [| | reflexivity].
    - destruct (decide (meth = "GET")) as [Hm | Hm]; [| reflexivity].
      destruct Hcase as [H | ->]; [contradiction | reflexivity].
    - destruct (decide (meth = "GET")) as [Hm | Hm]; [| reflexivity].
      destruct Hcase as [H | ->]; [contradiction |].
      now destruct b. }
  split; [exact Hbody |].
  intros s Hs Hlt. unfold evaluate_probe. rewrite Hs, Hbody.
  replace (400 <=? s) with false by lia.
  now destruct (_ && _).
Qed.

(** X7.  A GET probe depends on the first [max_body_bytes] bytes of the
    body only: two answers that agree up to there give the same probe. *)
Theorem fetch_reads_bounded_prefix url timeout mbb st st' (o o' : outcome)
    (w w' : World) :
  0 <= mbb ->
  urlopen (world st) url "GET" timeout = (o, w) ->
  urlopen (world st') url "GET" timeout = (o', w') ->
  truncate_body mbb o = truncate_body mbb o' ->
  (fetch urlopen reg url "GET" timeout mbb st).1
  = (fetch urlopen reg url "GET" timeout mbb st').1.
Proof.
  intros Hn Ho Ho' Heq. unfold fetch. rewrite Ho, Ho'.
  destruct o as [c u ct b | c u ct b | n r],
    o' as [c' u' ct' b' | c' u' ct' b' | n' r'];
    try discriminate Heq; cbn [truncate_body] in Heq; cbn [fst].
  - injection Heq as -> -> -> Hb.
    destruct (decide ("GET" = "GET")); [| congruence].
    now rewrite !read_prefix, Hb.
  - injection Heq as -> -> -> Hb.
    destruct (decide ("GET" = "GET")); [| congruence].
    destruct b as [b|], b' as [b'|]; try discriminate Hb; [| reflexivity].
    injection Hb as Hb. now rewrite !read_prefix, Hb.
  - now injection Heq as -> ->.
Qed.

End FetchFacts.

Lemma fetch_without_body_witness :
  let page := Scripted.html_200 "<title>404 not found</title>" in
  let get := (fetch Scripted.urlopen Scripted.reg "https://example.com/" "GET"
                12 0 (Scripted.start [page])).1 in
  p_body get = "" /\ ok (evaluate_probe get) = true.
Proof.
  intros page get.
  destruct (fetch_without_body Scripted.urlopen Scripted.reg
              "https://example.com/" "GET" 12 0 (Scripted.start [page]))
    as [Hbody Hok]; [right; reflexivity |].
  split; [exact Hbody |]. apply (Hok 200); [reflexivity | lia].
Defined.

Lemma fetch_reads_bounded_prefix_witness :
  let short := Scripted.html_200 "<h1>404</h1>" in
  let long := Scripted.html_200 "<h1>404</h1><p>more</p>" in
  (fetch Scripted.urlopen Scripted.reg "https://example.com/" "GET" 12 12
     (Scripted.start [short])).1
  = (fetch Scripted.urlopen Scripted.reg "https://example.com/" "GET" 12 12
       (Scripted.start [long])).1.
Proof.
  intros short long.
  apply (fetch_reads_bounded_prefix Scripted.urlopen Scripted.reg
           "https://example.com/" 12 12 (Scripted.start [short])
           (Scripted.start [long]) short long [] []);
    [lia | reflexivity | reflexivity | reflexivity].
Defined.

Lemma fetch_no_status_detail_witness :
  let url := "https://example.com/" in
  let moved := Response None "ftp://example.com/pub" None [] in
  let lost := (fetch Scripted.urlopen Scripted.reg url "HEAD" 12 131072
                 (Scripted.start [])).1 in
  let odd := (fetch Scripted.urlopen Scripted.reg url "HEAD" 12 131072
                (Scripted.start [moved])).1 in
  (p_status lost = None /\
   detail (evaluate_probe lost) = "TimeoutError: timed out") /\
  (p_status odd = None /\ detail (evaluate_probe odd) = "network failure").
Proof.
  intros url moved lost odd. split.
  - split; [reflexivity |].
    destruct (fetch_no_status_detail Scripted.urlopen Scripted.reg url "HEAD"
                12 131072 (Scripted.start []) eq_refl)
      as (_ & _ & [(name & reason & Hout & _ & Hd) | (u & ct & b & Hout & _)]).
    + injection Hout as <- <-. exact Hd.
    + discriminate Hout.
  - split; [reflexivity |].
    destruct (fetch_no_status_detail Scripted.urlopen Scripted.reg url "HEAD"
                12 131072 (Scripted.start [moved]) eq_refl)
      as (_ & _ & [(name & reason & Hout & _) | (u & ct & b & _ & _ & Hd)]).
    + discriminate Hout.
    + exact Hd.
Defined.

(** ** One check, continued ([check_once]) *)

Section CheckFacts.
Context {float World : Type}.
Variable urlopen : World -> string -> string -> float -> outcome * World.
Variable reg : codecs.

Implicit Types (url meth : string) (timeout : float) (st : state float World).

(** X14.  The method label of a verdict tells where it comes from: [HEAD] is
    the verdict of the HEAD probe, [GET (verify-html)] that of a GET made
    after a passing HEAD of an HTML content type, [GET (fallback)] that of a
    GET made after a failing HEAD.  No verdict is labelled plain [GET]. *)
Theorem check_once_method_labels url timeout mbb st :
  let head := fetch urlopen reg url "HEAD" timeout mbb st in
  let head_verdict := evaluate_probe head.1 in
  let run := check_once urlopen reg url timeout mbb st in
  (method run.1 = "HEAD" /\ run.1 = head_verdict) \/
  (method run.1 = "GET (verify-html)" /\ ok head_verdict = true /\
   is_html (p_content_type head.1) = true) \/
  (method run.1 = "GET (fallback)" /\ ok head_verdict = false).
Proof.
  intros head head_verdict run.
  assert (Hm : method head_verdict = "HEAD").
  { unfold head_verdict. rewrite evaluate_probe_method. apply fetch_method. }
  destruct (ok head_verdict) eqn:Hok;
    [destruct (is_html (p_content_type head.1)) eqn:Hhtml |].
  - right. left. split; [| auto].
    unfold run. rewrite check_once_with_get by (right; exact Hhtml).
    fold head head_verdict. rewrite Hok. cbn [fst set_method ok negb andb].
    destruct (evaluate_probe_ok_status _ Hok) as (s & Hs & Hlt).
    fold head in Hs. rewrite Hs. cbn [status_at_least].
    replace (400 <=? s) with false by lia.
    now rewrite andb_false_r.
  - left. unfold run.
    rewrite (check_once_head_decides urlopen reg url timeout mbb st Hok Hhtml).
    now split.
  - unfold run. rewrite check_once_with_get by (left; exact Hok).
    fold head head_verdict. rewrite Hok. cbn [fst].
    destruct (_ && _); [left; now split | right; right; now split].
Qed.

(** X15.  Whenever the GET is made and answers below 400 with an HTML body
    that trips the heuristic, the URL is reported as a failure that is not
    retryable and whose detail is the reason of the heuristic, whatever the
    HEAD probe said. *)
Theorem check_once_soft_404 url timeout mbb st (s : Z) (reason : string) :
  let head := fetch urlopen reg url "HEAD" timeout mbb st in
  let get := fetch urlopen reg url "GET" timeout mbb head.2 in
  let run := check_once urlopen reg url timeout mbb st in
  ok (evaluate_probe head.1) = false \/
  is_html (p_content_type head.1) = true ->
  p_status get.1 = Some s -> s < 400 ->
  is_html (p_content_type get.1) = true ->
  not_found_heuristic (p_body get.1) = Some reason ->
  ok run.1 = false /\ retryable run.1 = false /\ detail run.1 = reason /\
  status run.1 = Some s /\ final_url run.1 = p_final_url get.1 /\
  (method run.1 = "GET (verify-html)" \/ method run.1 = "GET (fallback)").
Proof.
  intros head get run Hcase Hs Hlt Hhtml Hreason.
  unfold run.
  rewrite (check_once_with_get urlopen reg url timeout mbb st Hcase).
  fold head get. cbn [fst].
  assert (Hget : evaluate_probe get.1
                 = mkResult false "GET" (Some s) reason false
                     (p_final_url get.1)).
  { unfold evaluate_probe. rewrite Hs, Hhtml, Hreason.
    replace (400 <=? s) with false by lia.
    assert (Hm : p_method get.1 = "GET") by apply fetch_method.
    rewrite Hm, (not_found_heuristic_nonempty _ _ Hreason). reflexivity. }
  rewrite Hget, Hs.
  replace (bool_decide (Some s = None)) with false
    by (symmetry; now apply bool_decide_eq_false_2).
  rewrite andb_false_r.
  destruct (ok (evaluate_probe head.1)); cbn; auto 10.
Qed.

(** X16.  An [HTTPError] with a code below 400 (urllib raises one for a 304,
    for instance) counts as a success: when it answers the HEAD and its
    content type is not HTML, the check passes with that status after the
    one request. *)
Theorem check_once_http_error_below_400 url timeout mbb st (code : Z)
    (geturl : string) (ctype : option string) (body : option (list byte))
    (w : World) :
  urlopen (world st) url "HEAD" timeout
  = (HTTPError code geturl ctype body, w) ->
  code < 400 -> is_html (default "" ctype) = false ->
  check_once urlopen reg url timeout mbb st
  = (mkResult true "HEAD" (Some code) "ok" false (Some geturl),
     mkState w (trace st ++ [Request "HEAD" url])).
Proof.
  intros Hopen Hlt Hhtml. unfold check_once, fetch. rewrite Hopen.
  cbn [decide]. unfold evaluate_probe at 1 2.
  cbn [p_status p_method p_content_type p_final_url].
  replace (400 <=? code) with false by lia.
  rewrite Hhtml. cbn. reflexivity.
Qed.

End CheckFacts.

Lemma check_once_soft_404_witness :
  let url := "https://example.com/" in
  let st := Scripted.start
              [Scripted.html_200 "";
               Scripted.html_200 "<html><h1>Not Found</h1></html>"] in
  let run := check_once Scripted.urlopen Scripted.reg url 12 131072 st in
  ok run.1 = false /\ retryable run.1 = false /\
  detail run.1 = "HTML h1 indicates missing page" /\ status run.1 = Some 200.
Proof.
  intros url st run.
  destruct (check_once_soft_404 Scripted.urlopen Scripted.reg url 12 131072 st
              200 "HTML h1 indicates missing page")
    as (H1 & H2 & H3 & H4 & _);
    [right; reflexivity | reflexivity | lia | reflexivity | reflexivity |].
  repeat split; assumption.
Defined.

Lemma check_once_http_error_below_400_witness :
  let url := "https://example.com/spec.txt" in
  let not_modified := HTTPError 304 url (Some "text/plain") (Some []) in
  check_once Scripted.urlopen Scripted.reg url 12 131072
    (Scripted.start [not_modified])
  = (mkResult true "HEAD" (Some 304) "ok" false (Some url),
     mkState [] [Request "HEAD" url]).
Proof.
  intros url not_modified.
  apply (check_once_http_error_below_400 Scripted.urlopen Scripted.reg url 12
           131072 (Scripted.start [not_modified]) 304 url (Some "text/plain")
           (Some []) []); [reflexivity | lia | reflexivity].
Defined.

(** ** Retries, continued ([check_with_retries]) *)

Section RetryAccounting.
Context {float World : Type}.
Variable fmul : float -> Z -> float.
Variable urlopen : World -> string -> string -> float -> outcome * World.
Variable sleep : World -> float -> World.
Variable reg : codecs.
Variables (url : string) (retry_delay timeout : float) (max_body_bytes : Z).

Implicit Types (st : state float World).

(** X18.  With [retries >= 0] the attempt count that comes back lies between
    1 and [retries + 1] and is the number of HEAD requests made; the sleeps
    of the run are [retry_delay × 1], ..., [retry_delay × (count - 1)], so a
    run never sleeps after its last attempt; and a failure that is still
    retryable comes back only when all [retries + 1] attempts are used. *)
Theorem check_with_retries_accounting (retries : Z) st :
  0 <= retries ->
  let run := check_with_retries fmul urlopen sleep reg url retries retry_delay
               timeout max_body_bytes st in
  let verdict := run.1.1 in
  let n := run.1.2 in
  1 <= n <= retries + 1 /\
  (ok verdict = false -> retryable verdict = true -> n = retries + 1) /\
  exists new,
    trace run.2 = trace st ++ new /\
    heads_of new = Z.to_nat n /\
    sleeps_of new = map (fmul retry_delay) (seqZ 1 (n - 1)) /\
    exists m, last new = Some (Request m url).
Proof.
  intros Hr run verdict n.
  destruct (retry_loop_run fmul urlopen sleep reg url retry_delay timeout
              max_body_bytes (Z.to_nat retries) 1 (retries + 1) uninitialized
              st ltac:(lia)) as (k & Hk & Hfail & Hlast & _).
  pose proof (retries_stop_at fmul urlopen sleep reg url retry_delay timeout
                max_body_bytes retries k st Hr Hk Hfail Hlast) as Hrun.
  destruct (run_trace fmul urlopen sleep reg url retry_delay timeout
              max_body_bytes 1 k st)
    as (evs & final & Hlen & Hall & Htr & Hsleeps & Hheads).
  subst verdict n run. rewrite Hrun. cbn [fst snd].
  split; [lia |]. split.
  - intros Hok Hretry.
    destruct Hlast as [H | [H | ->]]; [congruence | congruence | lia].
  - exists (with_sleeps fmul retry_delay 1 evs ++ final).
    split; [exact Htr |].
    split; [rewrite Hheads; lia |].
    split; [rewrite Hsleeps; do 2 f_equal; lia |].
    apply Forall_cons in Hall as [Hfinal _].
    rewrite last_app.
    destruct Hfinal as [-> | ->]; cbn; eauto.
Qed.

End RetryAccounting.

Lemma check_with_retries_accounting_witness :
  let url := "https://example.com/" in
  let busy := Scripted.http_error 503 in
  let run := check_with_retries Z.mul Scripted.urlopen Scripted.sleep
               Scripted.reg url 2 5 12 131072
               (Scripted.start [busy; busy; busy; busy; Scripted.plain_200]) in
  0 <= 2 /\ 1 <= run.1.2 <= 3 /\
  heads_of (trace run.2) = Z.to_nat run.1.2 /\
  sleeps_of (trace run.2) = map (Z.mul 5) (seqZ 1 (run.1.2 - 1)).
Proof.
  intros url busy run. split; [lia |].
  destruct (check_with_retries_accounting Z.mul Scripted.urlopen Scripted.sleep
              Scripted.reg url 5 12 131072 2
              (Scripted.start [busy; busy; busy; busy; Scripted.plain_200])
              ltac:(lia))
    as (Hn & _ & new & Htr & Hheads & Hsleeps & _).
  fold run in Hn, Htr, Hheads, Hsleeps. cbn [Scripted.start trace app] in Htr.
  split; [exact Hn |]. rewrite Htr. split; [exact Hheads | exact Hsleeps].
Defined.

Lemma check_with_retries_no_attempt_witness :
  let url := "https://example.com/" in
  let st := Scripted.start [Scripted.plain_200] in
  check_with_retries Z.mul Scripted.urlopen Scripted.sleep Scripted.reg url
    (-1) 5 12 131072 st
  = ((uninitialized, 0), st).
Proof.
  intros url st.
  apply (check_with_retries_no_attempt Z.mul Scripted.urlopen Scripted.sleep
           Scripted.reg url 5 12 131072 (-1) st).
  lia.
Defined.

(** ** URL extraction, continued ([load_unique_urls]) *)

Section ExtractMore.
Variable urlparse : string -> parsed_url.

Lemma classify_id (r r' : rule) (raw : json) :
  id_of r = id_of r' -> classify urlparse r raw = classify urlparse r' raw.
Proof. intros H. unfold classify. now rewrite H. Qed.

Lemma collected_cites (rules : list rule) (x : string) (v : string -> verdict) :
  (exists r raw, r ∈ rules /\ raw ∈ source_urls r /\
                 classify urlparse r raw = v x) <->
  (exists i raw r0, cites rules i raw /\ id_of r0 = i /\
                    classify urlparse r0 raw = v x).
Proof.
  split.
  - intros (r & raw & Hr & Hraw & Hc). exists (id_of r), raw, r.
    split; [exists r; auto | auto].
  - intros (i & raw & r0 & (r & Hr & Hid & Hraw) & Hid0 & Hc).
    exists r, raw. split; [exact Hr |]. split; [exact Hraw |].
    rewrite <- Hc. apply classify_id. congruence.
Qed.

(** X19.  The two lists depend only on which entries the rules cite under
    which identifier: the order of the rules, the order of the entries of a
    rule and any repetition leave them unchanged. *)
Theorem load_unique_urls_order_independent (rules rules' : list rule) :
  (forall i raw, cites rules i raw <-> cites rules' i raw) ->
  load_unique_urls urlparse rules = load_unique_urls urlparse rules'.
Proof.
  intros Hsame. unfold load_unique_urls.
  destruct (add_rules_spec urlparse rules (∅, ∅)) as [H1 H2].
  destruct (add_rules_spec urlparse rules' (∅, ∅)) as [H1' H2'].
  cbn [fst snd] in *.
  assert (Hiff : forall (v : string -> verdict) x,
            (exists r raw, r ∈ rules /\ raw ∈ source_urls r /\
                           classify urlparse r raw = v x) <->
            (exists r raw, r ∈ rules' /\ raw ∈ source_urls r /\
                           classify urlparse r raw = v x)).
  { intros v x. rewrite !collected_cites.
    split; intros (i & raw & r0 & Hc & H); exists i, raw, r0;
      (split; [now apply Hsame | exact H]). }
  assert (E1 : (foldl (add_rule urlparse) (∅, ∅) rules).1
               = (foldl (add_rule urlparse) (∅, ∅) rules').1).
  { apply set_eq. intros x.
    rewrite H1, H1'. pose proof (Hiff Valid x) as Hx. tauto. }
  assert (E2 : (foldl (add_rule urlparse) (∅, ∅) rules).2
               = (foldl (add_rule urlparse) (∅, ∅) rules').2).
  { apply set_eq. intros x.
    rewrite H2, H2'. pose proof (Hiff Invalid x) as Hx. tauto. }
  now rewrite E1, E2.
Qed.

Lemma sorted_length (s : gset string) : length (sorted s) = size s.
Proof. unfold sorted. now rewrite merge_sort_Permutation. Qed.

Lemma size_add (x : string) (s : gset string) :
  (size ({[x]} ∪ s) <= S (size s))%nat.
Proof.
  rewrite size_union_alt, size_singleton.
  apply le_n_S, subseteq_size.
  intros y Hy. now apply elem_of_difference in Hy as [Hy _].
Qed.

Lemma add_entries_size (r : rule) (entries : list json) :
  forall acc : gset string * gset string,
  let acc' := foldl (add_entry urlparse r) acc entries in
  (size acc'.1 + size acc'.2 <= size acc.1 + size acc.2 + length entries)%nat.
Proof.
  induction entries as [|raw entries IH]; intros acc; cbn [foldl length].
  - lia.
  - specialize (IH (add_entry urlparse r acc raw)). cbn zeta in IH.
    etransitivity; [exact IH |].
    unfold add_entry. destruct (classify urlparse r raw) as [u|d];
      cbn [fst snd].
    + pose proof (size_add u acc.1). lia.
    + pose proof (size_add d acc.2). lia.
Qed.

Lemma add_rules_size (rules : list rule) :
  forall acc : gset string * gset string,
  let acc' := foldl (add_rule urlparse) acc rules in
  (size acc'.1 + size acc'.2
   <= size acc.1 + size acc.2 + entry_count rules)%nat.
Proof.
  unfold entry_count.
  induction rules as [|r rules IH]; intros acc; cbn [foldl map concat].
  - cbn. lia.
  - specialize (IH (add_rule urlparse acc r)). cbn zeta in IH.
    pose proof (add_entries_size r (source_urls r) acc) as Hr.
    cbn zeta in Hr. fold (add_rule urlparse acc r) in Hr.
    rewrite length_app. lia.
Qed.

(** X20.  The extractor lists at most as many URLs and diagnostics as the
    dataset has entries; with no entry at all both lists are empty. *)
Theorem load_unique_urls_count (rules : list rule) :
  (length (load_unique_urls urlparse rules).1
   + length (load_unique_urls urlparse rules).2 <= entry_count rules)%nat.
Proof.
  unfold load_unique_urls. cbn [fst snd]. rewrite !sorted_length.
  pose proof (add_rules_size rules (∅, ∅)) as H. cbn zeta in H.
  cbn [fst snd] in H. rewrite size_empty in H. lia.
Qed.

End ExtractMore.

Lemma load_unique_urls_order_independent_witness :
  let a := mkRule (Some "CC-001") [JStr "https://example.com/a"; JNum 7] in
  let b := mkRule (Some "CC-002") [JStr "ftp://example.com/x"] in
  load_unique_urls Scripted.urlparse [a; b]
  = load_unique_urls Scripted.urlparse [b; a; b].
Proof.
  intros a b.
  apply (load_unique_urls_order_independent Scripted.urlparse [a; b] [b; a; b]).
  intros i raw. unfold cites.
  split; intros (r & Hr & H); exists r; (split; [| exact H]);
    revert Hr; rewrite !elem_of_cons, elem_of_nil; tauto.
Defined.

(** ** The report, continued ([main]) *)

Section RunFacts.
Context {float World : Type}.
Variable fmul : float -> Z -> float.
Variable urlopen : World -> string -> string -> float -> outcome * World.
Variable sleep : World -> float -> World.
Variable reg : codecs.
Variable urlparse : string -> parsed_url.
Variable args : arguments float.

Implicit Types (st : state float World) (rules : list rule).

Lemma requests_of_app (t1 t2 : list (event float)) :
  requests_of (t1 ++ t2) = (requests_of t1 + requests_of t2)%nat.
Proof. unfold requests_of. now rewrite List.filter_app, length_app. Qed.

(** What the loop adds to the trace, with [n] iterations left. *)
Lemma retry_loop_budget url (n : nat) : forall attempts a result st,
  n = 0%nat \/ a + Z.of_nat n = attempts + 1 ->
  exists new,
    trace (retry_loop fmul urlopen sleep reg url (arg_retry_delay args)
             (arg_timeout args) (arg_max_body_bytes args) attempts n a
             result st).2
    = trace st ++ new /\
    Forall (fun e => match e with
                     | Request m u => (m = "HEAD" \/ m = "GET") /\ u = url
                     | Sleep d => exists k, a <= k < attempts /\
                                            d = fmul (arg_retry_delay args) k
                     end) new /\
    (requests_of new <= 2 * n)%nat /\
    (length (sleeps_of new) <= pred n)%nat.
Proof.
  induction n as [|n IH]; intros attempts a result st Hn.
  - exists []. cbn. rewrite app_nil_r. repeat split; [constructor | lia | lia].
  - destruct Hn as [Hn | Hn]; [discriminate |].
    destruct (check_once_trace urlopen reg url (arg_timeout args)
                (arg_max_body_bytes args) st) as (ev & Hev & Hshape).
    assert (Hfor : Forall (fun e => match e with
                     | Request m u => (m = "HEAD" \/ m = "GET") /\ u = url
                     | Sleep d => exists k, a <= k < attempts /\
                                            d = fmul (arg_retry_delay args) k
                     end) ev).
    { destruct Hshape as [-> | ->];
        repeat (apply Forall_cons; split; [split; [auto | reflexivity] |]);
        apply Forall_nil_2. }
    assert (Hreq : (requests_of ev <= 2)%nat)
      by (destruct Hshape as [-> | ->]; cbn; lia).
    assert (Hsl : sleeps_of ev = [])
      by (destruct Hshape as [-> | ->]; reflexivity).
    cbn [retry_loop].
    destruct (check_once urlopen reg url (arg_timeout args)
                (arg_max_body_bytes args) st) as [v st1].
    cbn [snd] in Hev.
    assert (Hstop : exists new,
              trace st1 = trace st ++ new /\
              Forall (fun e => match e with
                     | Request m u => (m = "HEAD" \/ m = "GET") /\ u = url
                     | Sleep d => exists k, a <= k < attempts /\
                                            d = fmul (arg_retry_delay args) k
                     end) new /\
              (requests_of new <= 2 * S n)%nat /\
              (length (sleeps_of new) <= pred (S n))%nat).
    { exists ev. rewrite Hsl. cbn [length]. repeat split; auto; lia. }
    destruct (ok v); [exact Hstop |].
    destruct (retryable v && (a <? attempts)) eqn:Hcont; [| exact Hstop].
    apply andb_prop in Hcont as [_ Hlt]. apply Z.ltb_lt in Hlt.
    destruct (IH attempts (a + 1) v
                (do_sleep sleep (fmul (arg_retry_delay args) a) st1)
                ltac:(right; lia))
      as (new & Hnew & Hall & Hr & Hs).
    exists (ev ++ Sleep (fmul (arg_retry_delay args) a) :: new).
    split; [| split; [| split]].
    + rewrite Hnew. cbn [do_sleep trace]. rewrite Hev, <- !app_assoc.
      reflexivity.
    + apply Forall_app. split; [exact Hfor |].
      constructor; [exists a; split; [lia | reflexivity] |].
      eapply Forall_impl; [exact Hall |].
      intros [m u | d]; [auto |]. intros (k & Hk & ->). exists k.
      split; [lia | reflexivity].
    + rewrite requests_of_app.
      change (requests_of (Sleep (fmul (arg_retry_delay args) a) :: new))
        with (requests_of new). lia.
    + rewrite sleeps_of_app, Hsl. cbn [app].
      change (sleeps_of (Sleep (fmul (arg_retry_delay args) a) :: new))
        with (fmul (arg_retry_delay args) a :: sleeps_of new).
      cbn [length]. lia.
Qed.

Lemma check_all_budget (urls : list string) : forall (all : list string) st,
  urls ⊆ all ->
  exists new,
    trace (check_all fmul urlopen sleep reg args urls st).2 = trace st ++ new /\
    Forall (run_event fmul all (arg_retry_delay args) (arg_retries args)) new /\
    (requests_of new
     <= 2 * Z.to_nat (arg_retries args + 1) * length urls)%nat /\
    (length (sleeps_of new) <= Z.to_nat (arg_retries args) * length urls)%nat.
Proof.
  induction urls as [|url urls IH]; intros all st Hsub.
  - exists []. cbn. rewrite app_nil_r. repeat split; [constructor | lia | lia].
  - destruct (retry_loop_budget url (Z.to_nat (arg_retries args + 1))
                (arg_retries args + 1) 1 uninitialized st)
      as (ev & Hev & Hall & Hr & Hs); [lia |].
    cbn [check_all]. unfold check_url, check_with_retries.
    destruct (retry_loop _ _ _ _ _ _ _ _ _ _ _ _ st) as [o st1].
    cbn [snd] in Hev.
    destruct (IH all st1) as (new & Hnew & Hall' & Hr' & Hs').
    { intros u Hu. apply Hsub. now apply list_elem_of_further. }
    destruct (check_all fmul urlopen sleep reg args urls st1) as [os st2].
    cbn [snd] in *.
    exists (ev ++ new). split; [| split; [| split]].
    + now rewrite Hnew, Hev, <- app_assoc.
    + apply Forall_app. split; [| exact Hall'].
      eapply Forall_impl; [exact Hall |].
      intros [m u | d]; cbn [run_event].
      * intros [Hm ->]. split; [exact Hm |]. apply Hsub, list_elem_of_here.
      * intros (k & Hk & ->). exists k. split; [lia | reflexivity].
    + rewrite requests_of_app. cbn [length]. lia.
    + rewrite sleeps_of_app, length_app. cbn [length].
      replace (pred (Z.to_nat (arg_retries args + 1)))
        with (Z.to_nat (arg_retries args)) in Hs by lia.
      lia.
Qed.


Lemma rstrip_kept (p : ascii -> bool) (x : text) :
  lstrip_by p x = x -> lstrip_by p (rstrip_by p x) = rstrip_by p x.
Proof.
  intros Hx. unfold rstrip_by.
  destruct (lstrip_split p (rev x)) as (run & Hrun & _).
  apply (f_equal (@rev ascii)) in Hrun. rewrite rev_involutive, rev_app_distr in Hrun.
  set (y := rev (lstrip_by p (rev x))) in *.
  destruct y as [|c y]; [reflexivity |].
  rewrite Hrun in Hx. cbn [app lstrip_by] in Hx |- *.
  destruct (p c); [| reflexivity].
  pose proof (length_lstrip_by p (y ++ rev run)) as Hlen.
  rewrite Hx in Hlen. cbn [length] in Hlen. lia.
Qed.

Lemma strip_by_tight (t : text) : tight (strip_by isspace t).
Proof.
  unfold strip_by. split.
  - apply rstrip_kept, lstrip_idempotent.
  - unfold rstrip_by. rewrite rev_involutive. apply lstrip_idempotent.
Qed.

Lemma strip_idempotent (s : string) : strip (strip s) = strip s.
Proof.
  unfold strip. rewrite chars_str. f_equal.
  rewrite <- (app_nil_r (strip_by isspace (chars s))) at 1.
  apply (strip_tight [] _ []); [reflexivity | reflexivity | apply strip_by_tight].
Qed.

(** X21.  Every request of a run is a HEAD or a GET to a URL of the list: a
    non-empty string without white space around it, whose scheme is http or
    https and whose network location ([netloc]) is not empty (the host
    itself may be, as in [http://:80/x]); every sleep lasts
    [retry_delay × k] for an attempt number [k] between 1 and [retries]. *)
Theorem main_requests_well_formed rules st :
  exists new,
    trace (main fmul urlopen sleep reg urlparse args rules st).2
    = trace st ++ new /\
    (forall m u, Request m u ∈ new ->
       (m = "HEAD" \/ m = "GET") /\
       u ≠ "" /\ strip u = u /\
       (scheme (urlparse u) = "http" \/ scheme (urlparse u) = "https") /\
       netloc (urlparse u) ≠ "" /\
       exists r s, r ∈ rules /\ JStr s ∈ source_urls r /\ u = strip s) /\
    (forall d, Sleep d ∈ new ->
       exists k, 1 <= k <= arg_retries args /\
                 d = fmul (arg_retry_delay args) k).
Proof.
  pose proof (main_report fmul urlopen sleep reg urlparse args rules st)
    as Hmain.
  pose proof (load_unique_urls_spec urlparse rules) as Hspec.
  destruct (load_unique_urls urlparse rules) as [urls invalid].
  destruct Hspec as [Hurls _]. rewrite Hmain. cbn [snd].
  destruct (check_all_budget urls urls st) as (new & Htr & Hall & _);
    [done |].
  exists new. split; [exact Htr |]. rewrite Forall_forall in Hall.
  split.
  - intros m u Hin. destruct (Hall _ Hin) as [Hm Hu].
    split; [exact Hm |].
    apply Hurls in Hu as (r & raw & Hr & Hraw & Hc).
    destruct (classify_valid urlparse r raw u Hc)
      as (s & -> & Hs & Hne & Hsch & Hnet).
    split; [exact Hne |]. split; [rewrite Hs; apply strip_idempotent |].
    split; [exact Hsch |]. split; [exact Hnet |]. eauto.
  - intros d Hin. exact (Hall _ Hin).
Qed.

Lemma starts_with_refl (p rest : text) : starts_with p (p ++ rest) = true.
Proof. apply starts_with_spec. eauto. Qed.

Lemma line_kinds (url : string) (result : UrlResult) (attempt : Z)
    (diagnostic : string) :
  (is_ok_line (ok_line url result) = true /\
   is_broken_line (ok_line url result) = false) /\
  (is_ok_line (broken_line url result attempt) = false /\
   is_broken_line (broken_line url result attempt) = true) /\
  (is_ok_line (parse_line diagnostic) = false /\
   is_broken_line (parse_line diagnostic) = true).
Proof. repeat split; reflexivity. Qed.

Lemma count_lines_app (p : string -> bool) (l1 l2 : list string) :
  count_lines p (l1 ++ l2) = count_lines p l1 + count_lines p l2.
Proof. unfold count_lines. rewrite List.filter_app, length_app. lia. Qed.

Lemma count_parse_lines (invalid : list string) :
  count_lines is_ok_line (map parse_line invalid) = 0 /\
  count_lines is_broken_line (map parse_line invalid)
  = Z.of_nat (length invalid).
Proof.
  unfold count_lines. induction invalid as [|d l [IH1 IH2]]; [now split |].
  cbn [map List.filter].
  destruct (line_kinds "" uninitialized 0 d) as (_ & _ & -> & ->).
  cbn [length]. split; [exact IH1 | lia].
Qed.

Lemma outcome_line_kind (o : check_outcome) :
  is_ok_line (outcome_line o) = passed o /\
  is_broken_line (outcome_line o) = negb (passed o).
Proof.
  unfold outcome_line.
  destruct (line_kinds o.1 o.2.1 o.2.2 "") as ((H1 & H2) & (H3 & H4) & _).
  now destruct (passed o).
Qed.

Lemma count_outcome_lines (outs : list check_outcome) :
  count_lines is_ok_line (map outcome_line outs) = count_passed outs /\
  count_lines is_broken_line (map outcome_line outs) = count_failed outs.
Proof.
  unfold count_lines, count_passed, count_failed.
  induction outs as [|o os [IH1 IH2]]; [now split |].
  cbn [map List.filter].
  destruct (outcome_line_kind o) as [-> ->].
  destruct (passed o); cbn [negb length]; split; lia.
Qed.


(** X24.  With a negative [retries] no request is made at all: every listed
    URL is reported as broken with the initial verdict ([uninitialized],
    method [HEAD], no status) and the count [retries + 1], and the world is
    left as it was. *)
Theorem main_negative_retries rules st :
  arg_retries args < 0 ->
  let urls := (load_unique_urls urlparse rules).1 in
  let invalid := (load_unique_urls urlparse rules).2 in
  let total := Z.of_nat (length urls) + Z.of_nat (length invalid) in
  main fmul urlopen sleep reg urlparse args rules st
  = ((if total =? 0 then 0 else 1,
      map parse_line invalid ++
      map (fun u => "BROKEN [-] HEAD " +:+ u +:+ " (uninitialized; attempts="
                    +:+ pretty (arg_retries args + 1) +:+ ")") urls ++
      [summary_line total 0 total]),
     st).
Proof.
  intros Hneg urls invalid total. subst urls invalid total.
  pose proof (main_report fmul urlopen sleep reg urlparse args rules st)
    as Hmain.
  destruct (load_unique_urls urlparse rules) as [urls invalid].
  rewrite Hmain. cbn [fst snd]. clear Hmain.
  assert (Hall : forall urls,
            check_all fmul urlopen sleep reg args urls st
            = (map (fun u => (u, (uninitialized, arg_retries args + 1))) urls,
               st)).
  { clear urls. induction urls as [|u urls IH]; [reflexivity |].
    cbn [check_all map]. unfold check_url, check_with_retries.
    replace (Z.to_nat (arg_retries args + 1)) with 0%nat by lia.
    cbn [retry_loop]. now rewrite IH. }
  rewrite Hall. cbn [fst snd].
  assert (Hcount : count_passed
                     (map (fun u => (u, (uninitialized, arg_retries args + 1)))
                        urls) = 0 /\
                   count_failed
                     (map (fun u => (u, (uninitialized, arg_retries args + 1)))
                        urls) = Z.of_nat (length urls)).
  { clear. induction urls as [|u urls [IH1 IH2]]; [now split |].
    cbn [map]. destruct (count_cons (u, (uninitialized, arg_retries args + 1))
                           (map (fun u => (u, (uninitialized,
                                               arg_retries args + 1))) urls))
      as [-> ->].
    cbn [passed snd fst uninitialized ok length]. lia. }
  destruct Hcount as [-> ->]. rewrite map_map.
  replace (Z.of_nat (length invalid) + Z.of_nat (length urls))
    with (Z.of_nat (length urls) + Z.of_nat (length invalid)) by lia.
  reflexivity.
Qed.

(** X25.  When no rule lists an entry (no rules, or rules without evidence
    URLs), the run prints the summary with three zeros alone, returns 0 and
    does not touch the network. *)
Theorem main_no_entries rules st :
  Forall (fun r => source_urls r = []) rules ->
  main fmul urlopen sleep reg urlparse args rules st
  = ((0, ["Summary: checked=0 ok=0 broken=0"]), st).
Proof.
  intros Hnone.
  assert (Hacc : foldl (add_rule urlparse) (∅, ∅) rules = (∅, ∅)).
  { induction Hnone as [|r rules Hr _ IH]; [reflexivity |].
    cbn [foldl]. unfold add_rule at 2. rewrite Hr. exact IH. }
  unfold main, load_unique_urls. rewrite Hacc. reflexivity.
Qed.

End RunFacts.

Lemma main_negative_retries_witness :
  (main Z.mul Scripted.urlopen Scripted.sleep Scripted.reg Scripted.urlparse
     (mkArgs 12 (-1) 1 131072)
     [mkRule (Some "R1") [JStr "https://example.com/spec.txt"]]
     (Scripted.start [Scripted.plain_200]))
  = ((1, ["BROKEN [-] HEAD https://example.com/spec.txt (uninitialized; attempts=0)";
          "Summary: checked=1 ok=0 broken=1"]),
     Scripted.start [Scripted.plain_200]).
Proof.
  rewrite (main_negative_retries Z.mul Scripted.urlopen Scripted.sleep
             Scripted.reg Scripted.urlparse (mkArgs 12 (-1) 1 131072)
             [mkRule (Some "R1") [JStr "https://example.com/spec.txt"]]
             (Scripted.start [Scripted.plain_200])) by (cbn; lia).
  vm_compute. reflexivity.
Defined.

Lemma main_no_entries_witness :
  main Z.mul Scripted.urlopen Scripted.sleep Scripted.reg Scripted.urlparse
    Scripted.args [mkRule (Some "R1") []; mkRule None []]
    (Scripted.start [Scripted.plain_200])
  = ((0, ["Summary: checked=0 ok=0 broken=0"]),
     Scripted.start [Scripted.plain_200]).
Proof.
  apply (main_no_entries Z.mul Scripted.urlopen Scripted.sleep Scripted.reg
           Scripted.urlparse Scripted.args).
  repeat constructor.
Defined.

(** ** The soft-404 heuristic, continued ([not_found_heuristic]) *)

(** X10.  The heuristic reads markup only: a body in which neither [<title]
    nor [<h1] occurs, in any letter case, is never flagged, whatever its
    text says. *)
Theorem not_found_heuristic_needs_markup (html : string) :
  contains "<title" (lower html) = false ->
  contains "<h1" (lower html) = false ->
  not_found_heuristic html = None.
Proof.
  intros Htitle Hh1.
  assert (Hno_title : search TITLE_RE (chars html) = None).
  { destruct (search TITLE_RE (chars html)) as [[[pre g] post]|] eqn:E;
      [| reflexivity].
    destruct (search_title_first _ _ _ _ E)
      as (inner & _ & (pre' & m & post' & Hs & Helem & _)).
    destruct Helem as (o & attrs & c & -> & Ho & _).
    assert (H : contains "<title" (lower html) = true).
    { apply contains_any_case; [reflexivity |].
      exists pre', o, (attrs ++ [gt_sign] ++ inner ++ c ++ post').
      split; [| exact Ho]. rewrite Hs, <- !app_assoc. reflexivity. }
    congruence. }
  assert (Hno_h1 : search NOT_FOUND_H1_RE (chars html) = None).
  { destruct (search NOT_FOUND_H1_RE (chars html)) as [x|] eqn:E;
      [| reflexivity].
    assert (Hsome : is_Some (search NOT_FOUND_H1_RE (chars html)))
      by (rewrite E; eauto).
    apply search_h1_spec in Hsome as (pre & m & post & Hs & Helem).
    destruct Helem as (o & attrs & lead & phrase & trail & c & -> & Ho & _).
    assert (H : contains "<h1" (lower html) = true).
    { apply contains_any_case; [reflexivity |].
      exists pre, o,
        (attrs ++ [gt_sign] ++ lead ++ phrase ++ trail ++ c ++ post).
      split; [| exact Ho]. rewrite Hs, <- !app_assoc. reflexivity. }
    congruence. }
  unfold not_found_heuristic. rewrite Hno_title, Hno_h1.
  now destruct (nonempty html).
Qed.

Lemma not_found_heuristic_needs_markup_witness :
  not_found_heuristic "404 Not Found: the page you asked for is not here"
  = None.
Proof.
  apply not_found_heuristic_needs_markup; reflexivity.
Defined.

(** ** The declared charset, continued ([declared_charset]) *)

Lemma charset_re_spec (m : text) (g : option text) :
  matches CHARSET_RE None m g <->
  exists kw value,
    m = kw ++ value /\ g = Some value /\ same_letters "charset=" kw /\
    value ≠ [] /\ forallb charset_char value = true.
Proof.
  unfold CHARSET_RE. rewrite matches_seq. split.
  - intros (kw & value & cap1 & -> & Hkw & Hval).
    apply matches_lit_ci in Hkw as [-> Hkw].
    apply matches_group in Hval as [-> (cap2 & Hval)].
    apply matches_plus in Hval as (_ & Hall & Hne).
    exists kw, value. auto.
  - intros (kw & value & -> & -> & Hkw & Hne & Hall).
    exists kw, value, None. split; [reflexivity |].
    split; [now apply matches_lit_ci |].
    apply matches_group. split; [reflexivity |].
    exists None. now apply matches_plus.
Qed.

(** X5.  A header declares no charset exactly when no [charset=], in any
    letter case, is followed by a character other than white space and the
    semicolon; in particular when [charset=] does not occur in it. *)
Theorem declared_charset_none (content_type : string) :
  (declared_charset content_type = None <->
   ~ exists pre kw c rest,
       chars content_type = pre ++ kw ++ c :: rest /\
       same_letters "charset=" kw /\ charset_char c = true) /\
  (contains "charset=" (lower content_type) = false ->
   declared_charset content_type = None).
Proof.
  assert (Hiff : declared_charset content_type = None <->
                 ~ exists pre kw c rest,
                     chars content_type = pre ++ kw ++ c :: rest /\
                     same_letters "charset=" kw /\ charset_char c = true).
  { unfold declared_charset.
    destruct (search CHARSET_RE (chars content_type)) as [[[pre g] post]|] eqn:E.
    - split; [discriminate |]. intros Hnot. exfalso. apply Hnot.
      apply search_sound in E as (m & Hs & Hm).
      apply charset_re_spec in Hm as (kw & value & -> & _ & Hkw & Hne & Hall).
      destruct value as [|c value]; [congruence |].
      cbn [forallb] in Hall. apply andb_prop in Hall as [Hc _].
      exists pre, kw, c, (value ++ post).
      split; [| auto]. rewrite Hs, <- !app_assoc. reflexivity.
    - split; [| reflexivity]. intros _ (pre & kw & c & rest & Hs & Hkw & Hc).
      apply search_none in E. apply E.
      exists pre, (kw ++ [c]), rest, (Some [c]).
      split; [rewrite Hs, <- !app_assoc; reflexivity |].
      apply charset_re_spec. exists kw, [c].
      split; [reflexivity |]. split; [reflexivity |]. split; [exact Hkw |].
      split; [discriminate |]. cbn. now rewrite Hc. }
  split; [exact Hiff |].
  intros Hno. apply Hiff. intros (pre & kw & c & rest & Hs & Hkw & _).
  assert (H : contains "charset=" (lower content_type) = true).
  { apply contains_any_case; [reflexivity |]. exists pre, kw, (c :: rest). auto. }
  congruence.
Qed.

Lemma declared_charset_spec_witness :
  declared_charset "text/html; Charset='ISO-8859-1'; x=1" = Some "ISO-8859-1" /\
  exists pre kw value rest,
    chars "text/html; Charset='ISO-8859-1'; x=1" = pre ++ kw ++ value ++ rest /\
    same_letters "charset=" kw /\
    "ISO-8859-1" = str (strip_by is_quote value).
Proof.
  split; [reflexivity |].
  destruct (declared_charset_spec "text/html; Charset='ISO-8859-1'; x=1"
              "ISO-8859-1" eq_refl)
    as (pre & kw & value & rest & Hs & Hkw & _ & _ & _ & Hcs & _).
  exists pre, kw, value, rest. auto.
Defined.

(** ** Letter case and the heuristic *)

Lemma lower_char_idempotent (c : ascii) :
  lower_char (lower_char c) = lower_char c.
Proof. destruct c as [[] [] [] [] [] [] [] []]; vm_compute; reflexivity. Qed.

Lemma lower_text_idempotent (t : text) :
  lower_text (lower_text t) = lower_text t.
Proof.
  unfold lower_text. rewrite map_map. apply map_ext. intros c.
  apply lower_char_idempotent.
Qed.

Lemma lower_text_length (t : text) : length (lower_text t) = length t.
Proof. apply length_map. Qed.

Lemma lower_text_take (n : nat) (t : text) :
  lower_text (take n t) = take n (lower_text t).
Proof.
  revert n. induction t as [|c t IH]; intros [|n]; cbn; [reflexivity .. |].
  now rewrite <- IH.
Qed.

Section CaseBlind.
Context {A B : Type}.
Variable f : A -> B.

Lemma star_greedy_lower (p : ascii -> bool) (cap : option text)
    (k : option text -> text -> option A)
    (k' : option text -> text -> option B) (s : text) :
  (forall c, p (lower_char c) = p c) -> follows f k' k ->
  star_greedy p (lower_text <$> cap) k' (lower_text s)
  = f <$> star_greedy p cap k s.
Proof.
  intros Hp Hk. induction s as [|c s IH]; cbn [lower_text map star_greedy].
  - apply (Hk cap []).
  - rewrite Hp. destruct (p c); [| apply (Hk cap (c :: s))].
    fold (lower_text s). rewrite IH.
    destruct (star_greedy p cap k s); [reflexivity |].
    apply (Hk cap (c :: s)).
Qed.

Lemma star_lazy_lower (p : ascii -> bool) (cap : option text)
    (k : option text -> text -> option A)
    (k' : option text -> text -> option B) (s : text) :
  (forall c, p (lower_char c) = p c) -> follows f k' k ->
  star_lazy p (lower_text <$> cap) k' (lower_text s)
  = f <$> star_lazy p cap k s.
Proof.
  intros Hp Hk. induction s as [|c s IH].
  - pose proof (Hk cap []) as H0.
    change (lower_text []) with (@nil ascii) in *.
    cbn [star_lazy]. rewrite H0. now destruct (k cap []).
  - cbn [star_lazy]. change (lower_text (c :: s))
      with (lower_char c :: lower_text s).
    cbn [star_lazy].
    change (lower_char c :: lower_text s) with (lower_text (c :: s)).
    rewrite (Hk cap (c :: s)).
    destruct (k cap (c :: s)); [reflexivity |]. cbn [fmap option_fmap option_map].
    rewrite Hp. destruct (p c); [exact IH | reflexivity].
Qed.

End CaseBlind.

Lemma run_lower (r : regex) : forall {A B : Type} (f : A -> B) cap s
    (k : option text -> text -> option A)
    (k' : option text -> text -> option B),
  case_blind r -> follows f k' k ->
  run r (lower_text <$> cap) (lower_text s) k' = f <$> run r cap s k.
Proof.
  induction r as [|p|a IHa b IHb|a IHa b IHb|p|p|r IH];
    intros A B f cap s k k' Hr Hk; cbn [case_blind] in Hr; cbn [run].
  - apply Hk.
  - destruct s as [|c s]; [reflexivity |].
    cbn [lower_text map]. rewrite Hr.
    destruct (p c); [apply Hk | reflexivity].
  - destruct Hr as [Ha Hb]. apply (IHa _ _ f); [exact Ha |].
    intros cap1 s1. now apply IHb.
  - destruct Hr as [Ha Hb].
    rewrite (IHa _ _ f cap s k k' Ha Hk), (IHb _ _ f cap s k k' Hb Hk).
    now destruct (run a cap s k).
  - now apply star_greedy_lower.
  - now apply star_lazy_lower.
  - apply (IH _ _ f); [exact Hr |].
    intros cap1 s1. rewrite !lower_text_length, <- lower_text_take.
    apply (Hk (Some (take (length s - length s1) s)) s1).
Qed.

Lemma match_at_lower (r : regex) (s : text) :
  case_blind r ->
  match_at r (lower_text s) = lower_match <$> match_at r s.
Proof.
  intros Hr. unfold match_at.
  apply (run_lower r lower_match None s); [exact Hr |].
  intros cap s1. reflexivity.
Qed.

Lemma search_lower (r : regex) (s : text) :
  case_blind r ->
  search r (lower_text s) = lower_found <$> search r s.
Proof.
  intros Hr. induction s as [|c s IH].
  - cbn [lower_text map search]. change (@nil ascii) with (lower_text []) at 1.
    rewrite (match_at_lower r [] Hr).
    now destruct (match_at r []) as [[g rest]|].
  - cbn [search]. change (lower_text (c :: s))
      with (lower_char c :: lower_text s).
    cbn [search].
    change (lower_char c :: lower_text s) with (lower_text (c :: s)).
    rewrite (match_at_lower r (c :: s) Hr).
    destruct (match_at r (c :: s)) as [[g rest]|]; [reflexivity |].
    cbn [fmap option_fmap option_map]. rewrite IH.
    now destruct (search r s) as [[[pre g] rest]|].
Qed.

Lemma sub_go_lower (r : regex) (repl : text) (s : text) :
  case_blind r -> lower_text repl = repl ->
  forall skip,
    sub_go r repl skip (lower_text s) = lower_text (sub_go r repl skip s).
Proof.
  intros Hr Hrepl. induction s as [|c s IH]; intros skip; [reflexivity |].
  change (lower_text (c :: s)) with (lower_char c :: lower_text s).
  cbn [sub_go]. destruct skip as [|n]; [| apply IH].
  change (lower_char c :: lower_text s) with (lower_text (c :: s)).
  rewrite (match_at_lower r (c :: s) Hr).
  destruct (match_at r (c :: s)) as [[g rest]|];
    cbn [fmap option_fmap option_map lower_match snd].
  - rewrite !lower_text_length.
    destruct (length (c :: s) - length rest)%nat.
    + cbn [lower_text map]. f_equal. apply IH.
    + rewrite lower_text_app, Hrepl. f_equal. apply IH.
  - cbn [lower_text map]. f_equal. apply IH.
Qed.

Lemma title_re_case_blind : case_blind TITLE_RE.
Proof. case_blind_tests. Qed.

Lemma h1_re_case_blind : case_blind NOT_FOUND_H1_RE.
Proof. case_blind_tests. Qed.

Lemma tag_re_case_blind : case_blind TAG_RE.
Proof. case_blind_tests. Qed.

Lemma chars_lower (s : string) : chars (lower s) = lower_text (chars s).
Proof. unfold lower. apply chars_str. Qed.

Lemma nonempty_lower (s : string) : nonempty (lower s) = nonempty s.
Proof. now destruct s. Qed.

Lemma not_found_heuristic_lower (html : string) :
  not_found_heuristic (lower html) = not_found_heuristic html.
Proof.
  unfold not_found_heuristic. rewrite nonempty_lower, chars_lower.
  rewrite (search_lower _ _ h1_re_case_blind),
    (search_lower _ _ title_re_case_blind).
  destruct (nonempty html); cbn [negb]; [| reflexivity].
  assert (Hh1 : match lower_found <$> search NOT_FOUND_H1_RE (chars html) with
                | Some _ => Some "HTML h1 indicates missing page"
                | None => None
                end
                = match search NOT_FOUND_H1_RE (chars html) with
                  | Some _ => Some "HTML h1 indicates missing page"
                  | None => None
                  end)
    by now destruct (search NOT_FOUND_H1_RE (chars html)).
  rewrite Hh1.
  destruct (search TITLE_RE (chars html)) as [[[pre g] post]|];
    [| reflexivity].
  cbn [fmap option_fmap option_map lower_found fst snd].
  assert (Htext : lower (str (sub TAG_RE (chars " ")
                               (default [] (lower_text <$> g))))
                  = lower (str (sub TAG_RE (chars " ") (default [] g)))).
  { replace (default [] (lower_text <$> g)) with (lower_text (default [] g))
      by now destruct g.
    unfold sub. rewrite (sub_go_lower _ _ _ tag_re_case_blind eq_refl).
    now rewrite !lower_str, lower_text_idempotent. }
  now rewrite Htext.
Qed.

(** X11.  On the alphabet of the model (bodies whose code points are all
    below 256) the heuristic does not tell letter cases apart: two such
    bodies that are equal once lower-cased get the same answer.  (Beyond
    that alphabet [re.IGNORECASE] and [str.lower] disagree on a few letters,
    the dotted capital I for one, and the property does not extend.) *)
Theorem not_found_heuristic_any_case (html html' : string) :
  lower html = lower html' ->
  not_found_heuristic html = not_found_heuristic html'.
Proof.
  intros H.
  now rewrite <- (not_found_heuristic_lower html),
    <- (not_found_heuristic_lower html'), H.
Qed.

Lemma not_found_heuristic_any_case_witness :
  not_found_heuristic "<HTML><TITLE>Page Not Found</TITLE></HTML>"
  = not_found_heuristic "<html><title>page not found</title></html>".
Proof.
  apply not_found_heuristic_any_case. reflexivity.
Defined.

(** ** Worked examples *)

Example title_404_page :
  not_found_heuristic "<html><head><title>404 Not Found</title></head></html>"
  = Some "HTML title indicates 404".
Proof. vm_compute. reflexivity. Qed.

Example soft_404_verdict :
  let body := "<html><head><title>404 Not Found</title></head></html>" in
  evaluate_probe (mkProbe (Some 200) "GET" None "text/html" body None)
  = mkResult false "GET" (Some 200) "HTML title indicates 404" false None.
Proof. vm_compute. reflexivity. Qed.

Example heading_any_case :
  not_found_heuristic "<body><H1>  page   NOT found </H1></body>"
  = Some "HTML h1 indicates missing page".
Proof. vm_compute. reflexivity. Qed.

Example heading_in_sentence :
  not_found_heuristic "<h1>Sorry, Page Not Found on this server</h1>" = None.
Proof. vm_compute. reflexivity. Qed.

Example only_first_title_counts :
  not_found_heuristic "<title>Home</title><title>404 not found</title>" = None.
Proof. vm_compute. reflexivity. Qed.

Example run_plain_text :
  let rules := [mkRule (Some "R1") [JStr "https://example.com/spec.txt"]] in
  (main Z.mul Scripted.urlopen Scripted.sleep Scripted.reg Scripted.urlparse
     Scripted.args rules (Scripted.start [Scripted.plain_200])).1
  = (0, ["OK     [200] HEAD https://example.com/spec.txt";
         "Summary: checked=1 ok=1 broken=0"]).
Proof. vm_compute. reflexivity. Qed.

Example run_unresolvable :
  let rules := [mkRule (Some "R1") [JStr "https://nowhere.invalid/"]] in
  let dns := TransportError "URLError" "[Errno -2] Name or service not known" in
  (main Z.mul Scripted.urlopen Scripted.sleep Scripted.reg Scripted.urlparse
     (mkArgs 12 0 1 131072) rules (Scripted.start [dns; dns])).1
  = (1, ["BROKEN [-] GET (fallback) https://nowhere.invalid/ (URLError: [Errno -2] Name or service not known; attempts=1)";
         "Summary: checked=1 ok=0 broken=1"]).
Proof. vm_compute. reflexivity. Qed.

Example run_sample_dataset :
  (main Z.mul Scripted.urlopen Scripted.sleep Scripted.reg Scripted.urlparse
     Scripted.args Scripted.rules
     (Scripted.start [Scripted.plain_200; Scripted.http_error 404;
                      Scripted.http_error 404])).1
  = (1, ["BROKEN [-] parse CC-002: invalid URL 'ftp://example.com/x'";
         "BROKEN [-] parse CC-002: non-string URL entry";
         "OK     [200] HEAD https://example.com/b -> https://example.com/spec.txt";
         "BROKEN [404] GET (fallback) https://example.com/spec.txt (HTTP 404; attempts=1) -> https://example.com/";
         "Summary: checked=4 ok=1 broken=3"]).
Proof. vm_compute. reflexivity. Qed.
